(** * Huescale: the CIECAM02 colour appearance model and contrast compensation

    A shallow embedding of [src/domain/color/ciecam02.ts] and
    [src/domain/color/contrast-compensation.ts], of the argument parsing of
    [scripts/contrast-compensate.ts], of the stop-map utilities of
    [collections.ts] and of the numeric helpers of [interpolation.ts],
    followed by the theorems that settle the claims of the specification
    and by further properties of the code.

    ** The number model

    The source computes on JavaScript numbers.  The embedding keeps the
    IEEE 754 special values and every special-value rule of ECMAScript
    ([NaN] propagation, division by zero, [Math.pow] of a negative base,
    [Math.atan2] at the origin, comparisons with [NaN], ...) and interprets
    the finite values in exact real arithmetic: [Fin r] is the number whose
    value is the real [r].  So a decimal literal such as [0.7328] denotes
    the rational 7328/10000, finite results are not rounded, and they
    neither overflow nor underflow.  The two zeros of IEEE 754 are
    identified: a zero divisor yields the infinity that has the sign of the
    dividend.  The specification speaks of reals and of non-finite
    values, which is what this model distinguishes. *)

From Stdlib Require Import Reals Lra Lia ZArith List String Bool DecimalString.
Import ListNotations.

Set Implicit Arguments.

(* ================================================================== *)
(** * JavaScript numbers *)
(* ================================================================== *)

Inductive number : Type :=
| Fin (r : R)
| PosInf
| NegInf
| NaN.

Declare Scope number_scope.
Delimit Scope number_scope with num.
Bind Scope number_scope with number.

Notation "# r" := (Fin r%R) (at level 1, r at level 0, format "# r") : number_scope.

Definition Rltb (a b : R) : bool := if Rlt_dec a b then true else false.
Definition Rleb (a b : R) : bool := if Rle_dec a b then true else false.
Definition Reqb (a b : R) : bool := if Req_dec_T a b then true else false.

Definition is_finite (x : number) : bool :=
  match x with Fin _ => true | _ => false end.

Definition is_nan (x : number) : bool :=
  match x with NaN => true | _ => false end.

(** Unary minus. *)
Definition nneg (x : number) : number :=
  match x with
  | Fin a => Fin (- a)
  | PosInf => NegInf
  | NegInf => PosInf
  | NaN => NaN
  end.

(** [x + y]. *)
Definition nadd (x y : number) : number :=
  match x, y with
  | NaN, _ => NaN
  | _, NaN => NaN
  | Fin a, Fin b => Fin (a + b)
  | Fin _, PosInf => PosInf
  | Fin _, NegInf => NegInf
  | PosInf, Fin _ => PosInf
  | NegInf, Fin _ => NegInf
  | PosInf, PosInf => PosInf
  | NegInf, NegInf => NegInf
  | PosInf, NegInf => NaN
  | NegInf, PosInf => NaN
  end.

(** [x - y]. *)
Definition nsub (x y : number) : number := nadd x (nneg y).

(** The product of an infinity, given by its sign, with a finite factor. *)
Definition inf_times (negative : bool) (a : R) : number :=
  if Reqb a 0 then NaN
  else if xorb negative (Rltb a 0) then NegInf else PosInf.

(** [x * y]. *)
Definition nmul (x y : number) : number :=
  match x, y with
  | NaN, _ => NaN
  | _, NaN => NaN
  | Fin a, Fin b => Fin (a * b)
  | Fin a, PosInf => inf_times false a
  | Fin a, NegInf => inf_times true a
  | PosInf, Fin b => inf_times false b
  | NegInf, Fin b => inf_times true b
  | PosInf, PosInf => PosInf
  | NegInf, NegInf => PosInf
  | PosInf, NegInf => NegInf
  | NegInf, PosInf => NegInf
  end.

(** [x / y]. *)
Definition ndiv (x y : number) : number :=
  match x, y with
  | NaN, _ => NaN
  | _, NaN => NaN
  | Fin a, Fin b =>
      if Reqb b 0
      then (if Reqb a 0 then NaN else if Rltb a 0 then NegInf else PosInf)
      else Fin (a / b)
  | Fin _, PosInf => Fin 0
  | Fin _, NegInf => Fin 0
  | PosInf, Fin b => if Rltb b 0 then NegInf else PosInf
  | NegInf, Fin b => if Rltb b 0 then PosInf else NegInf
  | PosInf, PosInf => NaN
  | PosInf, NegInf => NaN
  | NegInf, PosInf => NaN
  | NegInf, NegInf => NaN
  end.

(** [x < y]. *)
Definition nlt (x y : number) : bool :=
  match x, y with
  | Fin a, Fin b => Rltb a b
  | Fin _, PosInf => true
  | NegInf, Fin _ => true
  | NegInf, PosInf => true
  | _, _ => false
  end.

(** [x >= y]. *)
Definition nge (x y : number) : bool :=
  match x, y with
  | Fin a, Fin b => Rleb b a
  | PosInf, Fin _ => true
  | PosInf, PosInf => true
  | PosInf, NegInf => true
  | Fin _, NegInf => true
  | NegInf, NegInf => true
  | _, _ => false
  end.

(** [x === y]. *)
Definition nstrict_eq (x y : number) : bool :=
  match x, y with
  | Fin a, Fin b => Reqb a b
  | PosInf, PosInf => true
  | NegInf, NegInf => true
  | _, _ => false
  end.

Infix "+" := nadd : number_scope.
Infix "-" := nsub : number_scope.
Infix "*" := nmul : number_scope.
Infix "/" := ndiv : number_scope.
Notation "- x" := (nneg x) : number_scope.
Infix "<?" := nlt (at level 70, no associativity) : number_scope.
Infix ">=?" := nge (at level 70, no associativity) : number_scope.
Infix "===" := nstrict_eq (at level 70, no associativity) : number_scope.

(* ================================================================== *)
(** * The Math object *)
(* ================================================================== *)

Definition Math_PI : number := Fin PI.

Definition Math_abs (x : number) : number :=
  match x with
  | Fin a => Fin (Rabs a)
  | PosInf => PosInf
  | NegInf => PosInf
  | NaN => NaN
  end.

Definition Math_max (x y : number) : number :=
  match x, y with
  | NaN, _ => NaN
  | _, NaN => NaN
  | _, _ => if nge x y then x else y
  end.

Definition Math_min (x y : number) : number :=
  match x, y with
  | NaN, _ => NaN
  | _, NaN => NaN
  | _, _ => if nge y x then x else y
  end.

Definition Math_sqrt (x : number) : number :=
  match x with
  | Fin a => if Rltb a 0 then NaN else Fin (sqrt a)
  | PosInf => PosInf
  | NegInf => NaN
  | NaN => NaN
  end.

Definition Math_exp (x : number) : number :=
  match x with
  | Fin a => Fin (exp a)
  | PosInf => PosInf
  | NegInf => Fin 0
  | NaN => NaN
  end.

Definition Math_cos (x : number) : number :=
  match x with
  | Fin a => Fin (cos a)
  | _ => NaN
  end.

Definition Math_sin (x : number) : number :=
  match x with
  | Fin a => Fin (sin a)
  | _ => NaN
  end.

(** [Math.atan2(y, x)], the angle of the point (x, y) in (-PI, PI]. *)
Definition Math_atan2 (y x : number) : number :=
  match y, x with
  | NaN, _ => NaN
  | _, NaN => NaN
  | PosInf, PosInf => Fin (PI / 4)
  | PosInf, NegInf => Fin (3 * PI / 4)
  | PosInf, Fin _ => Fin (PI / 2)
  | NegInf, PosInf => Fin (- PI / 4)
  | NegInf, NegInf => Fin (- 3 * PI / 4)
  | NegInf, Fin _ => Fin (- PI / 2)
  | Fin b, PosInf => Fin 0
  | Fin b, NegInf => if Rltb b 0 then Fin (- PI) else Fin PI
  | Fin b, Fin a =>
      if Rltb 0 a then Fin (atan (b / a))
      else if Rltb a 0
           then (if Rltb b 0 then Fin (atan (b / a) - PI) else Fin (atan (b / a) + PI))
           else (if Rltb 0 b then Fin (PI / 2)
                 else if Rltb b 0 then Fin (- PI / 2) else Fin 0)
  end.

(** Whether a real is an integer, and whether it is an odd one. *)
Definition is_integer (e : R) : bool := Reqb e (IZR (Int_part e)).
Definition is_odd_integer (e : R) : bool := is_integer e && Z.odd (Int_part e).

(** [Math.pow(base, exponent)], after Number::exponentiate of ECMAScript. *)
Definition Math_pow (base exponent : number) : number :=
  match exponent with
  | NaN => NaN
  | PosInf =>
      match base with
      | NaN => NaN
      | PosInf => PosInf
      | NegInf => PosInf
      | Fin b =>
          if Rltb 1 (Rabs b) then PosInf
          else if Reqb (Rabs b) 1 then NaN else Fin 0
      end
  | NegInf =>
      match base with
      | NaN => NaN
      | PosInf => Fin 0
      | NegInf => Fin 0
      | Fin b =>
          if Rltb 1 (Rabs b) then Fin 0
          else if Reqb (Rabs b) 1 then NaN else PosInf
      end
  | Fin e =>
      if Reqb e 0 then Fin 1
      else
        match base with
        | NaN => NaN
        | PosInf => if Rltb 0 e then PosInf else Fin 0
        | NegInf =>
            if Rltb 0 e
            then (if is_odd_integer e then NegInf else PosInf)
            else Fin 0
        | Fin b =>
            if Reqb b 0 then (if Rltb 0 e then Fin 0 else PosInf)
            else if Rltb 0 b then Fin (Rpower b e)
            else if is_integer e
                 then Fin ((if Z.odd (Int_part e) then -1 else 1) * Rpower (- b) e)
                 else NaN
        end
  end.

(* ================================================================== *)
(** * Effects *)
(* ================================================================== *)

(** An [Effect<A, E>] that has been run: a success value or a typed
    failure. *)
Inductive Effect (A E : Type) : Type :=
| Success (a : A)
| Failure (e : E).

Arguments Success {A E} a.
Arguments Failure {A E} e.

(** How the evaluation of a JavaScript function body ends: with a value, or
    with a thrown exception (the [cause] handed to [catch]). *)
Inductive Completion (A : Type) : Type :=
| Normal (a : A)
| Throw (cause : string).

Arguments Normal {A} a.
Arguments Throw {A} cause.

(** [Effect.try({ try, catch })]. *)
Definition Effect_try {A E : Type}
  (try : unit -> Completion A) (catch : string -> E) : Effect A E :=
  match try tt with
  | Normal a => Success a
  | Throw cause => Failure (catch cause)
  end.

(** [yield*] inside [Effect.gen]. *)
Definition Effect_bind {A B E : Type}
  (m : Effect A E) (k : A -> Effect B E) : Effect B E :=
  match m with
  | Success a => k a
  | Failure e => Failure e
  end.

(** [Effect.mapError]. *)
Definition Effect_mapError {A E E' : Type}
  (f : E -> E') (m : Effect A E) : Effect A E' :=
  match m with
  | Success a => Success a
  | Failure e => Failure (f e)
  end.

(** [Effect.forEach(items, f)] with its default options: the elements are
    processed one after the other, the results are collected in input order,
    and the first failure ends the traversal. *)
Fixpoint Effect_forEach {A B E : Type}
  (items : list A) (f : A -> Effect B E) : Effect (list B) E :=
  match items with
  | [] => Success []
  | x :: rest =>
      match f x with
      | Failure e => Failure e
      | Success y =>
          match Effect_forEach rest f with
          | Failure e => Failure e
          | Success ys => Success (y :: ys)
          end
      end
  end.

Notation "x <- m ;; k" := (Effect_bind m (fun x => k))
  (at level 61, m at next level, right associativity).

(** [Arr.range(start, end)]: the integers from [start] to [end], both
    included. *)
Definition Arr_range (start stop : nat) : list nat :=
  seq start (stop - start + 1).

Fixpoint findLastIndex_from {A : Type}
  (p : A -> bool) (self : list A) (k : nat) : option nat :=
  match self with
  | [] => None
  | x :: rest =>
      match findLastIndex_from p rest (S k) with
      | Some j => Some j
      | None => if p x then Some k else None
      end
  end.

(** [Arr.findLastIndex(predicate)]: the index of the last element that
    satisfies the predicate. *)
Definition Arr_findLastIndex {A : Type} (p : A -> bool) (self : list A)
  : option nat :=
  findLastIndex_from p self 0.

(** [table[i]] on a constant tuple of numbers. An index outside the tuple
    reads [undefined], which every arithmetic operation and comparison of
    the source treats as [NaN]. *)
Definition js_index (table : list number) (i : nat) : number :=
  nth i table NaN.

(* ================================================================== *)
(** * ciecam02.ts: errors and types *)
(* ================================================================== *)

Module CIECAM02Error.
Record t : Type := mk { message : string; cause : option string }.
End CIECAM02Error.

(** 3-component vector and 3x3 matrix (array of three rows). *)
Definition Vec3 : Type := (number * number * number)%type.
Definition Matrix3x3 : Type := (Vec3 * Vec3 * Vec3)%type.

Definition at0 {A : Type} (v : A * A * A) : A := fst (fst v).
Definition at1 {A : Type} (v : A * A * A) : A := snd (fst v).
Definition at2 {A : Type} (v : A * A * A) : A := snd v.

Module XYZ.
Record t : Type := mk { X : number; Y : number; Z : number }.
End XYZ.

Module SurroundParameters.
Record t : Type := mk { F : number; c : number; Nc : number }.
End SurroundParameters.

Module ViewingConditions.
Record t : Type := mk {
    La : number;
    Yb : number;
    surround : SurroundParameters.t;
    k : number;
    Fl : number;
    n : number;
    Nbb : number;
    Ncb : number;
    z : number;
    D : number;
    Aw : number;
    adaptedWhiteRgc : Vec3
  }.
End ViewingConditions.

Module AppearanceCorrelates.
Record t : Type := mk {
    J : number;
    C : number;
    h : number;
    M : number;
    s : number;
    Q : number
  }.
End AppearanceCorrelates.

(** [Pick<AppearanceCorrelates, "J" | "C" | "h">]. *)
Module JCh.
Record t : Type := mk { J : number; C : number; h : number }.
End JCh.

Inductive SurroundCondition : Type := average | dim | dark.

(* ================================================================== *)
(** * ciecam02.ts: constants *)
(* ================================================================== *)

Local Open Scope number_scope.

Definition M_CAT02 : Matrix3x3 :=
  ((#0.7328, #0.4296, #(-0.1624)),
   (#(-0.7036), #1.6975, #0.0061),
   (#0.0030, #0.0136, #0.9834)).

Definition M_CAT02_INV : Matrix3x3 :=
  ((#1.096124, #(-0.278869), #0.182745),
   (#0.454369, #0.473533, #0.072098),
   (#(-0.009628), #(-0.005698), #1.015326)).

Definition M_HPE : Matrix3x3 :=
  ((#0.38971, #0.68898, #(-0.07868)),
   (#(-0.22981), #1.18340, #0.04641),
   (#0.00000, #0.00000, #1.00000)).

Definition M_HPE_INV : Matrix3x3 :=
  ((#1.910197, #(-1.112124), #0.201908),
   (#0.370950, #0.629054, #(-0.000008)),
   (#0.000000, #0.000000, #1.000000)).

Definition SURROUND_AVERAGE : SurroundParameters.t :=
  SurroundParameters.mk #1.0 #0.69 #1.0.

Definition SURROUND_DIM : SurroundParameters.t :=
  SurroundParameters.mk #0.9 #0.59 #0.95.

Definition SURROUND_DARK : SurroundParameters.t :=
  SurroundParameters.mk #0.8 #0.525 #0.8.

Definition D65_WHITE_POINT : XYZ.t := XYZ.mk #95.047 #100.0 #108.883.

Definition DEG_TO_RAD : number := Math_PI / #180.
Definition RAD_TO_DEG : number := #180 / Math_PI.

Definition CONE_RESPONSE_EXPONENT : number := #0.42.
Definition CONE_RESPONSE_SCALE : number := #400.
Definition CONE_RESPONSE_OFFSET : number := #27.13.
Definition POST_ADAPTATION_OFFSET : number := #0.1.

Definition ECCENTRICITY_HUE_ANGLES : list number :=
  [#20.14; #90.00; #164.25; #237.53; #380.14].

Definition ECCENTRICITY_VALUES : list number :=
  [#0.8; #0.7; #1.0; #1.2; #0.8].

Definition ECCENTRICITY_H_VALUES : list number :=
  [#0.0; #100.0; #200.0; #300.0; #400.0].

(* ================================================================== *)
(** * ciecam02.ts: helpers *)
(* ================================================================== *)

(** Multiply a 3x3 matrix by a 3-component vector. *)
Definition multiplyMatrixVec (m : Matrix3x3) (v : Vec3) : Vec3 :=
  (at0 (at0 m) * at0 v + at1 (at0 m) * at1 v + at2 (at0 m) * at2 v,
   at0 (at1 m) * at0 v + at1 (at1 m) * at1 v + at2 (at1 m) * at2 v,
   at0 (at2 m) * at0 v + at1 (at2 m) * at1 v + at2 (at2 m) * at2 v).

(** Forward nonlinear adaptation (cone response compression). *)
Definition nonlinearAdaptation (component Fl : number) : number :=
  let sign := if component >=? #0 then #1 else #(-1) in
  let abs := Math_abs component in
  let p := Math_pow (Fl * abs / #100) CONE_RESPONSE_EXPONENT in
  sign * (CONE_RESPONSE_SCALE * p) / (p + CONE_RESPONSE_OFFSET)
  + POST_ADAPTATION_OFFSET.

(** Inverse nonlinear adaptation. *)
Definition inverseNonlinearAdaptation (adapted Fl : number) : number :=
  let val := adapted - POST_ADAPTATION_OFFSET in
  let sign := if val >=? #0 then #1 else #(-1) in
  let abs := Math_abs val in
  let p := (CONE_RESPONSE_OFFSET * abs) / (CONE_RESPONSE_SCALE - abs) in
  sign * (#100 / Fl) * Math_pow p (#1 / CONE_RESPONSE_EXPONENT).

(** The [const] bindings of [eccentricityFactor], in source order. *)
Module Ecc.
Record locals : Type := mk {
    hp : number;
    segmentIndex : option nat;
    i : nat;
    hi : number;
    ei : number;
    Hi : number;
    hiNext : number;
    eiNext : number;
    HiNext : number;
    t : number;
    denominator : number
  }.
End Ecc.

Definition eccentricityFactor_locals (h : number) : Ecc.locals :=
  let hp := if h <? js_index ECCENTRICITY_HUE_ANGLES 0 then h + #360 else h in
  let segmentIndex :=
    Arr_findLastIndex (fun i => hp >=? js_index ECCENTRICITY_HUE_ANGLES i)
                      (Arr_range 0 3) in
  let i := match segmentIndex with Some value => value | None => 0%nat end in
  let hi := js_index ECCENTRICITY_HUE_ANGLES i in
  let ei := js_index ECCENTRICITY_VALUES i in
  let Hi := js_index ECCENTRICITY_H_VALUES i in
  let hiNext := js_index ECCENTRICITY_HUE_ANGLES (i + 1) in
  let eiNext := js_index ECCENTRICITY_VALUES (i + 1) in
  let HiNext := js_index ECCENTRICITY_H_VALUES (i + 1) in
  let t := (hp - hi) / ei in
  let denominator := t + (hiNext - hp) / eiNext in
  Ecc.mk hp segmentIndex i hi ei Hi hiNext eiNext HiNext t denominator.

(** Compute the eccentricity factor et for a given hue angle. *)
Definition eccentricityFactor (h : number) : number :=
  let v := eccentricityFactor_locals h in
  let hp := Ecc.hp v in
  let hi := Ecc.hi v in
  let ei := Ecc.ei v in
  let Hi := Ecc.Hi v in
  let hiNext := Ecc.hiNext v in
  let eiNext := Ecc.eiNext v in
  let HiNext := Ecc.HiNext v in
  let t := Ecc.t v in
  let denominator := Ecc.denominator v in
  if denominator === #0
  then ei
  else (Hi + (#100 * t) / denominator) / #100
       * ((eiNext * ei)
          / (eiNext * (hp - hi) / (HiNext - Hi)
             + ei * (hiNext - hp) / (HiNext - Hi))).

(** Resolve surround condition label to parameters. *)
Definition resolveSurround (condition : SurroundCondition)
  : SurroundParameters.t :=
  match condition with
  | average => SURROUND_AVERAGE
  | dim => SURROUND_DIM
  | dark => SURROUND_DARK
  end.

(* ================================================================== *)
(** * ciecam02.ts: makeViewingConditions *)
(* ================================================================== *)

(** The [const] bindings of the [try] block of [makeViewingConditions]. *)
Module Mvc.
Record locals : Type := mk {
    surroundParams : SurroundParameters.t;
    k : number;
    k4 : number;
    Fl : number;
    n : number;
    Nbb : number;
    Ncb : number;
    z : number;
    D : number;
    Dclamp : number;
    whiteRgb : Vec3;
    adaptedWhiteRgc : Vec3;
    whiteRgbHpe : Vec3;
    whiteRa : number;
    whiteGa : number;
    whiteBa : number;
    Aw : number
  }.
End Mvc.

Definition makeViewingConditions_locals
  (La Yb : number) (whitePoint : XYZ.t) (surround : SurroundCondition)
  : Mvc.locals :=
  let surroundParams := resolveSurround surround in
  let k := #1 / (#5 * La + #1) in
  let k4 := k * k * k * k in
  let Fl := #0.2 * k4 * (#5 * La)
            + #0.1 * Math_pow (#1 - k4) #2 * Math_pow (#5 * La) (#1 / #3) in
  let n := Yb / XYZ.Y whitePoint in
  let Nbb := #0.725 * Math_pow (#1 / n) #0.2 in
  let Ncb := Nbb in
  let z := #1.48 + Math_sqrt n in
  let D := SurroundParameters.F surroundParams
           * (#1 - (#1 / #3.6) * Math_exp ((- La - #42) / #92)) in
  let Dclamp := Math_max #0 (Math_min #1 D) in
  let whiteRgb :=
    multiplyMatrixVec M_CAT02
      (XYZ.X whitePoint, XYZ.Y whitePoint, XYZ.Z whitePoint) in
  let adaptedWhiteRgc : Vec3 :=
    ((Dclamp * XYZ.Y whitePoint / at0 whiteRgb + #1 - Dclamp) * at0 whiteRgb,
     (Dclamp * XYZ.Y whitePoint / at1 whiteRgb + #1 - Dclamp) * at1 whiteRgb,
     (Dclamp * XYZ.Y whitePoint / at2 whiteRgb + #1 - Dclamp) * at2 whiteRgb) in
  let whiteRgbHpe :=
    multiplyMatrixVec M_HPE (multiplyMatrixVec M_CAT02_INV adaptedWhiteRgc) in
  let whiteRa := nonlinearAdaptation (at0 whiteRgbHpe) Fl in
  let whiteGa := nonlinearAdaptation (at1 whiteRgbHpe) Fl in
  let whiteBa := nonlinearAdaptation (at2 whiteRgbHpe) Fl in
  let Aw := (#2 * whiteRa + whiteGa + (#1 / #20) * whiteBa - #0.305) * Nbb in
  Mvc.mk surroundParams k k4 Fl n Nbb Ncb z D Dclamp whiteRgb adaptedWhiteRgc
         whiteRgbHpe whiteRa whiteGa whiteBa Aw.

(** Precompute viewing condition parameters from adapting luminance,
    background luminance, and surround type.  A call that leaves out
    [surround] passes [None] and gets the default, [average]. *)
Definition makeViewingConditions
  (La Yb : number) (whitePoint : XYZ.t) (surround : option SurroundCondition)
  : Effect ViewingConditions.t CIECAM02Error.t :=
  let surround := match surround with Some s => s | None => average end in
  Effect_try
    (fun _ =>
       let v := makeViewingConditions_locals La Yb whitePoint surround in
       Normal
         (ViewingConditions.mk La Yb (Mvc.surroundParams v) (Mvc.k v)
            (Mvc.Fl v) (Mvc.n v) (Mvc.Nbb v) (Mvc.Ncb v) (Mvc.z v)
            (Mvc.Dclamp v) (Mvc.Aw v) (Mvc.adaptedWhiteRgc v)))
    (fun cause =>
       CIECAM02Error.mk "Failed to compute viewing conditions" (Some cause)).

(* ================================================================== *)
(** * ciecam02.ts: forward *)
(* ================================================================== *)

(** The bindings of the [try] block of [forward], in source order. *)
Module Fwd.
Record locals : Type := mk {
    rgb : Vec3;
    whiteRgb : Vec3;
    rgc : Vec3;
    rgbHpe : Vec3;
    Ra : number;
    Ga : number;
    Ba : number;
    a : number;
    b : number;
    h : number;
    et : number;
    A : number;
    J : number;
    Q : number;
    t : number;
    C : number;
    M : number;
    s : number
  }.
End Fwd.

Definition forward_locals
  (xyz whitePoint : XYZ.t) (conditions : ViewingConditions.t) : Fwd.locals :=
  let Fl := ViewingConditions.Fl conditions in
  let Nbb := ViewingConditions.Nbb conditions in
  let Ncb := ViewingConditions.Ncb conditions in
  let z := ViewingConditions.z conditions in
  let Aw := ViewingConditions.Aw conditions in
  let D := ViewingConditions.D conditions in
  let surround := ViewingConditions.surround conditions in
  (* Step 1: Chromatic adaptation (CAT02) *)
  let rgb := multiplyMatrixVec M_CAT02 (XYZ.X xyz, XYZ.Y xyz, XYZ.Z xyz) in
  let whiteRgb :=
    multiplyMatrixVec M_CAT02
      (XYZ.X whitePoint, XYZ.Y whitePoint, XYZ.Z whitePoint) in
  let rgc : Vec3 :=
    ((D * XYZ.Y whitePoint / at0 whiteRgb + #1 - D) * at0 rgb,
     (D * XYZ.Y whitePoint / at1 whiteRgb + #1 - D) * at1 rgb,
     (D * XYZ.Y whitePoint / at2 whiteRgb + #1 - D) * at2 rgb) in
  (* Step 2: Convert to Hunt-Pointer-Estevez cone responses *)
  let rgbHpe := multiplyMatrixVec M_HPE (multiplyMatrixVec M_CAT02_INV rgc) in
  (* Step 3: Nonlinear compression (post-adaptation) *)
  let Ra := nonlinearAdaptation (at0 rgbHpe) Fl in
  let Ga := nonlinearAdaptation (at1 rgbHpe) Fl in
  let Ba := nonlinearAdaptation (at2 rgbHpe) Fl in
  (* Step 4: Opponent color dimensions *)
  let a := Ra - #12 * Ga / #11 + Ba / #11 in
  let b := (Ra + Ga - #2 * Ba) / #9 in
  (* Step 5: Hue angle *)
  let h := Math_atan2 b a * RAD_TO_DEG in
  let h := if h <? #0 then h + #360 else h in
  (* Step 6: Eccentricity and hue composition *)
  let et := eccentricityFactor h in
  (* Step 7: Achromatic response *)
  let A := (#2 * Ra + Ga + (#1 / #20) * Ba - #0.305) * Nbb in
  (* Step 8: Lightness J *)
  let J := #100 * Math_pow (A / Aw) (SurroundParameters.c surround * z) in
  (* Step 9: Brightness Q *)
  let Q := (#4 / SurroundParameters.c surround) * Math_pow (J / #100) #0.5
           * (Aw + #4) * Math_pow Fl #0.25 in
  (* Step 10: Chroma *)
  let t := (#50000 / #13) * SurroundParameters.Nc surround * Ncb * et
           * Math_sqrt (a * a + b * b)
           / (Ra + Ga + #21 * Ba / #20) in
  let C := Math_pow t #0.9 * Math_pow (J / #100) #0.5
           * (#1.64 - Math_pow #0.29 (ViewingConditions.n conditions)) in
  (* Step 11: Colorfulness M *)
  let M := C * Math_pow Fl #0.25 in
  (* Step 12: Saturation s *)
  let s := #100 * Math_pow (M / Q) #0.5 in
  Fwd.mk rgb whiteRgb rgc rgbHpe Ra Ga Ba a b h et A J Q t C M s.

(** Forward CIECAM02 transform: XYZ to appearance correlates
    (J, C, h, M, s, Q) under the given viewing conditions. *)
Definition forward
  (xyz whitePoint : XYZ.t) (conditions : ViewingConditions.t)
  : Effect AppearanceCorrelates.t CIECAM02Error.t :=
  Effect_try
    (fun _ =>
       let v := forward_locals xyz whitePoint conditions in
       Normal
         (AppearanceCorrelates.mk (Fwd.J v) (Fwd.C v) (Fwd.h v) (Fwd.M v)
            (Fwd.s v) (Fwd.Q v)))
    (fun cause =>
       CIECAM02Error.mk "Forward CIECAM02 transform failed" (Some cause)).

(* ================================================================== *)
(** * ciecam02.ts: inverse *)
(* ================================================================== *)

(** The bindings of the [try] block of [inverse], in source order. *)
Module Inv.
Record locals : Type := mk {
    A : number;
    t : number;
    et : number;
    hRad : number;
    cosH : number;
    sinH : number;
    p1 : number;
    p2 : number;
    gamma : number;
    a : number;
    b : number;
    Ra : number;
    Ga : number;
    Ba : number;
    rgbHpe : Vec3;
    rgc : Vec3;
    whiteRgb : Vec3;
    rgb : Vec3;
    xyzVec : Vec3
  }.
End Inv.

Definition inverse_locals
  (correlates : JCh.t) (whitePoint : XYZ.t) (conditions : ViewingConditions.t)
  : Inv.locals :=
  let J := JCh.J correlates in
  let C := JCh.C correlates in
  let h := JCh.h correlates in
  let Fl := ViewingConditions.Fl conditions in
  let Nbb := ViewingConditions.Nbb conditions in
  let Ncb := ViewingConditions.Ncb conditions in
  let z := ViewingConditions.z conditions in
  let Aw := ViewingConditions.Aw conditions in
  let D := ViewingConditions.D conditions in
  let surround := ViewingConditions.surround conditions in
  let n := ViewingConditions.n conditions in
  (* Step 1: Recover A from J *)
  let A := Aw * Math_pow (J / #100) (#1 / (SurroundParameters.c surround * z)) in
  (* Step 2: Recover t from C and J *)
  let t := Math_pow
             (C / (Math_pow (J / #100) #0.5 * (#1.64 - Math_pow #0.29 n)))
             (#1 / #0.9) in
  (* Step 3: Eccentricity factor *)
  let et := eccentricityFactor h in
  (* Step 4: Recover a and b from t, h, A *)
  let hRad := h * DEG_TO_RAD in
  let cosH := Math_cos hRad in
  let sinH := Math_sin hRad in
  let p1 := (#50000 / #13) * SurroundParameters.Nc surround * Ncb * et in
  let p2 := A / Nbb + #0.305 in
  let gamma := #23 * (p2 + #0.305) * t
               / (#23 * p1 + #11 * t * cosH + #108 * t * sinH) in
  let a := gamma * cosH in
  let b := gamma * sinH in
  (* Step 5: Recover post-adaptation cone responses *)
  let Ra := (#460 * p2 + #451 * a + #288 * b) / #1403 in
  let Ga := (#460 * p2 - #891 * a - #261 * b) / #1403 in
  let Ba := (#460 * p2 - #220 * a - #6300 * b) / #1403 in
  (* Step 6: Invert nonlinear adaptation *)
  let rgbHpe : Vec3 :=
    (inverseNonlinearAdaptation Ra Fl,
     inverseNonlinearAdaptation Ga Fl,
     inverseNonlinearAdaptation Ba Fl) in
  (* Step 7: Convert back through HPE and CAT02 *)
  let rgc := multiplyMatrixVec M_CAT02 (multiplyMatrixVec M_HPE_INV rgbHpe) in
  (* Step 8: Undo chromatic adaptation *)
  let whiteRgb :=
    multiplyMatrixVec M_CAT02
      (XYZ.X whitePoint, XYZ.Y whitePoint, XYZ.Z whitePoint) in
  let rgb : Vec3 :=
    (at0 rgc / (D * XYZ.Y whitePoint / at0 whiteRgb + #1 - D),
     at1 rgc / (D * XYZ.Y whitePoint / at1 whiteRgb + #1 - D),
     at2 rgc / (D * XYZ.Y whitePoint / at2 whiteRgb + #1 - D)) in
  (* Step 9: Convert back to XYZ *)
  let xyzVec := multiplyMatrixVec M_CAT02_INV rgb in
  Inv.mk A t et hRad cosH sinH p1 p2 gamma a b Ra Ga Ba rgbHpe rgc whiteRgb
         rgb xyzVec.

(** Inverse CIECAM02 transform: appearance correlates (J, C, h) to XYZ
    under the given viewing conditions. *)
Definition inverse
  (correlates : JCh.t) (whitePoint : XYZ.t) (conditions : ViewingConditions.t)
  : Effect XYZ.t CIECAM02Error.t :=
  Effect_try
    (fun _ =>
       let v := inverse_locals correlates whitePoint conditions in
       Normal
         (XYZ.mk (at0 (Inv.xyzVec v)) (at1 (Inv.xyzVec v)) (at2 (Inv.xyzVec v))))
    (fun cause =>
       CIECAM02Error.mk "Inverse CIECAM02 transform failed" (Some cause)).

(* ================================================================== *)
(** * contrast-compensation.ts *)
(* ================================================================== *)

Module ContrastCompensationError.
Record t : Type := mk { message : string; cause : option string }.
End ContrastCompensationError.

(** [ContrastCompensationError | CIECAM02Error]. *)
Inductive CompensationFailure : Type :=
| OfContrastCompensation (e : ContrastCompensationError.t)
| OfCIECAM02 (e : CIECAM02Error.t).

Module OKLCHColor.
Record t : Type := mk { l : number; c : number; h : number; alpha : number }.
End OKLCHColor.

(** culori's [Oklch] and [Xyz65] colour objects; a property that is absent
    reads [undefined], here [None]. *)
Module CuloriOklch.
Record t : Type := mk {
    l : option number;
    c : option number;
    h : option number;
    alpha : option number
  }.
End CuloriOklch.

Module CuloriXyz65.
Record t : Type := mk { x : number; y : number; z : number }.
End CuloriXyz65.

(** [value ?? fallback]. *)
Definition nullish {A : Type} (value : option A) (fallback : A) : A :=
  match value with Some v => v | None => fallback end.

(** Adapting field luminance for typical screen viewing (cd/m2). *)
Definition SCREEN_ADAPTING_LUMINANCE : number := #64.

Section ContrastCompensation.

  (** The collaborators that the module imports: culori's converters and
      [clampToGamut] of [color.ts], whose failure is handed on as the
      cause of a [ContrastCompensationError]. *)
Variable culori_xyz65 : CuloriOklch.t -> option CuloriXyz65.t.
Variable culori_oklch : CuloriXyz65.t -> option CuloriOklch.t.
Variable clampToGamut : OKLCHColor.t -> Effect OKLCHColor.t string.

  (** Convert OKLCH color to CIE XYZ (D65, 0-100 scale). *)
Definition oklchToXyz65 (color : OKLCHColor.t) : XYZ.t :=
    let culoriOklch :=
      CuloriOklch.mk (Some (OKLCHColor.l color)) (Some (OKLCHColor.c color))
                     (Some (OKLCHColor.h color)) (Some (OKLCHColor.alpha color)) in
    let xyz := culori_xyz65 culoriOklch in
    XYZ.mk (nullish (option_map CuloriXyz65.x xyz) #0 * #100)
           (nullish (option_map CuloriXyz65.y xyz) #0 * #100)
           (nullish (option_map CuloriXyz65.z xyz) #0 * #100).

  (** Convert CIE XYZ (D65, 0-100 scale) back to OKLCH. *)
Definition xyz65ToOklch (xyz : XYZ.t) : OKLCHColor.t :=
    let culoriXyz :=
      CuloriXyz65.mk (XYZ.X xyz / #100) (XYZ.Y xyz / #100) (XYZ.Z xyz / #100) in
    let oklch := culori_oklch culoriXyz in
    let field (get : CuloriOklch.t -> option number) : option number :=
      match oklch with Some o => get o | None => None end in
    OKLCHColor.mk
      (Math_max #0 (Math_min #1 (nullish (field CuloriOklch.l) #0)))
      (Math_max #0 (nullish (field CuloriOklch.c) #0))
      (nullish (field CuloriOklch.h) #0)
      (nullish (field CuloriOklch.alpha) #1).

  (** Compensate a color for simultaneous contrast when moving between
      backgrounds. *)
Definition compensateForBackground
    (color sourceBg targetBg : OKLCHColor.t)
    : Effect OKLCHColor.t CompensationFailure :=
    let colorXyz := oklchToXyz65 color in
    let sourceBgXyz := oklchToXyz65 sourceBg in
    let targetBgXyz := oklchToXyz65 targetBg in
    let sourceYb := XYZ.Y sourceBgXyz in
    let targetYb := XYZ.Y targetBgXyz in
    sourceConditions <-
      Effect_mapError OfCIECAM02
        (makeViewingConditions SCREEN_ADAPTING_LUMINANCE sourceYb
           D65_WHITE_POINT None) ;;
    targetConditions <-
      Effect_mapError OfCIECAM02
        (makeViewingConditions SCREEN_ADAPTING_LUMINANCE targetYb
           D65_WHITE_POINT None) ;;
    appearance <-
      Effect_mapError OfCIECAM02
        (forward colorXyz D65_WHITE_POINT sourceConditions) ;;
    compensatedXyz <-
      Effect_mapError OfCIECAM02
        (inverse
           (JCh.mk (AppearanceCorrelates.J appearance)
                   (AppearanceCorrelates.C appearance)
                   (AppearanceCorrelates.h appearance))
           D65_WHITE_POINT targetConditions) ;;
    let compensatedOklch := xyz65ToOklch compensatedXyz in
    Effect_mapError
      (fun cause =>
         OfContrastCompensation
           (ContrastCompensationError.mk
              "Failed to gamut-clamp compensated color" (Some cause)))
      (clampToGamut compensatedOklch).

  (** Compensate a batch of colors for simultaneous contrast. *)
Definition compensateBatch
    (colors : list OKLCHColor.t) (sourceBg targetBg : OKLCHColor.t)
    : Effect (list OKLCHColor.t) CompensationFailure :=
    Effect_forEach colors
      (fun color => compensateForBackground color sourceBg targetBg).

End ContrastCompensation.

(* ================================================================== *)
(** * scripts/contrast-compensate.ts: argument parsing *)
(* ================================================================== *)

(** [ColorSpace], the output formats of the script. *)
Module ColorSpace.
Inductive t : Type := hex | rgb | oklch | oklab.
End ColorSpace.

Module ParsedArgs.
Record t : Type := mk {
    sourceBg : string;
    targetBg : string;
    format : ColorSpace.t;
    colors : list string
  }.
End ParsedArgs.

(** The variables that the loop of [parseArgs] assigns; [None] is
    [undefined]. *)
Module ArgsState.
Record t : Type := mk {
    sourceBg : option string;
    targetBg : option string;
    format : ColorSpace.t;
    colors : list string
  }.
End ArgsState.

(** The test [fmt !== "hex" && fmt !== "rgb" && fmt !== "oklch" &&
    fmt !== "oklab"], with the format that passes it. *)
Definition ColorSpace_of_string (fmt : string) : option ColorSpace.t :=
  if String.eqb fmt "hex" then Some ColorSpace.hex
  else if String.eqb fmt "rgb" then Some ColorSpace.rgb
  else if String.eqb fmt "oklch" then Some ColorSpace.oklch
  else if String.eqb fmt "oklab" then Some ColorSpace.oklab
  else None.

(** The message of the error thrown for a format that fails the test; an
    absent format is printed as [undefined]. *)
Definition invalid_format_message (fmt : option string) : string :=
  String.append "Invalid format: "
    (String.append (match fmt with Some f => f | None => "undefined" end)
       ". Expected: hex, rgb, oklch, oklab").

(** The [while] loop of [parseArgs] over the arguments that are left: a
    flag consumes the argument after it ([i++] inside the case, then the
    [i++] of the loop), any other argument is a foreground colour. *)
Fixpoint parseArgs_loop (args : list string) (state : ArgsState.t)
  : Completion ArgsState.t :=
  match args with
  | [] => Normal state
  | arg :: rest =>
      if String.eqb arg "--source-bg" then
        match rest with
        | [] =>
            Normal (ArgsState.mk None (ArgsState.targetBg state)
                      (ArgsState.format state) (ArgsState.colors state))
        | value :: rest' =>
            parseArgs_loop rest'
              (ArgsState.mk (Some value) (ArgsState.targetBg state)
                 (ArgsState.format state) (ArgsState.colors state))
        end
      else if String.eqb arg "--target-bg" then
        match rest with
        | [] =>
            Normal (ArgsState.mk (ArgsState.sourceBg state) None
                      (ArgsState.format state) (ArgsState.colors state))
        | value :: rest' =>
            parseArgs_loop rest'
              (ArgsState.mk (ArgsState.sourceBg state) (Some value)
                 (ArgsState.format state) (ArgsState.colors state))
        end
      else if String.eqb arg "--format" then
        match rest with
        | [] => Throw (invalid_format_message None)
        | fmt :: rest' =>
            match ColorSpace_of_string fmt with
            | None => Throw (invalid_format_message (Some fmt))
            | Some format =>
                parseArgs_loop rest'
                  (ArgsState.mk (ArgsState.sourceBg state)
                     (ArgsState.targetBg state) format
                     (ArgsState.colors state))
            end
        end
      else
        parseArgs_loop rest
          (ArgsState.mk (ArgsState.sourceBg state) (ArgsState.targetBg state)
             (ArgsState.format state) (ArgsState.colors state ++ [arg]))
  end.

(** Parse CLI arguments into structured form. An [Error] is represented by
    its message. *)
Definition parseArgs (argv : list string) : Effect ParsedArgs.t string :=
  Effect_try
    (fun _ =>
       let args := skipn 2 argv in
       match parseArgs_loop args (ArgsState.mk None None ColorSpace.hex []) with
       | Throw error => Throw error
       | Normal state =>
           match ArgsState.sourceBg state with
           | None => Throw "Missing required flag: --source-bg"
           | Some sourceBg =>
               match ArgsState.targetBg state with
               | None => Throw "Missing required flag: --target-bg"
               | Some targetBg =>
                   if Nat.eqb (List.length (ArgsState.colors state)) 0
                   then Throw "No foreground colors provided"
                   else Normal
                          (ParsedArgs.mk sourceBg targetBg
                             (ArgsState.format state)
                             (ArgsState.colors state))
               end
           end
       end)
    (fun error => error).

(** An argument that is none of the three flags. *)
Definition positional (arg : string) : Prop :=
  arg <> "--source-bg"%string /\ arg <> "--target-bg"%string /\
  arg <> "--format"%string.

(* ================================================================== *)
(** * collections.ts and interpolation.ts: stop positions *)
(* ================================================================== *)

(** A stop position is one of the numbers of [STOP_POSITIONS]. *)
Definition StopPosition : Type := nat.

(** [String(position)]. *)
Definition String_of_position (position : StopPosition) : string :=
  NilEmpty.string_of_uint (Nat.to_uint position).

Module CollectionError.
Record t : Type := mk { message : string; cause : option string }.
End CollectionError.

Module StopTransform.
Record t : Type := mk {
    lightnessMultiplier : number;
    chromaMultiplier : number;
    hueShiftDegrees : number
  }.
End StopTransform.

(** [Either<R, L>]. *)
Inductive Either (R L : Type) : Type :=
| Right (right : R)
| Left (left : L).

Arguments Right {R L} right.
Arguments Left {R L} left.

(** [Either.fromNullable]. *)
Definition Either_fromNullable {R L : Type}
  (value : option R) (onNullable : unit -> L) : Either R L :=
  match value with
  | Some r => Right r
  | None => Left (onNullable tt)
  end.

(** A [Map] keyed by stop positions: its entries in insertion order, each
    key once. *)
Definition StopMap (V : Type) : Type := list (StopPosition * V).

(** [map.get(key)]; [None] is [undefined]. *)
Fixpoint Map_get {V : Type} (map : StopMap V) (key : StopPosition)
  : option V :=
  match map with
  | [] => None
  | (k, v) :: rest => if Nat.eqb k key then Some v else Map_get rest key
  end.

(** [map.set(key, value)]: a key that is present keeps its place. *)
Fixpoint Map_set {V : Type} (map : StopMap V) (key : StopPosition) (value : V)
  : StopMap V :=
  match map with
  | [] => [(key, value)]
  | (k, v) :: rest =>
      if Nat.eqb k key then (k, value) :: rest
      else (k, v) :: Map_set rest key value
  end.

(** [new Map(entries)]. *)
Definition Map_new {V : Type} (entries : list (StopPosition * V)) : StopMap V :=
  fold_left (fun map entry => Map_set map (fst entry) (snd entry)) entries [].

(** The maps that [Map] objects are: no key occurs twice. *)
Definition Map_wf {V : Type} (map : StopMap V) : Prop :=
  NoDup (List.map fst map).

(** An object keyed by stop positions; [None] is [undefined]. *)
Definition StopRecord (V : Type) : Type := StopPosition -> option V.

Definition Record_empty {V : Type} : StopRecord V := fun _ => None.

(** [{ ...record, [key]: value }], and [record[key] = value]. *)
Definition Record_set {V : Type}
  (record : StopRecord V) (key : StopPosition) (value : V) : StopRecord V :=
  fun k => if Nat.eqb key k then Some value else record k.

(** [record[key]] where a number is expected: [undefined] behaves as [NaN]
    in arithmetic. *)
Definition Record_number (record : StopRecord number) (key : StopPosition)
  : number :=
  match record key with Some v => v | None => NaN end.

(** Safely get transform from map, returns Either. *)
Definition getStopTransform
  (map : StopMap StopTransform.t) (position : StopPosition)
  : Either StopTransform.t CollectionError.t :=
  Either_fromNullable (Map_get map position)
    (fun _ =>
       CollectionError.mk
         (String.append "Missing stop position "
            (String.append (String_of_position position) " in transform map"))
         None).

(** Safely get number from map, returns Either. *)
Definition getStopNumber
  (map : StopMap number) (position : StopPosition)
  : Either number CollectionError.t :=
  Either_fromNullable (Map_get map position)
    (fun _ =>
       CollectionError.mk
         (String.append "Missing stop position "
            (String.append (String_of_position position) " in number map"))
         None).

(** Safely get transform from map, returns Effect. *)
Definition getStopTransformEffect
  (map : StopMap StopTransform.t) (position : StopPosition)
  : Effect StopTransform.t CollectionError.t :=
  match getStopTransform map position with
  | Left e => Failure e
  | Right a => Success a
  end.

(** Safely get number from map, returns Effect. *)
Definition getStopNumberEffect
  (map : StopMap number) (position : StopPosition)
  : Effect number CollectionError.t :=
  match getStopNumber map position with
  | Left e => Failure e
  | Right a => Success a
  end.

(** Transform map values while preserving keys (functor map). *)
Definition mapStopMap {A B : Type}
  (stopMap : StopMap A) (fn : A -> StopPosition -> B) : StopMap B :=
  Map_new (map (fun entry => (fst entry, fn (snd entry) (fst entry))) stopMap).

(** Convert ReadonlyMap to Record for JSON serialization. The source is
    generic in the key type; the keys are taken to be stop positions, as
    they are wherever the repository builds such maps. *)
Definition mapToRecord {V : Type} (map : StopMap V) : StopRecord V :=
  let entries := map in
  fold_left (fun acc entry => Record_set acc (fst entry) (snd entry))
    entries Record_empty.

(** Convert Record to ReadonlyMap. A key that the record lacks is entered
    with the value [undefined]. *)
Definition recordToMap {V : Type}
  (record : StopRecord V) (keys : list StopPosition) : StopMap (option V) :=
  Map_new (List.map (fun key => (key, record key)) keys).

(** Linear interpolation between two values. *)
Definition lerp (a b t : number) : number := a + (b - a) * t.

(** Clamp a value between min and max. *)
Definition clamp (value min max : number) : number :=
  Math_max min (Math_min max value).

Module TransformationPattern.
Record t : Type := mk {
    name : string;
    referenceStop : StopPosition;
    transforms : StopPosition -> StopTransform.t
  }.
End TransformationPattern.

Section StopPositions.

  (** The constant [STOP_POSITIONS] of [schemas/palette.ts]. *)
Variable STOP_POSITIONS : list StopPosition.

(** Build ReadonlyMap from all stop positions using builder function. *)
Definition buildStopMap {V : Type} (fn : StopPosition -> V) : StopMap V :=
  Map_new (map (fun position => (position, fn position)) STOP_POSITIONS).

(** Build map of stop positions to numbers. *)
Definition buildStopNumberMap (fn : StopPosition -> number) : StopMap number :=
  buildStopMap fn.

(** Build map of stop positions to transforms. *)
Definition buildStopTransformMap (fn : StopPosition -> StopTransform.t)
  : StopMap StopTransform.t :=
  buildStopMap fn.

(** Calculate perfectly linear lightness multipliers. *)
Definition calculateLinearLightness (referenceStop : StopPosition)
  : StopRecord number :=
  let result := Record_set Record_empty referenceStop #1.0 in
  let minMultiplier := #0.1 in
  let maxMultiplier := #1.9 in
  let totalSteps := Fin (INR (List.length STOP_POSITIONS)) - #1 in
  let range := maxMultiplier - minMultiplier in
  let stepSize := range / totalSteps in
  let result :=
    fold_left
      (fun result entry =>
         let i := fst entry in
         let position := snd entry in
         Record_set result position (maxMultiplier - stepSize * Fin (INR i)))
      (combine (seq 0 (List.length STOP_POSITIONS)) STOP_POSITIONS)
      result in
  let refValue := Record_number result referenceStop in
  fold_left
    (fun result position =>
       Record_set result position (Record_number result position / refValue))
    STOP_POSITIONS result.

(** Smooth chroma curve using a parabolic fit. *)
Definition smoothChromaCurve (pattern : TransformationPattern.t)
  : StopRecord number :=
  let refStop := TransformationPattern.referenceStop pattern in
  let chroma100 :=
    StopTransform.chromaMultiplier
      (TransformationPattern.transforms pattern 100%nat) in
  let chroma1000 :=
    StopTransform.chromaMultiplier
      (TransformationPattern.transforms pattern 1000%nat) in
  let avgEndChroma := (chroma100 + chroma1000) / #2 in
  let distance := #450 in
  let a := (avgEndChroma - #1.0) / (distance * distance) in
  fold_left
    (fun result position =>
       let x := Fin (INR position) - Fin (INR refStop) in
       Record_set result position (Math_max #0 (a * x * x + #1.0)))
    STOP_POSITIONS Record_empty.

End StopPositions.


Local Open Scope R_scope.

(* ================================================================== *)
(** * Real-valued counterparts of the computations *)
(* ================================================================== *)



(** The value of [nonlinearAdaptation] on finite arguments. *)
Definition compress (fl r : R) : R :=
  (if Rle_dec 0 r then 1 else -1)
  * (400 * Rpower (fl * Rabs r / 100) 0.42)
  / (Rpower (fl * Rabs r / 100) 0.42 + 27.13)
  + 0.1.

(** The value of [inverseNonlinearAdaptation] on finite arguments above
    the offset 0.1. *)
Definition expand (fl x : R) : R :=
  100 / fl * Rpower (27.13 * (x - 0.1) / (400 - (x - 0.1))) (1 / 0.42).

(** The luminance adaptation factor for La = 64. *)
Definition Fl_64 : R :=
  0.2 * (1 / 321 * (1 / 321) * (1 / 321) * (1 / 321)) * 320
  + 0.1 * Rpower (1 - 1 / 321 * (1 / 321) * (1 / 321) * (1 / 321)) 2
    * Rpower 320 (1 / 3).

(** Hunt-Pointer-Estevez responses of adapted cone responses: the real
    value of [multiplyMatrixVec M_HPE (multiplyMatrixVec M_CAT02_INV _)]. *)
Definition hpe0 (r g b : R) : R :=
  0.38971 * (1.096124 * r + -0.278869 * g + 0.182745 * b)
  + 0.68898 * (0.454369 * r + 0.473533 * g + 0.072098 * b)
  + -0.07868 * (-0.009628 * r + -0.005698 * g + 1.015326 * b).

Definition hpe1 (r g b : R) : R :=
  -0.22981 * (1.096124 * r + -0.278869 * g + 0.182745 * b)
  + 1.18340 * (0.454369 * r + 0.473533 * g + 0.072098 * b)
  + 0.04641 * (-0.009628 * r + -0.005698 * g + 1.015326 * b).

Definition hpe2 (r g b : R) : R :=
  0.00000 * (1.096124 * r + -0.278869 * g + 0.182745 * b)
  + 0.00000 * (0.454369 * r + 0.473533 * g + 0.072098 * b)
  + 1.00000 * (-0.009628 * r + -0.005698 * g + 1.015326 * b).

(** The von Kries factor of one channel under D65 (white luminance 100). *)
Definition adapt (d w : R) : R := d * 100.0 / w + 1 - d.

(** [x] is a finite number within [tol] of the real [target]. *)
Definition within (tol : R) (x : number) (target : R) : Prop :=
  match x with
  | Fin r => Rabs (r - target) <= tol
  | _ => False
  end.

(** Conditions with a vanishing luminance adaptation factor [Fl]. *)
Definition conditions_without_adaptation : ViewingConditions.t :=
  ViewingConditions.mk #64 #100 SURROUND_AVERAGE #1 #0 #1 #0.725 #0.725
    #2.48 #1 #27 (#100, #100, #100).

(** Conditions with unit factors, under which the correlates J = 100,
    C = 0, h = 90 stand for the cone responses Ra = Ga = Ba = 1. *)
Definition unit_conditions : ViewingConditions.t :=
  ViewingConditions.mk #64 #100 SURROUND_AVERAGE #1 #1 #1 #1 #1 #2.48 #1
    #2.745 (#100, #100, #100).

(* ================================================================== *)
(** * Arithmetic of numbers: basic facts *)
(* ================================================================== *)

Lemma Rltb_true (a b : R) : a < b -> Rltb a b = true.
Proof. intros H. unfold Rltb. destruct (Rlt_dec a b); [reflexivity | contradiction]. Qed.

Lemma Rltb_false (a b : R) : b <= a -> Rltb a b = false.
Proof. intros H. unfold Rltb. destruct (Rlt_dec a b); [lra | reflexivity]. Qed.

Lemma Rleb_true (a b : R) : a <= b -> Rleb a b = true.
Proof. intros H. unfold Rleb. destruct (Rle_dec a b); [reflexivity | contradiction]. Qed.

Lemma Rleb_false (a b : R) : b < a -> Rleb a b = false.
Proof. intros H. unfold Rleb. destruct (Rle_dec a b); [lra | reflexivity]. Qed.

Lemma Reqb_true (a b : R) : a = b -> Reqb a b = true.
Proof. intros H. unfold Reqb. destruct (Req_dec_T a b); [reflexivity | contradiction]. Qed.

Lemma Reqb_false (a b : R) : a <> b -> Reqb a b = false.
Proof. intros H. unfold Reqb. destruct (Req_dec_T a b); [contradiction | reflexivity]. Qed.

(** Decide the comparisons of the goal whose outcome [lra] can establish. *)
Ltac rcompare :=
  repeat match goal with
  | |- context [Rltb ?a ?b] =>
      first [ rewrite (@Rltb_true a b) by lra | rewrite (@Rltb_false a b) by lra ]
  | |- context [Rleb ?a ?b] =>
      first [ rewrite (@Rleb_true a b) by lra | rewrite (@Rleb_false a b) by lra ]
  | |- context [Reqb ?a ?b] =>
      first [ rewrite (@Reqb_true a b) by lra | rewrite (@Reqb_false a b) by lra ]
  end.

Lemma nadd_fin (a b : R) : (Fin a + Fin b)%num = Fin (a + b).
Proof. reflexivity. Qed.

Lemma nsub_fin (a b : R) : (Fin a - Fin b)%num = Fin (a - b).
Proof. reflexivity. Qed.

Lemma nmul_fin (a b : R) : (Fin a * Fin b)%num = Fin (a * b).
Proof. reflexivity. Qed.

Lemma ndiv_fin (a b : R) : b <> 0 -> (Fin a / Fin b)%num = Fin (a / b).
Proof. intros H. unfold ndiv. now rewrite Reqb_false. Qed.

Lemma nadd_NaN_r (x : number) : (x + NaN)%num = NaN.
Proof. now destruct x. Qed.

Lemma nsub_NaN_r (x : number) : (x - NaN)%num = NaN.
Proof. now destruct x. Qed.

Lemma nmul_NaN_r (x : number) : (x * NaN)%num = NaN.
Proof. now destruct x. Qed.

Lemma ndiv_NaN_r (x : number) : (x / NaN)%num = NaN.
Proof. now destruct x. Qed.

Lemma Math_pow_pos (b e : R) :
  0 < b -> Math_pow (Fin b) (Fin e) = Fin (Rpower b e).
Proof.
  intros Hb. unfold Math_pow.
  destruct (Req_dec_T e 0) as [-> | He].
  - rewrite Reqb_true by reflexivity. now rewrite Rpower_O.
  - rewrite (Reqb_false He), Reqb_false by lra. now rewrite Rltb_true.
Qed.

Lemma Math_pow_zero (e : R) : 0 < e -> Math_pow (Fin 0) (Fin e) = Fin 0.
Proof.
  intros He. unfold Math_pow.
  rewrite Reqb_false by lra. rewrite Reqb_true by reflexivity.
  now rewrite Rltb_true.
Qed.

Lemma Math_pow_NaN (e : R) : e <> 0 -> Math_pow NaN (Fin e) = NaN.
Proof. intros He. unfold Math_pow. now rewrite Reqb_false. Qed.

Lemma not_integer_between (e : R) (k : Z) :
  IZR k < e < IZR k + 1 -> is_integer e = false.
Proof.
  intros [Hlo Hhi]. unfold is_integer. apply Reqb_false. intros Heq.
  rewrite Heq in Hlo, Hhi.
  apply lt_IZR in Hlo.
  rewrite <- plus_IZR in Hhi. apply lt_IZR in Hhi. lia.
Qed.

Lemma Math_pow_neg_nonint (b e : R) :
  b < 0 -> is_integer e = false -> Math_pow (Fin b) (Fin e) = NaN.
Proof.
  intros Hb He. unfold Math_pow.
  assert (e <> 0) as Hne.
  { intros ->. unfold is_integer in He.
    replace (Int_part 0) with 0%Z in He.
    - rewrite Reqb_true in He by reflexivity. discriminate.
    - apply Int_part_spec. simpl. lra. }
  rewrite (Reqb_false Hne), Reqb_false by lra.
  rewrite Rltb_false by lra. now rewrite He.
Qed.

Lemma Rpower_1_l (e : R) : Rpower 1 e = 1.
Proof. unfold Rpower. rewrite ln_1, Rmult_0_r. apply exp_0. Qed.

(* ================================================================== *)
(** * The defining equations of the bindings *)
(* ================================================================== *)

(** The bindings are projections of let-chains; unfolding those lazily
    before comparing keeps the check linear. *)
Ltac unfold_locals :=
  lazy delta [forward_locals inverse_locals makeViewingConditions_locals
              eccentricityFactor_locals
              Fwd.rgb Fwd.whiteRgb Fwd.rgc Fwd.rgbHpe Fwd.Ra Fwd.Ga Fwd.Ba
              Fwd.a Fwd.b Fwd.h Fwd.et Fwd.A Fwd.J Fwd.Q Fwd.t Fwd.C Fwd.M
              Fwd.s
              Inv.A Inv.t Inv.et Inv.hRad Inv.cosH Inv.sinH Inv.p1 Inv.p2
              Inv.gamma Inv.a Inv.b Inv.Ra Inv.Ga Inv.Ba Inv.rgbHpe Inv.rgc
              Inv.whiteRgb Inv.rgb Inv.xyzVec
              Mvc.surroundParams Mvc.k Mvc.k4 Mvc.Fl Mvc.n Mvc.Nbb Mvc.Ncb
              Mvc.z Mvc.D Mvc.Dclamp Mvc.whiteRgb Mvc.adaptedWhiteRgc
              Mvc.whiteRgbHpe Mvc.whiteRa Mvc.whiteGa Mvc.whiteBa Mvc.Aw
              Ecc.hp Ecc.segmentIndex Ecc.i Ecc.hi Ecc.ei Ecc.Hi Ecc.hiNext
              Ecc.eiNext Ecc.HiNext Ecc.t Ecc.denominator]
       beta zeta iota.

Ltac by_unfolding := intros; unfold_locals; reflexivity.

Section Equations.

Local Open Scope number_scope.

Variables (xyz whitePoint : XYZ.t) (conditions : ViewingConditions.t).
Variable correlates : JCh.t.
Variables (La Yb : number) (surround : SurroundCondition).

Local Abbreviation fw := (forward_locals xyz whitePoint conditions).
Local Abbreviation iv := (inverse_locals correlates whitePoint conditions).
Local Abbreviation mv := (makeViewingConditions_locals La Yb whitePoint surround).

Lemma Fwd_rgb_eq :
  Fwd.rgb fw = multiplyMatrixVec M_CAT02 (XYZ.X xyz, XYZ.Y xyz, XYZ.Z xyz).
Proof. by_unfolding. Qed.

Lemma Fwd_whiteRgb_eq :
  Fwd.whiteRgb fw =
  multiplyMatrixVec M_CAT02
    (XYZ.X whitePoint, XYZ.Y whitePoint, XYZ.Z whitePoint).
Proof. by_unfolding. Qed.

Lemma Fwd_rgc_eq :
  let D := ViewingConditions.D conditions in
  Fwd.rgc fw =
  ((D * XYZ.Y whitePoint / at0 (Fwd.whiteRgb fw) + #1 - D) * at0 (Fwd.rgb fw),
   (D * XYZ.Y whitePoint / at1 (Fwd.whiteRgb fw) + #1 - D) * at1 (Fwd.rgb fw),
   (D * XYZ.Y whitePoint / at2 (Fwd.whiteRgb fw) + #1 - D) * at2 (Fwd.rgb fw)).
Proof. by_unfolding. Qed.

Lemma Fwd_rgbHpe_eq :
  Fwd.rgbHpe fw =
  multiplyMatrixVec M_HPE (multiplyMatrixVec M_CAT02_INV (Fwd.rgc fw)).
Proof. by_unfolding. Qed.

Lemma Fwd_Ra_eq :
  Fwd.Ra fw =
  nonlinearAdaptation (at0 (Fwd.rgbHpe fw)) (ViewingConditions.Fl conditions).
Proof. by_unfolding. Qed.

Lemma Fwd_Ga_eq :
  Fwd.Ga fw =
  nonlinearAdaptation (at1 (Fwd.rgbHpe fw)) (ViewingConditions.Fl conditions).
Proof. by_unfolding. Qed.

Lemma Fwd_Ba_eq :
  Fwd.Ba fw =
  nonlinearAdaptation (at2 (Fwd.rgbHpe fw)) (ViewingConditions.Fl conditions).
Proof. by_unfolding. Qed.

Lemma Fwd_a_eq :
  Fwd.a fw = Fwd.Ra fw - #12 * Fwd.Ga fw / #11 + Fwd.Ba fw / #11.
Proof. by_unfolding. Qed.

Lemma Fwd_b_eq :
  Fwd.b fw = (Fwd.Ra fw + Fwd.Ga fw - #2 * Fwd.Ba fw) / #9.
Proof. by_unfolding. Qed.

Lemma Fwd_h_eq :
  Fwd.h fw =
  let h := Math_atan2 (Fwd.b fw) (Fwd.a fw) * RAD_TO_DEG in
  if h <? #0 then h + #360 else h.
Proof. by_unfolding. Qed.

Lemma Fwd_et_eq : Fwd.et fw = eccentricityFactor (Fwd.h fw).
Proof. by_unfolding. Qed.

Lemma Fwd_A_eq :
  Fwd.A fw =
  (#2 * Fwd.Ra fw + Fwd.Ga fw + (#1 / #20) * Fwd.Ba fw - #0.305)
  * ViewingConditions.Nbb conditions.
Proof. by_unfolding. Qed.

Lemma Fwd_J_eq :
  Fwd.J fw =
  #100 * Math_pow (Fwd.A fw / ViewingConditions.Aw conditions)
           (SurroundParameters.c (ViewingConditions.surround conditions)
            * ViewingConditions.z conditions).
Proof. by_unfolding. Qed.

Lemma Fwd_Q_eq :
  Fwd.Q fw =
  (#4 / SurroundParameters.c (ViewingConditions.surround conditions))
  * Math_pow (Fwd.J fw / #100) #0.5
  * (ViewingConditions.Aw conditions + #4)
  * Math_pow (ViewingConditions.Fl conditions) #0.25.
Proof. by_unfolding. Qed.

Lemma Fwd_t_eq :
  Fwd.t fw =
  (#50000 / #13)
  * SurroundParameters.Nc (ViewingConditions.surround conditions)
  * ViewingConditions.Ncb conditions * Fwd.et fw
  * Math_sqrt (Fwd.a fw * Fwd.a fw + Fwd.b fw * Fwd.b fw)
  / (Fwd.Ra fw + Fwd.Ga fw + #21 * Fwd.Ba fw / #20).
Proof. by_unfolding. Qed.

Lemma Fwd_C_eq :
  Fwd.C fw =
  Math_pow (Fwd.t fw) #0.9 * Math_pow (Fwd.J fw / #100) #0.5
  * (#1.64 - Math_pow #0.29 (ViewingConditions.n conditions)).
Proof. by_unfolding. Qed.

Lemma Fwd_M_eq :
  Fwd.M fw = Fwd.C fw * Math_pow (ViewingConditions.Fl conditions) #0.25.
Proof. by_unfolding. Qed.

Lemma Fwd_s_eq :
  Fwd.s fw = #100 * Math_pow (Fwd.M fw / Fwd.Q fw) #0.5.
Proof. by_unfolding. Qed.

Lemma Inv_A_eq :
  Inv.A iv =
  ViewingConditions.Aw conditions
  * Math_pow (JCh.J correlates / #100)
      (#1 / (SurroundParameters.c (ViewingConditions.surround conditions)
             * ViewingConditions.z conditions)).
Proof. by_unfolding. Qed.

Lemma Inv_t_eq :
  Inv.t iv =
  Math_pow
    (JCh.C correlates
     / (Math_pow (JCh.J correlates / #100) #0.5
        * (#1.64 - Math_pow #0.29 (ViewingConditions.n conditions))))
    (#1 / #0.9).
Proof. by_unfolding. Qed.

Lemma Inv_et_eq : Inv.et iv = eccentricityFactor (JCh.h correlates).
Proof. by_unfolding. Qed.

Lemma Inv_hRad_eq : Inv.hRad iv = JCh.h correlates * DEG_TO_RAD.
Proof. by_unfolding. Qed.

Lemma Inv_cosH_eq : Inv.cosH iv = Math_cos (Inv.hRad iv).
Proof. by_unfolding. Qed.

Lemma Inv_sinH_eq : Inv.sinH iv = Math_sin (Inv.hRad iv).
Proof. by_unfolding. Qed.

Lemma Inv_p1_eq :
  Inv.p1 iv =
  (#50000 / #13)
  * SurroundParameters.Nc (ViewingConditions.surround conditions)
  * ViewingConditions.Ncb conditions * Inv.et iv.
Proof. by_unfolding. Qed.

Lemma Inv_p2_eq :
  Inv.p2 iv = Inv.A iv / ViewingConditions.Nbb conditions + #0.305.
Proof. by_unfolding. Qed.

Lemma Inv_gamma_eq :
  Inv.gamma iv =
  #23 * (Inv.p2 iv + #0.305) * Inv.t iv
  / (#23 * Inv.p1 iv + #11 * Inv.t iv * Inv.cosH iv
     + #108 * Inv.t iv * Inv.sinH iv).
Proof. by_unfolding. Qed.

Lemma Inv_a_eq : Inv.a iv = Inv.gamma iv * Inv.cosH iv.
Proof. by_unfolding. Qed.

Lemma Inv_b_eq : Inv.b iv = Inv.gamma iv * Inv.sinH iv.
Proof. by_unfolding. Qed.

Lemma Inv_Ra_eq :
  Inv.Ra iv = (#460 * Inv.p2 iv + #451 * Inv.a iv + #288 * Inv.b iv) / #1403.
Proof. by_unfolding. Qed.

Lemma Inv_Ga_eq :
  Inv.Ga iv = (#460 * Inv.p2 iv - #891 * Inv.a iv - #261 * Inv.b iv) / #1403.
Proof. by_unfolding. Qed.

Lemma Inv_Ba_eq :
  Inv.Ba iv = (#460 * Inv.p2 iv - #220 * Inv.a iv - #6300 * Inv.b iv) / #1403.
Proof. by_unfolding. Qed.

Lemma Inv_rgbHpe_eq :
  let Fl := ViewingConditions.Fl conditions in
  Inv.rgbHpe iv =
  (inverseNonlinearAdaptation (Inv.Ra iv) Fl,
   inverseNonlinearAdaptation (Inv.Ga iv) Fl,
   inverseNonlinearAdaptation (Inv.Ba iv) Fl).
Proof. by_unfolding. Qed.

Lemma Inv_rgc_eq :
  Inv.rgc iv =
  multiplyMatrixVec M_CAT02 (multiplyMatrixVec M_HPE_INV (Inv.rgbHpe iv)).
Proof. by_unfolding. Qed.

Lemma Inv_whiteRgb_eq :
  Inv.whiteRgb iv =
  multiplyMatrixVec M_CAT02
    (XYZ.X whitePoint, XYZ.Y whitePoint, XYZ.Z whitePoint).
Proof. by_unfolding. Qed.

Lemma Inv_rgb_eq :
  let D := ViewingConditions.D conditions in
  Inv.rgb iv =
  (at0 (Inv.rgc iv) / (D * XYZ.Y whitePoint / at0 (Inv.whiteRgb iv) + #1 - D),
   at1 (Inv.rgc iv) / (D * XYZ.Y whitePoint / at1 (Inv.whiteRgb iv) + #1 - D),
   at2 (Inv.rgc iv) / (D * XYZ.Y whitePoint / at2 (Inv.whiteRgb iv) + #1 - D)).
Proof. by_unfolding. Qed.

Lemma Inv_xyzVec_eq :
  Inv.xyzVec iv = multiplyMatrixVec M_CAT02_INV (Inv.rgb iv).
Proof. by_unfolding. Qed.

Lemma Mvc_k_eq : Mvc.k mv = #1 / (#5 * La + #1).
Proof. by_unfolding. Qed.

Lemma Mvc_k4_eq : Mvc.k4 mv = Mvc.k mv * Mvc.k mv * Mvc.k mv * Mvc.k mv.
Proof. by_unfolding. Qed.

Lemma Mvc_Fl_eq :
  Mvc.Fl mv =
  #0.2 * Mvc.k4 mv * (#5 * La)
  + #0.1 * Math_pow (#1 - Mvc.k4 mv) #2 * Math_pow (#5 * La) (#1 / #3).
Proof. by_unfolding. Qed.

Lemma Mvc_n_eq : Mvc.n mv = Yb / XYZ.Y whitePoint.
Proof. by_unfolding. Qed.

Lemma Mvc_Nbb_eq : Mvc.Nbb mv = #0.725 * Math_pow (#1 / Mvc.n mv) #0.2.
Proof. by_unfolding. Qed.


Lemma Mvc_z_eq : Mvc.z mv = #1.48 + Math_sqrt (Mvc.n mv).
Proof. by_unfolding. Qed.

Lemma Mvc_D_eq :
  Mvc.D mv =
  SurroundParameters.F (resolveSurround surround)
  * (#1 - (#1 / #3.6) * Math_exp ((- La - #42) / #92)).
Proof. by_unfolding. Qed.

Lemma Mvc_Dclamp_eq : Mvc.Dclamp mv = Math_max #0 (Math_min #1 (Mvc.D mv)).
Proof. by_unfolding. Qed.

Lemma Mvc_whiteRgb_eq :
  Mvc.whiteRgb mv =
  multiplyMatrixVec M_CAT02
    (XYZ.X whitePoint, XYZ.Y whitePoint, XYZ.Z whitePoint).
Proof. by_unfolding. Qed.

Lemma Mvc_adaptedWhiteRgc_eq :
  let D := Mvc.Dclamp mv in
  let w := Mvc.whiteRgb mv in
  Mvc.adaptedWhiteRgc mv =
  ((D * XYZ.Y whitePoint / at0 w + #1 - D) * at0 w,
   (D * XYZ.Y whitePoint / at1 w + #1 - D) * at1 w,
   (D * XYZ.Y whitePoint / at2 w + #1 - D) * at2 w).
Proof. by_unfolding. Qed.

Lemma Mvc_whiteRgbHpe_eq :
  Mvc.whiteRgbHpe mv =
  multiplyMatrixVec M_HPE
    (multiplyMatrixVec M_CAT02_INV (Mvc.adaptedWhiteRgc mv)).
Proof. by_unfolding. Qed.

Lemma Mvc_whiteRa_eq :
  Mvc.whiteRa mv = nonlinearAdaptation (at0 (Mvc.whiteRgbHpe mv)) (Mvc.Fl mv).
Proof. by_unfolding. Qed.

Lemma Mvc_whiteGa_eq :
  Mvc.whiteGa mv = nonlinearAdaptation (at1 (Mvc.whiteRgbHpe mv)) (Mvc.Fl mv).
Proof. by_unfolding. Qed.

Lemma Mvc_whiteBa_eq :
  Mvc.whiteBa mv = nonlinearAdaptation (at2 (Mvc.whiteRgbHpe mv)) (Mvc.Fl mv).
Proof. by_unfolding. Qed.

Lemma Mvc_Aw_eq :
  Mvc.Aw mv =
  (#2 * Mvc.whiteRa mv + Mvc.whiteGa mv + (#1 / #20) * Mvc.whiteBa mv - #0.305)
  * Mvc.Nbb mv.
Proof. by_unfolding. Qed.

End Equations.

(** Evaluate the arithmetic of the goal as far as its operands are known. *)
Ltac nsimpl :=
  repeat (first
    [ progress cbn [nadd nsub nneg nmul ndiv at0 at1 at2 fst snd Math_abs
                    nge nlt nstrict_eq is_finite is_nan]
    | progress rcompare
    | rewrite nmul_NaN_r | rewrite nadd_NaN_r | rewrite nsub_NaN_r
    | rewrite ndiv_NaN_r ]).

(* ================================================================== *)
(** * Failure behaviour of the three transforms *)
(* ================================================================== *)

Lemma inverseNonlinearAdaptation_NaN (Fl : number) :
  inverseNonlinearAdaptation NaN Fl = NaN.
Proof.
  unfold inverseNonlinearAdaptation, POST_ADAPTATION_OFFSET,
    CONE_RESPONSE_OFFSET, CONE_RESPONSE_SCALE, CONE_RESPONSE_EXPONENT.
  nsimpl. rewrite Math_pow_NaN by lra. nsimpl. reflexivity.
Qed.

Lemma multiplyMatrixVec_NaN (m : Matrix3x3) :
  multiplyMatrixVec m (NaN, NaN, NaN) = (NaN, NaN, NaN).
Proof. unfold multiplyMatrixVec. nsimpl. reflexivity. Qed.

(** Once the recovered [t] is [NaN], so is every component of the result. *)
Lemma inverse_locals_t_NaN cor wp cond :
  Inv.t (inverse_locals cor wp cond) = NaN ->
  Inv.xyzVec (inverse_locals cor wp cond) = (NaN, NaN, NaN).
Proof.
  intros Ht.
  rewrite Inv_xyzVec_eq, Inv_rgb_eq, Inv_rgc_eq, Inv_rgbHpe_eq.
  rewrite Inv_Ra_eq, Inv_Ga_eq, Inv_Ba_eq, Inv_a_eq, Inv_b_eq, Inv_gamma_eq.
  rewrite Ht. cbv zeta. nsimpl.
  rewrite !inverseNonlinearAdaptation_NaN, !multiplyMatrixVec_NaN.
  nsimpl. rewrite ?multiplyMatrixVec_NaN. reflexivity.
Qed.

Lemma inverse_success cor wp cond :
  inverse cor wp cond =
  Success (XYZ.mk (at0 (Inv.xyzVec (inverse_locals cor wp cond)))
                  (at1 (Inv.xyzVec (inverse_locals cor wp cond)))
                  (at2 (Inv.xyzVec (inverse_locals cor wp cond)))).
Proof. reflexivity. Qed.

Lemma forward_success xyz wp cond :
  forward xyz wp cond =
  Success
    (let v := forward_locals xyz wp cond in
     AppearanceCorrelates.mk (Fwd.J v) (Fwd.C v) (Fwd.h v) (Fwd.M v)
       (Fwd.s v) (Fwd.Q v)).
Proof. reflexivity. Qed.

Lemma makeViewingConditions_success La Yb wp s :
  makeViewingConditions La Yb wp s =
  Success
    (let v := makeViewingConditions_locals La Yb wp
                (match s with Some s' => s' | None => average end) in
     ViewingConditions.mk La Yb (Mvc.surroundParams v) (Mvc.k v) (Mvc.Fl v)
       (Mvc.n v) (Mvc.Nbb v) (Mvc.Ncb v) (Mvc.z v) (Mvc.Dclamp v) (Mvc.Aw v)
       (Mvc.adaptedWhiteRgc v)).
Proof. reflexivity. Qed.






(* ================================================================== *)
(** * Batches *)
(* ================================================================== *)

Section ForEach.

Variables (A B E : Type) (f : A -> Effect B E).

Lemma forEach_success (items : list A) (out : list B) :
  Effect_forEach items f = Success out <->
  Forall2 (fun x y => f x = Success y) items out.
Proof.
  revert out. induction items as [|x rest IH]; intros out; cbn [Effect_forEach].
  - split.
    + intros H. injection H as <-. constructor.
    + intros H. inversion H. reflexivity.
  - destruct (f x) as [y|e] eqn:Hx.
    + destruct (Effect_forEach rest f) as [ys|e] eqn:Hrest.
      * split.
        -- intros H. injection H as <-. constructor; [exact Hx|]. now apply IH.
        -- intros H. inversion H as [|? y' ? ys' Hy Hys]; subst.
           rewrite Hx in Hy. injection Hy as <-.
           apply IH in Hys. congruence.
      * split; [discriminate|].
        intros H. inversion H as [|? y' ? ys' Hy Hys]; subst.
        apply IH in Hys. discriminate.
    + split; [discriminate|].
      intros H. inversion H as [|? y' ? ys' Hy Hys]; subst. congruence.
Qed.

Lemma forEach_first_failure (items : list A) (i : nat) (x : A) (e : E) :
  nth_error items i = Some x ->
  f x = Failure e ->
  (forall j xj, (j < i)%nat -> nth_error items j = Some xj ->
                exists y, f xj = Success y) ->
  Effect_forEach items f = Failure e.
Proof.
  revert i. induction items as [|x0 rest IH]; intros i Hi Hx Hbefore.
  - destruct i; discriminate.
  - cbn [Effect_forEach]. destruct i as [|i].
    + injection Hi as ->. now rewrite Hx.
    + destruct (Hbefore 0%nat x0) as [y Hy]; [lia | reflexivity |].
      rewrite Hy. rewrite (IH i Hi Hx); [reflexivity|].
      intros j xj Hj Hxj. apply (Hbefore (S j) xj); [lia | exact Hxj].
Qed.

Lemma forEach_all_succeed (items : list A) :
  (forall x, In x items -> exists y, f x = Success y) ->
  exists out, Effect_forEach items f = Success out.
Proof.
  induction items as [|x rest IH]; intros H; cbn [Effect_forEach].
  - eexists. reflexivity.
  - destruct (H x) as [y ->]; [now left|].
    destruct IH as [ys ->]; [intros; apply H; now right|].
    eexists. reflexivity.
Qed.

Lemma Forall2_nth_error (P : A -> B -> Prop) (l : list A) (l' : list B) :
  Forall2 P l l' ->
  List.length l' = List.length l /\
  forall i x, nth_error l i = Some x ->
              exists y, nth_error l' i = Some y /\ P x y.
Proof.
  induction 1 as [|x y l l' Hxy _ [IHlen IHnth]].
  - split; [reflexivity|]. intros [|i] x H; discriminate.
  - split; [cbn; now rewrite IHlen|].
    intros [|i] x0 H; cbn in *.
    + injection H as <-. now exists y.
    + now apply IHnth.
Qed.

End ForEach.

(** C9. [compensateBatch] maps [compensateForBackground] over the colours
    in input order: the empty batch gives the empty result; a successful
    batch has as many results as colours, the i-th being the compensation
    of the i-th colour; a batch all of whose colours compensate succeeds;
    and the first colour that fails makes the whole batch fail with that
    colour's error. *)
Theorem compensateBatch_elementwise_fail_fast :
  forall (culori_xyz65 : CuloriOklch.t -> option CuloriXyz65.t)
         (culori_oklch : CuloriXyz65.t -> option CuloriOklch.t)
         (clampToGamut : OKLCHColor.t -> Effect OKLCHColor.t string)
         (sourceBg targetBg : OKLCHColor.t),
  let single color :=
    compensateForBackground culori_xyz65 culori_oklch clampToGamut
      color sourceBg targetBg in
  let batch colors :=
    compensateBatch culori_xyz65 culori_oklch clampToGamut
      colors sourceBg targetBg in
  batch [] = Success [] /\
  (forall colors out,
     batch colors = Success out ->
     List.length out = List.length colors /\
     forall i color,
       nth_error colors i = Some color ->
       exists r, nth_error out i = Some r /\ single color = Success r) /\
  (forall colors,
     (forall color, In color colors -> exists r, single color = Success r) ->
     exists out, batch colors = Success out) /\
  (forall colors i color e,
     nth_error colors i = Some color ->
     single color = Failure e ->
     (forall j cj, (j < i)%nat -> nth_error colors j = Some cj ->
                   exists r, single cj = Success r) ->
     batch colors = Failure e).
Proof.
  intros cx co cg sourceBg targetBg single batch.
  unfold batch, compensateBatch. fold single.
  split; [reflexivity|]. split; [|split].
  - intros colors out H. apply forEach_success in H.
    apply Forall2_nth_error in H. destruct H as [Hlen Hnth].
    split; [exact Hlen|]. exact Hnth.
  - intros colors H. apply forEach_all_succeed. exact H.
  - intros colors i color e Hi He Hbefore.
    apply forEach_first_failure with (i := i) (x := color); assumption.
Qed.

Lemma compensateBatch_elementwise_fail_fast_witness :
  let cx := fun _ : CuloriOklch.t => Some (CuloriXyz65.mk #0.2 #0.2 #0.2) in
  let co := fun _ : CuloriXyz65.t => @None CuloriOklch.t in
  let reject := fun _ : OKLCHColor.t =>
                  @Failure OKLCHColor.t string "not displayable"%string in
  let accept := fun color : OKLCHColor.t => @Success OKLCHColor.t string color in
  let grey := OKLCHColor.mk #0.5 #0 #0 #1 in
  (exists out,
     compensateBatch cx co accept [grey; grey] grey grey = Success out /\
     List.length out = 2%nat) /\
  compensateBatch cx co reject [grey; grey] grey grey =
  Failure
    (OfContrastCompensation
       (ContrastCompensationError.mk
          "Failed to gamut-clamp compensated color"%string (Some "not displayable"%string))).
Proof.
  intros cx co reject accept grey. split.
  - destruct (compensateBatch_elementwise_fail_fast cx co accept grey grey)
      as (_ & Hshape & Hall & _).
    destruct (Hall [grey; grey]) as [out Hout].
    + intros color _. eexists. reflexivity.
    + exists out. split; [exact Hout|]. now apply Hshape in Hout as [-> _].
  - destruct (compensateBatch_elementwise_fail_fast cx co reject grey grey)
      as (_ & _ & _ & Hfail).
    apply (Hfail [grey; grey] 0%nat grey).
    + reflexivity.
    + reflexivity.
    + intros j cj Hj. lia.
Defined.

(* ================================================================== *)
(** * The eccentricity lookup *)
(* ================================================================== *)

(** Evaluate the table lookups and the segment search of
    [eccentricityFactor]. *)
Ltac ecc_eval :=
  unfold eccentricityFactor, eccentricityFactor_locals, Arr_findLastIndex,
    Arr_range, ECCENTRICITY_HUE_ANGLES, ECCENTRICITY_VALUES,
    ECCENTRICITY_H_VALUES;
  repeat (first
    [ progress cbn [Nat.sub Nat.add seq findLastIndex_from js_index nth
                    Ecc.hp Ecc.segmentIndex Ecc.i Ecc.hi Ecc.ei Ecc.Hi
                    Ecc.hiNext Ecc.eiNext Ecc.HiNext Ecc.t Ecc.denominator]
    | progress nsimpl
    | progress (replace (100.0 + - (0.0)) with 100 by lra)
    | progress (replace (200.0 + - (100.0)) with 100 by lra)
    | progress (replace (300.0 + - (200.0)) with 100 by lra)
    | progress (replace (400.0 + - (300.0)) with 100 by lra) ]).







(* ================================================================== *)
(** * Viewing conditions *)
(* ================================================================== *)

Lemma Math_min_fin (a b : R) : Math_min (Fin a) (Fin b) = Fin (Rmin a b).
Proof.
  unfold Math_min, nge, Rleb, Rmin.
  destruct (Rle_dec a b); reflexivity.
Qed.

Lemma Math_max_fin (a b : R) : Math_max (Fin a) (Fin b) = Fin (Rmax a b).
Proof.
  unfold Math_max, nge, Rleb, Rmax.
  destruct (Rle_dec b a) as [H|H]; destruct (Rle_dec a b) as [H'|H'];
    try reflexivity; try (f_equal; lra).
Qed.

Lemma Math_sqrt_fin (a : R) : 0 <= a -> Math_sqrt (Fin a) = Fin (sqrt a).
Proof. intros H. unfold Math_sqrt. now rewrite Rltb_false. Qed.

Lemma Rpower_inv_base (x y : R) : 0 < x -> Rpower (1 / x) y = Rpower x (- y).
Proof.
  intros Hx. unfold Rpower, Rdiv. rewrite Rmult_1_l, ln_Rinv by assumption.
  f_equal. lra.
Qed.

(** Powers with a rational exponent, bounded through integer powers. *)
Lemma Rpower_root (x : R) (p q : nat) :
  0 < x -> (0 < q)%nat ->
  Rpower x (INR p / INR q) = Rpower (x ^ p) (/ INR q).
Proof.
  intros Hx Hq. rewrite <- Rpower_pow by exact Hx.
  rewrite Rpower_mult. reflexivity.
Qed.

Lemma Rpower_root_pow (u : R) (q : nat) :
  0 < u -> (0 < q)%nat -> Rpower (u ^ q) (/ INR q) = u.
Proof.
  intros Hu Hq.
  assert (0 < INR q) as Hq' by (apply lt_0_INR; exact Hq).
  rewrite <- Rpower_pow by exact Hu. rewrite Rpower_mult.
  rewrite Rinv_r by lra. apply Rpower_1. exact Hu.
Qed.

Lemma Rpower_le_root (x u : R) (p q : nat) :
  0 < x -> 0 < u -> (0 < q)%nat -> x ^ p <= u ^ q ->
  Rpower x (INR p / INR q) <= u.
Proof.
  intros Hx Hu Hq Hle.
  assert (0 < INR q) as Hq' by (apply lt_0_INR; exact Hq).
  rewrite Rpower_root by assumption.
  apply Rle_trans with (Rpower (u ^ q) (/ INR q)).
  - apply Rle_Rpower_l.
    + apply Rlt_le, Rinv_0_lt_compat. exact Hq'.
    + split; [apply pow_lt; exact Hx | exact Hle].
  - rewrite Rpower_root_pow by assumption. lra.
Qed.

Lemma Rpower_ge_root (x u : R) (p q : nat) :
  0 < x -> 0 < u -> (0 < q)%nat -> u ^ q <= x ^ p ->
  u <= Rpower x (INR p / INR q).
Proof.
  intros Hx Hu Hq Hle.
  assert (0 < INR q) as Hq' by (apply lt_0_INR; exact Hq).
  rewrite Rpower_root by assumption.
  apply Rle_trans with (Rpower (u ^ q) (/ INR q)).
  - rewrite Rpower_root_pow by assumption. lra.
  - apply Rle_Rpower_l.
    + apply Rlt_le, Rinv_0_lt_compat. exact Hq'.
    + split; [apply pow_lt; exact Hu | exact Hle].
Qed.








Lemma resolveSurround_F (s : SurroundCondition) :
  exists f : R,
    SurroundParameters.F (resolveSurround s) = Fin f /\ 0.8 <= f <= 1.
Proof.
  destruct s; cbn; eexists; (split; [reflexivity | lra]).
Qed.

(** The derived scalars [n], [Nbb], [Ncb], [z] and the clamped [D] for
    positive, finite inputs. *)
Lemma makeViewingConditions_locals_scalars
  (La Yb y : R) (X Z : number) (s : SurroundCondition) :
  0 < Yb -> 0 < y ->
  let v := makeViewingConditions_locals (Fin La) (Fin Yb) (XYZ.mk X (Fin y) Z) s in
  Mvc.n v = Fin (Yb / y) /\
  Mvc.Nbb v = Fin (0.725 * Rpower (Yb / y) (- 0.2)) /\
  Mvc.Ncb v = Mvc.Nbb v /\
  Mvc.z v = Fin (1.48 + sqrt (Yb / y)) /\
  exists f : R,
    SurroundParameters.F (resolveSurround s) = Fin f /\
    Mvc.Dclamp v =
    Fin (Rmax 0 (Rmin 1 (f * (1 - 1 / 3.6 * exp ((- La - 42) / 92))))).
Proof.
  intros HYb Hy v.
  assert (0 < Yb / y) as Hn by (apply Rdiv_lt_0_compat; assumption).
  assert (Mvc.n v = Fin (Yb / y)) as En.
  { unfold v. rewrite Mvc_n_eq. cbn [XYZ.Y]. apply ndiv_fin. lra. }
  assert (Mvc.Nbb v = Fin (0.725 * Rpower (Yb / y) (- 0.2))) as ENbb.
  { unfold v. rewrite Mvc_Nbb_eq. fold v. rewrite En.
    rewrite ndiv_fin by lra. rewrite Math_pow_pos.
    - rewrite Rpower_inv_base by assumption.
      replace (- (0.2)) with (-0.2) by lra. reflexivity.
    - apply Rdiv_lt_0_compat; lra. }
  split; [exact En|]. split; [exact ENbb|]. split; [reflexivity|]. split.
  - unfold v. rewrite Mvc_z_eq. fold v. rewrite En.
    rewrite Math_sqrt_fin by lra. reflexivity.
  - destruct (resolveSurround_F s) as [f [Ef _]]. exists f.
    split; [exact Ef|].
    unfold v. rewrite Mvc_Dclamp_eq, Mvc_D_eq, Ef.
    rewrite ndiv_fin by lra. cbn [nneg nsub nadd].
    rewrite ndiv_fin by lra. cbn [Math_exp nmul nsub nneg nadd].
    rewrite Math_min_fin, Math_max_fin. reflexivity.
Qed.



(* ================================================================== *)
(** * The linear solve of the inverse transform *)
(* ================================================================== *)

(** C6. Step 5 of [inverse] recovers the post-adaptation cone responses
    exactly. From the finite p2, a and b that [inverse] has computed, its
    bindings [Ra], [Ga] and [Ba] are (460 p2 + 451 a + 288 b) / 1403,
    (460 p2 - 891 a - 261 b) / 1403 and (460 p2 - 220 a - 6300 b) / 1403,
    and these three reals are the one solution of p2 = 2 Ra + Ga + Ba/20,
    a = Ra - 12 Ga/11 + Ba/11, b = (Ra + Ga - 2 Ba)/9; so whenever p2, a
    and b are of that form for reals Ra, Ga, Ba, the bindings are those
    reals. These are the quantities of [forward]: for finite cone responses
    and a finite non-zero Nbb, [forward] computes exactly this a and this
    b, and its achromatic response A satisfies
    A / Nbb + 0.305 = 2 Ra + Ga + Ba/20. *)
Theorem inverse_linear_solve_exact :
  (forall correlates whitePoint conditions (Ra Ga Ba : R),
     let v := inverse_locals correlates whitePoint conditions in
     Inv.p2 v = Fin (2 * Ra + Ga + Ba / 20) ->
     Inv.a v = Fin (Ra - 12 * Ga / 11 + Ba / 11) ->
     Inv.b v = Fin ((Ra + Ga - 2 * Ba) / 9) ->
     Inv.Ra v = Fin Ra /\ Inv.Ga v = Fin Ga /\ Inv.Ba v = Fin Ba) /\
  (forall correlates whitePoint conditions (p2 a b : R),
     let v := inverse_locals correlates whitePoint conditions in
     Inv.p2 v = Fin p2 -> Inv.a v = Fin a -> Inv.b v = Fin b ->
     exists Ra Ga Ba : R,
       Inv.Ra v = Fin Ra /\ Inv.Ga v = Fin Ga /\ Inv.Ba v = Fin Ba /\
       Ra = (460 * p2 + 451 * a + 288 * b) / 1403 /\
       Ga = (460 * p2 - 891 * a - 261 * b) / 1403 /\
       Ba = (460 * p2 - 220 * a - 6300 * b) / 1403 /\
       p2 = 2 * Ra + Ga + Ba / 20 /\
       a = Ra - 12 * Ga / 11 + Ba / 11 /\
       b = (Ra + Ga - 2 * Ba) / 9 /\
       forall Ra' Ga' Ba' : R,
         p2 = 2 * Ra' + Ga' + Ba' / 20 ->
         a = Ra' - 12 * Ga' / 11 + Ba' / 11 ->
         b = (Ra' + Ga' - 2 * Ba') / 9 ->
         Ra' = Ra /\ Ga' = Ga /\ Ba' = Ba) /\
  (forall xyz whitePoint conditions (Ra Ga Ba Nbb : R),
     let v := forward_locals xyz whitePoint conditions in
     Fwd.Ra v = Fin Ra -> Fwd.Ga v = Fin Ga -> Fwd.Ba v = Fin Ba ->
     ViewingConditions.Nbb conditions = Fin Nbb -> Nbb <> 0 ->
     Fwd.a v = Fin (Ra - 12 * Ga / 11 + Ba / 11) /\
     Fwd.b v = Fin ((Ra + Ga - 2 * Ba) / 9) /\
     (Fwd.A v / ViewingConditions.Nbb conditions + #0.305)%num
     = Fin (2 * Ra + Ga + Ba / 20)).
Proof.
  split; [|split].
  - intros cor wp cond Ra Ga Ba v Hp2 Ha Hb. unfold v.
    rewrite Inv_Ra_eq, Inv_Ga_eq, Inv_Ba_eq. fold v.
    rewrite Hp2, Ha, Hb. nsimpl.
    repeat split; f_equal; field.
  - intros cor wp cond p2 a b v Hp2 Ha Hb.
    exists ((460 * p2 + 451 * a + 288 * b) / 1403),
           ((460 * p2 - 891 * a - 261 * b) / 1403),
           ((460 * p2 - 220 * a - 6300 * b) / 1403).
    unfold v. rewrite Inv_Ra_eq, Inv_Ga_eq, Inv_Ba_eq. fold v.
    rewrite Hp2, Ha, Hb. nsimpl.
    repeat split; try reflexivity; try lra.
  - intros xyz wp cond Ra Ga Ba Nbb v HRa HGa HBa HNbb Hne. unfold v.
    rewrite Fwd_a_eq, Fwd_b_eq, Fwd_A_eq. fold v.
    rewrite HRa, HGa, HBa, HNbb. nsimpl.
    repeat split; f_equal; field; assumption.
Qed.

(* ================================================================== *)
(** * The compression of the cone responses *)
(* ================================================================== *)

Lemma Rpower_pos (x y : R) : 0 < Rpower x y.
Proof. unfold Rpower. apply exp_pos. Qed.

Lemma nonlinearAdaptation_fin (r fl : R) :
  r <> 0 -> 0 < fl ->
  nonlinearAdaptation (Fin r) (Fin fl) = Fin (compress fl r).
Proof.
  intros Hr Hfl.
  unfold nonlinearAdaptation, compress, CONE_RESPONSE_EXPONENT,
    CONE_RESPONSE_SCALE, CONE_RESPONSE_OFFSET, POST_ADAPTATION_OFFSET.
  cbn [Math_abs nmul nge].
  assert (0 < fl * Rabs r / 100) as Hbase.
  { apply Rdiv_lt_0_compat; [|lra].
    apply Rmult_lt_0_compat; [assumption | now apply Rabs_pos_lt]. }
  rewrite ndiv_fin by lra. rewrite Math_pow_pos by assumption.
  pose proof (Rpower_pos (fl * Rabs r / 100) 0.42) as HP.
  unfold Rleb. destruct (Rle_dec 0 r); cbn [nmul nadd];
    rewrite ndiv_fin by lra; reflexivity.
Qed.

Lemma nonlinearAdaptation_zero (fl : R) :
  nonlinearAdaptation (Fin 0) (Fin fl) = Fin 0.1.
Proof.
  unfold nonlinearAdaptation, CONE_RESPONSE_EXPONENT,
    CONE_RESPONSE_SCALE, CONE_RESPONSE_OFFSET, POST_ADAPTATION_OFFSET.
  cbn [Math_abs nmul nge]. rewrite Rabs_R0.
  rewrite ndiv_fin by lra.
  replace (fl * 0 / 100) with 0 by lra.
  rewrite Math_pow_zero by lra. nsimpl. f_equal. lra.
Qed.

Lemma nonlinearAdaptation_NaN (Fl : number) :
  nonlinearAdaptation NaN Fl = NaN.
Proof.
  unfold nonlinearAdaptation, CONE_RESPONSE_EXPONENT. nsimpl.
  rewrite Math_pow_NaN by lra. reflexivity.
Qed.

(** The rational part of the compression is increasing. *)
Lemma compression_ratio_mono (p q : R) :
  0 <= p <= q -> 400 * p / (p + 27.13) <= 400 * q / (q + 27.13).
Proof.
  intros [Hp Hpq].
  apply Rmult_le_reg_r with ((p + 27.13) * (q + 27.13)).
  - apply Rmult_lt_0_compat; lra.
  - replace (400 * p / (p + 27.13) * ((p + 27.13) * (q + 27.13)))
      with (400 * p * (q + 27.13)) by (field; lra).
    replace (400 * q / (q + 27.13) * ((p + 27.13) * (q + 27.13)))
      with (400 * q * (p + 27.13)) by (field; lra).
    nra.
Qed.

Lemma compress_pos (fl r : R) :
  0 < r ->
  compress fl r = 400 * Rpower (fl * r / 100) 0.42
                  / (Rpower (fl * r / 100) 0.42 + 27.13) + 0.1.
Proof.
  intros Hr. unfold compress. rewrite Rabs_pos_eq by lra.
  destruct (Rle_dec 0 r); [|lra]. f_equal. unfold Rdiv. ring.
Qed.

Lemma compress_neg (fl r : R) :
  r < 0 ->
  compress fl r = - (400 * Rpower (fl * - r / 100) 0.42
                     / (Rpower (fl * - r / 100) 0.42 + 27.13)) + 0.1.
Proof.
  intros Hr. unfold compress. rewrite Rabs_left by lra.
  destruct (Rle_dec 0 r); [lra|]. f_equal. unfold Rdiv. ring.
Qed.

(** A positive response is compressed to more than the offset 0.1. *)
Lemma compress_gt_offset (fl r : R) : 0 < fl -> 0 < r -> 0.1 < compress fl r.
Proof.
  intros Hfl Hr. rewrite compress_pos by assumption.
  pose proof (Rpower_pos (fl * r / 100) 0.42) as HP.
  assert (0 < 400 * Rpower (fl * r / 100) 0.42
              / (Rpower (fl * r / 100) 0.42 + 27.13)).
  { apply Rdiv_lt_0_compat; lra. }
  lra.
Qed.


(** For a base in (0, 1] the power decreases with the exponent. *)
Lemma Rpower_anti_exponent (x a b : R) :
  0 < x <= 1 -> a <= b -> Rpower x b <= Rpower x a.
Proof.
  intros [Hx0 Hx1] Hab. unfold Rpower.
  destruct (Rle_lt_or_eq_dec _ _ Hx1) as [Hlt | ->].
  - apply Rlt_le in Hlt. 
    assert (ln x <= 0) as Hln.
    { rewrite <- ln_1. destruct (Req_dec x 1) as [->|Hne]; [lra|].
      apply Rlt_le, ln_increasing; lra. }
    destruct (Req_dec a b) as [->|Hne]; [lra|].
    destruct (Req_dec (ln x) 0) as [E|E].
    + rewrite E, !Rmult_0_r. lra.
    + apply Rlt_le, exp_increasing. nra.
  - rewrite ln_1, !Rmult_0_r. lra.
Qed.

Lemma Rpower_cube_root (q : R) : 0 < q -> Rpower (q * q * q) (1 / 3) = q.
Proof.
  intros Hq.
  replace (q * q * q) with (Rpower q (INR 3)).
  - rewrite Rpower_mult. replace (INR 3 * (1 / 3)) with 1 by (simpl; lra).
    now apply Rpower_1.
  - rewrite Rpower_pow by assumption. simpl. ring.
Qed.

Lemma Rpower_ge_sqrt (x : R) : 0 < x <= 1 -> sqrt x <= Rpower x 0.42.
Proof.
  intros Hx. rewrite <- Rpower_sqrt by lra.
  apply Rpower_anti_exponent; [assumption | lra].
Qed.

(* ================================================================== *)
(** * The conditions of screen viewing (La = 64) under D65 *)
(* ================================================================== *)

Lemma Fl_64_bounds : 0.6799 <= Fl_64 <= 0.6901.
Proof.
  unfold Fl_64.
  set (k4 := 1 / 321 * (1 / 321) * (1 / 321) * (1 / 321)).
  assert (0 < k4 <= 0.000000001) as Hk4 by (unfold k4; lra).
  assert (6.8 <= Rpower 320 (1 / 3) <= 6.9) as Hcube.
  { split.
    - rewrite <- (@Rpower_cube_root 6.8) at 1 by lra.
      apply Rle_Rpower_l; lra.
    - rewrite <- (@Rpower_cube_root 6.9) at 1 by lra.
      apply Rle_Rpower_l; lra. }
  assert (0.99999 <= Rpower (1 - k4) 2 <= 1) as Hsq.
  { replace 2 with (INR 2) by (simpl; lra).
    rewrite Rpower_pow by lra. simpl. nra. }
  nra.
Qed.

Lemma makeViewingConditions_Fl_64 (Yb : number) wp s :
  Mvc.Fl (makeViewingConditions_locals #64 Yb wp s) = Fin Fl_64.
Proof.
  rewrite Mvc_Fl_eq, Mvc_k4_eq, Mvc_k_eq. cbn [nmul nadd nsub nneg].
  replace (5 * 64 + 1) with 321 by lra.
  replace (5 * 64) with 320 by lra.
  rewrite ndiv_fin by lra. cbn [nmul nadd nsub nneg].
  rewrite ndiv_fin by lra.
  rewrite !Math_pow_pos by lra.
  reflexivity.
Qed.

(** The cone responses of the D65 white point. *)
Lemma D65_whiteRgb :
  multiplyMatrixVec M_CAT02
    (XYZ.X D65_WHITE_POINT, XYZ.Y D65_WHITE_POINT, XYZ.Z D65_WHITE_POINT)
  = (Fin 94.9278424, Fin 103.5391171, Fin 108.7206832).
Proof.
  unfold multiplyMatrixVec, M_CAT02, D65_WHITE_POINT.
  cbn [XYZ.X XYZ.Y XYZ.Z at0 at1 at2 fst snd nmul nadd].
  repeat f_equal; lra.
Qed.

Lemma cat02_fin (x y z : R) :
  multiplyMatrixVec M_CAT02 (Fin x, Fin y, Fin z)
  = (Fin (0.7328 * x + 0.4296 * y + -0.1624 * z),
     Fin (-0.7036 * x + 1.6975 * y + 0.0061 * z),
     Fin (0.0030 * x + 0.0136 * y + 0.9834 * z)).
Proof. reflexivity. Qed.

Lemma hpe_fin (r g b : R) :
  multiplyMatrixVec M_HPE (multiplyMatrixVec M_CAT02_INV (Fin r, Fin g, Fin b))
  = (Fin (hpe0 r g b), Fin (hpe1 r g b), Fin (hpe2 r g b)).
Proof. reflexivity. Qed.

Lemma adapt_fin (d w r : R) :
  w <> 0 ->
  ((Fin d * #100.0 / Fin w + #1 - Fin d) * Fin r)%num = Fin (adapt d w * r).
Proof.
  intros Hw. cbn [nmul]. rewrite ndiv_fin by assumption. reflexivity.
Qed.

(** The adapted cone responses of any stimulus under D65. *)
Lemma forward_rgbHpe_D65 (x y z d : R) conditions :
  ViewingConditions.D conditions = Fin d ->
  Fwd.rgbHpe
    (forward_locals (XYZ.mk (Fin x) (Fin y) (Fin z)) D65_WHITE_POINT conditions)
  = (let r := adapt d 94.9278424 * (0.7328 * x + 0.4296 * y + -0.1624 * z) in
     let g := adapt d 103.5391171 * (-0.7036 * x + 1.6975 * y + 0.0061 * z) in
     let b := adapt d 108.7206832 * (0.0030 * x + 0.0136 * y + 0.9834 * z) in
     (Fin (hpe0 r g b), Fin (hpe1 r g b), Fin (hpe2 r g b))).
Proof.
  intros HD. rewrite Fwd_rgbHpe_eq, Fwd_rgc_eq, Fwd_whiteRgb_eq, Fwd_rgb_eq.
  rewrite D65_whiteRgb, HD. cbv zeta. cbn [XYZ.X XYZ.Y XYZ.Z].
  rewrite cat02_fin.
  cbn [XYZ.Y at0 at1 at2 fst snd D65_WHITE_POINT].
  rewrite !adapt_fin by lra. apply hpe_fin.
Qed.

(** The direction of a point of the plane, from the arc tangent of its
    slope. *)
Lemma direction_of_slope (a b : R) :
  0 < a ->
  cos (atan (b / a)) = a / sqrt (a * a + b * b) /\
  sin (atan (b / a)) = b / sqrt (a * a + b * b).
Proof.
  intros Ha.
  assert (0 < a * a + b * b) as Hr2 by nra.
  assert (sqrt (1 + (b / a)²) = sqrt (a * a + b * b) / a) as Hs.
  { replace (1 + (b / a)²) with ((a * a + b * b) / (a * a))
      by (unfold Rsqr; field; lra).
    rewrite sqrt_div_alt by nra.
    rewrite sqrt_square by lra. reflexivity. }
  pose proof (sqrt_lt_R0 _ Hr2) as Hr.
  rewrite cos_atan, sin_atan, Hs. split; field; lra.
Qed.

(** The cosine and the sine of the angle of [Math.atan2]. *)
Lemma Math_atan2_direction (a b : R) :
  a <> 0 \/ b <> 0 ->
  exists t,
    Math_atan2 (Fin b) (Fin a) = Fin t /\
    cos t = a / sqrt (a * a + b * b) /\ sin t = b / sqrt (a * a + b * b).
Proof.
  intros Hab. cbn [Math_atan2].
  destruct (Rtotal_order a 0) as [Ha | [Ha | Ha]].
  - (* a < 0 *)
    rewrite Rltb_false by lra. rewrite Rltb_true by exact Ha.
    assert (0 < - a) as Ha' by lra.
    destruct (direction_of_slope (- b) Ha') as [Hc Hs].
    replace (- b / - a) with (b / a) in Hc, Hs by (field; lra).
    replace (- a * - a + - b * - b) with (a * a + b * b) in Hc, Hs by ring.
    destruct (Rltb b 0); eexists; (split; [reflexivity|]).
    + rewrite cos_minus, sin_minus, cos_PI, sin_PI, Hc, Hs.
      assert (0 < sqrt (a * a + b * b)) by (apply sqrt_lt_R0; nra).
      split; field; lra.
    + rewrite neg_cos, neg_sin, Hc, Hs.
      assert (0 < sqrt (a * a + b * b)) by (apply sqrt_lt_R0; nra).
      split; field; lra.
  - (* a = 0 *)
    subst a. rewrite !Rltb_false by lra.
    assert (b <> 0) as Hb by (destruct Hab; [lra | assumption]).
    replace (0 * 0 + b * b) with (b * b) by ring.
    destruct (Rlt_dec 0 b) as [Hpos | Hneg].
    + rewrite Rltb_true by exact Hpos. eexists. split; [reflexivity|].
      rewrite cos_PI2, sin_PI2, sqrt_square by lra. split; field; lra.
    + rewrite Rltb_false by lra. rewrite Rltb_true by lra.
      eexists. split; [reflexivity|].
      replace (- PI / 2) with (- (PI / 2)) by lra.
      rewrite cos_neg, sin_neg, cos_PI2, sin_PI2.
      replace (b * b) with (- b * - b) by ring.
      rewrite sqrt_square by lra. split; field; lra.
  - (* 0 < a *)
    rewrite Rltb_true by lra. eexists. split; [reflexivity|].
    apply direction_of_slope. lra.
Qed.

(** The opponent signals of finite compressed responses. *)
Lemma forward_opponent_fin xyz wp cond (ra ga ba : R) :
  Fwd.Ra (forward_locals xyz wp cond) = Fin ra ->
  Fwd.Ga (forward_locals xyz wp cond) = Fin ga ->
  Fwd.Ba (forward_locals xyz wp cond) = Fin ba ->
  Fwd.a (forward_locals xyz wp cond) = Fin (ra - 12 * ga / 11 + ba / 11) /\
  Fwd.b (forward_locals xyz wp cond) = Fin ((ra + ga - 2 * ba) / 9).
Proof.
  intros ERa EGa EBa. split.
  - rewrite Fwd_a_eq, ERa, EGa, EBa.
    cbn [nmul nsub nadd nneg]. rewrite !ndiv_fin by lra.
    cbn [nmul nsub nadd nneg]. f_equal; lra.
  - rewrite Fwd_b_eq, ERa, EGa, EBa.
    cbn [nmul nsub nadd nneg]. rewrite !ndiv_fin by lra.
    f_equal; lra.
Qed.

(** The same for the white point inside [makeViewingConditions]. *)
Lemma makeViewingConditions_whiteRgbHpe_D65 (La Yb : number) s (d : R) :
  Mvc.Dclamp (makeViewingConditions_locals La Yb D65_WHITE_POINT s) = Fin d ->
  Mvc.whiteRgbHpe (makeViewingConditions_locals La Yb D65_WHITE_POINT s)
  = (let r := adapt d 94.9278424 * 94.9278424 in
     let g := adapt d 103.5391171 * 103.5391171 in
     let b := adapt d 108.7206832 * 108.7206832 in
     (Fin (hpe0 r g b), Fin (hpe1 r g b), Fin (hpe2 r g b))).
Proof.
  intros HD.
  rewrite Mvc_whiteRgbHpe_eq, Mvc_adaptedWhiteRgc_eq, Mvc_whiteRgb_eq.
  rewrite D65_whiteRgb, HD. cbv zeta.
  cbn [XYZ.Y at0 at1 at2 fst snd D65_WHITE_POINT].
  rewrite !adapt_fin by lra. apply hpe_fin.
Qed.

(** Under D65 every channel of the adapted white lies between 99 and 101.5,
    whatever the degree of adaptation in [0, 1]. *)
Lemma adapted_white_D65_bounds (d : R) :
  0 <= d <= 1 ->
  let r := adapt d 94.9278424 * 94.9278424 in
  let g := adapt d 103.5391171 * 103.5391171 in
  let b := adapt d 108.7206832 * 108.7206832 in
  94 <= hpe0 r g b <= 106 /\ 94 <= hpe1 r g b <= 106 /\
  94 <= hpe2 r g b <= 111.
Proof.
  intros Hd r g b. unfold r, g, b, adapt, hpe0, hpe1, hpe2.
  repeat split; lra.
Qed.

(** What [makeViewingConditions] derives for La = 64, a positive background
    luminance and the D65 white point: finite scalars, a degree of
    adaptation in [0, 1] and a positive achromatic response of the white. *)
Lemma makeViewingConditions_D65_64 (yb : R) (s : SurroundCondition) :
  0 < yb ->
  let mv := makeViewingConditions_locals #64 (Fin yb) D65_WHITE_POINT s in
  exists d aw : R,
    Mvc.Dclamp mv = Fin d /\ 0 <= d <= 1 /\
    Mvc.Fl mv = Fin Fl_64 /\
    Mvc.n mv = Fin (yb / 100.0) /\
    Mvc.Nbb mv = Fin (0.725 * Rpower (yb / 100.0) (-0.2)) /\
    Mvc.z mv = Fin (1.48 + sqrt (yb / 100.0)) /\
    Mvc.Aw mv = Fin aw /\ 0 < aw.
Proof.
  intros Hyb mv.
  assert (0 < 100.0) as Hy by lra.
  destruct (makeViewingConditions_locals_scalars 64 #95.047 #108.883 s Hyb Hy)
    as (En & ENbb & _ & Ez & f & Ef & ED).
  change (XYZ.mk #95.047 #100.0 #108.883) with D65_WHITE_POINT in *.
  fold mv in En, ENbb, Ez, ED.
  set (d := Rmax 0 (Rmin 1 (f * (1 - 1 / 3.6 * exp ((- 64 - 42) / 92))))) in *.
  assert (0 <= d <= 1) as Hd.
  { unfold d. split; [apply Rmax_l | apply Rmax_lub; [lra | apply Rmin_l]]. }
  pose proof Fl_64_bounds as HFl.
  pose proof (makeViewingConditions_Fl_64 (Fin yb) D65_WHITE_POINT s) as EFl.
  fold mv in EFl.
  pose proof (makeViewingConditions_whiteRgbHpe_D65 #64 (Fin yb) s ED) as EH.
  fold mv in EH. cbv zeta in EH.
  destruct (adapted_white_D65_bounds Hd) as (H0 & H1 & H2).
  cbv zeta in H0, H1, H2.
  set (h0 := hpe0 _ _ _) in *. set (h1 := hpe1 _ _ _) in *.
  set (h2 := hpe2 _ _ _) in *.
  assert (Mvc.whiteRa mv = Fin (compress Fl_64 h0)) as ERa.
  { unfold mv. rewrite Mvc_whiteRa_eq. fold mv. rewrite EH, EFl.
    apply nonlinearAdaptation_fin; lra. }
  assert (Mvc.whiteGa mv = Fin (compress Fl_64 h1)) as EGa.
  { unfold mv. rewrite Mvc_whiteGa_eq. fold mv. rewrite EH, EFl.
    apply nonlinearAdaptation_fin; lra. }
  assert (Mvc.whiteBa mv = Fin (compress Fl_64 h2)) as EBa.
  { unfold mv. rewrite Mvc_whiteBa_eq. fold mv. rewrite EH, EFl.
    apply nonlinearAdaptation_fin; lra. }
  assert (0.1 < compress Fl_64 h0) as Pa by (apply compress_gt_offset; lra).
  assert (0.1 < compress Fl_64 h1) as Pg by (apply compress_gt_offset; lra).
  assert (0.1 < compress Fl_64 h2) as Pb by (apply compress_gt_offset; lra).
  pose proof (Rpower_pos (yb / 100.0) (-0.2)) as Hpow.
  exists d. eexists.
  split; [exact ED|]. split; [exact Hd|]. split; [exact EFl|].
  split; [exact En|]. split; [exact ENbb|]. split; [exact Ez|]. split.
  - unfold mv. rewrite Mvc_Aw_eq. fold mv. rewrite ERa, EGa, EBa, ENbb.
    rewrite ndiv_fin by lra. reflexivity.
  - apply Rmult_lt_0_compat; lra.
Qed.

(** The exponential of an integer multiple. *)
Lemma exp_nat_mult (n : nat) (x : R) : exp (INR n * x) = exp x ^ n.
Proof.
  rewrite <- Rpower_pow by apply exp_pos.
  unfold Rpower. now rewrite ln_exp.
Qed.

(** e^(-106/92), the exponential in the degree of adaptation for La = 64. *)
Lemma exp_adaptation_64 : 0.30 <= exp ((- 64 - 42) / 92) <= 0.33.
Proof.
  set (y := 106 / 1472).
  replace ((- 64 - 42) / 92) with (INR 16 * - y) by (unfold y; simpl; lra).
  rewrite exp_nat_mult.
  pose proof (exp_ineq1_le (- y)) as Hlo.
  pose proof (exp_ineq1_le y) as Hhi.
  pose proof (exp_pos y) as Hpos.
  assert (exp (- y) <= / (1 + y)) as Hup.
  { rewrite exp_Ropp. apply Rinv_le_contravar; unfold y in *; lra. }
  split.
  - apply Rle_trans with ((1 + - y) ^ 16).
    + unfold y. lra.
    + apply pow_incr. unfold y in *. lra.
  - apply Rle_trans with ((/ (1 + y)) ^ 16).
    + apply pow_incr. split; [apply Rlt_le, exp_pos | exact Hup].
    + unfold y. lra.
Qed.

(** The degree of adaptation of the default surround for La = 64. *)
Lemma makeViewingConditions_average_D (yb : R) :
  0 < yb ->
  exists d,
    Mvc.Dclamp (makeViewingConditions_locals #64 (Fin yb) D65_WHITE_POINT average)
    = Fin d /\ 0.9083 <= d <= 0.9167.
Proof.
  intros Hyb. assert (0 < 100.0) as Hy by lra.
  destruct (makeViewingConditions_locals_scalars 64 #95.047 #108.883 average
              Hyb Hy) as (_ & _ & _ & _ & f & Ef & ED).
  change (XYZ.mk #95.047 #100.0 #108.883) with D65_WHITE_POINT in ED.
  assert (f = 1.0) as -> by (cbn in Ef; congruence).
  eexists. split; [exact ED|].
  pose proof exp_adaptation_64 as HE.
  set (E := exp _) in *. clearbody E.
  rewrite Rmin_right by lra. rewrite Rmax_right by lra. lra.
Qed.

(** The luminance adaptation factor for La = 64, to four digits. *)
Lemma Fl_64_tight : 0.6839 <= Fl_64 <= 0.6841.
Proof.
  unfold Fl_64.
  set (k4 := 1 / 321 * (1 / 321) * (1 / 321) * (1 / 321)).
  assert (0 < k4 <= 0.000000001) as Hk4 by (unfold k4; lra).
  assert (6.8399 <= Rpower 320 (1 / 3) <= 6.84) as Hcube.
  { replace (1 / 3) with (INR 1 / INR 3) by (simpl; lra). split.
    - apply Rpower_ge_root; try lra; lia.
    - apply Rpower_le_root; try lra; lia. }
  assert (0.999999 <= Rpower (1 - k4) 2 <= 1) as Hsq.
  { replace 2 with (INR 2) by (simpl; lra).
    rewrite Rpower_pow by lra. simpl. nra. }
  nra.
Qed.

(* ================================================================== *)
(** * Black *)
(* ================================================================== *)

Lemma von_kries_fin (d y w r : R) :
  w <> 0 ->
  ((Fin d * Fin y / Fin w + #1 - Fin d) * Fin r)%num
  = Fin ((d * y / w + 1 - d) * r).
Proof.
  intros Hw. cbn [nmul]. rewrite ndiv_fin by assumption. reflexivity.
Qed.

(** The three post-adaptation responses of black are the offset 0.1. *)
Lemma forward_black_responses (x y z d fl : R) conditions :
  0.7328 * x + 0.4296 * y + -0.1624 * z <> 0 ->
  -0.7036 * x + 1.6975 * y + 0.0061 * z <> 0 ->
  0.0030 * x + 0.0136 * y + 0.9834 * z <> 0 ->
  ViewingConditions.D conditions = Fin d ->
  ViewingConditions.Fl conditions = Fin fl ->
  let v := forward_locals (XYZ.mk #0 #0 #0) (XYZ.mk (Fin x) (Fin y) (Fin z))
             conditions in
  Fwd.Ra v = Fin 0.1 /\ Fwd.Ga v = Fin 0.1 /\ Fwd.Ba v = Fin 0.1.
Proof.
  intros H0 H1 H2 HD HFl v.
  assert (Fwd.rgbHpe v = (Fin 0, Fin 0, Fin 0)) as EH.
  { unfold v.
    rewrite Fwd_rgbHpe_eq, Fwd_rgc_eq, Fwd_whiteRgb_eq, Fwd_rgb_eq.
    cbv zeta. cbn [XYZ.X XYZ.Y XYZ.Z]. rewrite !cat02_fin, HD.
    cbn [at0 at1 at2 fst snd].
    rewrite !von_kries_fin by assumption. rewrite hpe_fin.
    unfold hpe0, hpe1, hpe2. repeat f_equal; lra. }
  unfold v. rewrite Fwd_Ra_eq, Fwd_Ga_eq, Fwd_Ba_eq. fold v.
  rewrite EH, HFl. cbn [at0 at1 at2 fst snd].
  rewrite nonlinearAdaptation_zero. repeat split.
Qed.

(** A small achromatic response gives a small lightness: with an exponent
    c z of at least 1/2, a response of at most Aw / 10^4 gives a lightness
    of at most 1. *)
Lemma forward_small_lightness xyz wp cond (a aw cz : R) :
  Fwd.A (forward_locals xyz wp cond) = Fin a ->
  ViewingConditions.Aw cond = Fin aw ->
  (SurroundParameters.c (ViewingConditions.surround cond)
   * ViewingConditions.z cond)%num = Fin cz ->
  0 < aw -> 1 / 2 <= cz -> 0 <= a <= aw / 10000 ->
  exists j, Fwd.J (forward_locals xyz wp cond) = Fin j /\ 0 <= j <= 1.
Proof.
  intros EA HAw Hcz Haw Hcz' [Ha0 Ha1].
  rewrite Fwd_J_eq, EA, HAw, Hcz. rewrite ndiv_fin by lra.
  destruct (Req_dec a 0) as [-> | Hne].
  - replace (0 / aw) with 0 by (field; lra).
    rewrite Math_pow_zero by lra. cbn [nmul].
    eexists. split; [reflexivity|]. lra.
  - assert (0 < a / aw <= 1 / 10000) as Hr.
    { split; [apply Rdiv_lt_0_compat; lra|].
      apply Rmult_le_reg_r with aw; [lra|].
      unfold Rdiv at 1. rewrite Rmult_assoc, Rinv_l by lra. lra. }
    rewrite Math_pow_pos by lra. cbn [nmul].
    eexists. split; [reflexivity|].
    pose proof (Rpower_pos (a / aw) cz) as Hpos.
    assert (Rpower (a / aw) cz <= 1 / 100) as Hup.
    { apply Rle_trans with (Rpower (a / aw) (1 / 2)).
      - apply Rpower_anti_exponent; lra.
      - apply Rle_trans with (Rpower (1 / 10000) (1 / 2)).
        + apply Rle_Rpower_l; lra.
        + replace (1 / 2) with (INR 1 / INR 2) by (simpl; lra).
          apply Rpower_le_root; try lra; lia. }
    lra.
Qed.

(** C8 (as the code has it). A stimulus whose achromatic response A is
    between 0 and Aw / 10^4 has a lightness between 0 and 1 when the
    exponent c z is at least 1/2. Black is such a stimulus: for a white
    point with coordinates of magnitude at most 10^6 whose three CAT02 cone
    responses have magnitude at least 10^-6, and conditions with a finite D
    in [0, 1], a finite Fl and 0 < Nbb <= Aw, the post-adaptation responses
    of black are the offset 0.1, its achromatic response has magnitude at
    most Nbb / 10^15 and its lightness is within 1 of 0. *)
Theorem forward_black_lightness :
  (forall xyz whitePoint conditions (a aw cz : R),
     Fwd.A (forward_locals xyz whitePoint conditions) = Fin a ->
     ViewingConditions.Aw conditions = Fin aw ->
     (SurroundParameters.c (ViewingConditions.surround conditions)
      * ViewingConditions.z conditions)%num = Fin cz ->
     0 < aw -> 1 / 2 <= cz -> 0 <= a <= aw / 10000 ->
     exists r j,
       forward xyz whitePoint conditions = Success r /\
       AppearanceCorrelates.J r = Fin j /\ 0 <= j <= 1) /\
  (forall (x y z d fl nbb aw cz : R) (conditions : ViewingConditions.t),
     Rabs x <= 1000000 -> Rabs y <= 1000000 -> Rabs z <= 1000000 ->
     0.000001 <= Rabs (0.7328 * x + 0.4296 * y + -0.1624 * z) ->
     0.000001 <= Rabs (-0.7036 * x + 1.6975 * y + 0.0061 * z) ->
     0.000001 <= Rabs (0.0030 * x + 0.0136 * y + 0.9834 * z) ->
     ViewingConditions.D conditions = Fin d -> 0 <= d <= 1 ->
     ViewingConditions.Fl conditions = Fin fl ->
     ViewingConditions.Nbb conditions = Fin nbb ->
     ViewingConditions.Aw conditions = Fin aw -> 0 < nbb <= aw ->
     (SurroundParameters.c (ViewingConditions.surround conditions)
      * ViewingConditions.z conditions)%num = Fin cz -> 1 / 2 <= cz ->
     let v := forward_locals (XYZ.mk #0 #0 #0) (XYZ.mk (Fin x) (Fin y) (Fin z))
                conditions in
     Fwd.Ra v = Fin 0.1 /\ Fwd.Ga v = Fin 0.1 /\ Fwd.Ba v = Fin 0.1 /\
     (exists a, Fwd.A v = Fin a /\ Rabs a <= nbb / 1000000000000000) /\
     exists r,
       forward (XYZ.mk #0 #0 #0) (XYZ.mk (Fin x) (Fin y) (Fin z)) conditions
       = Success r /\
       within 1 (AppearanceCorrelates.J r) 0).
Proof.
  split.
  - intros xyz wp cond a aw cz EA HAw Hcz Haw Hcz' Ha.
    destruct (forward_small_lightness _ _ _ EA HAw Hcz Haw Hcz' Ha)
      as (j & EJ & Hj).
    rewrite forward_success. eexists. exists j. split; [reflexivity|].
    cbv zeta. cbn [AppearanceCorrelates.J]. split; assumption.
  - intros x y z d fl nbb aw cz cond _ _ _ H0 H1 H2 HD _ HFl HNbb HAw
           [Hnbb Haw] Hcz Hcz' v.
    assert (forall w, 0.000001 <= Rabs w -> w <> 0) as Hnz.
    { intros w Hw ->. rewrite Rabs_R0 in Hw. lra. }
    destruct (forward_black_responses cond (Hnz _ H0) (Hnz _ H1) (Hnz _ H2)
                HD HFl) as (ERa & EGa & EBa).
    fold v in ERa, EGa, EBa.
    assert (Fwd.A v = Fin 0) as EA.
    { unfold v. rewrite Fwd_A_eq. fold v. rewrite ERa, EGa, EBa, HNbb.
      rewrite ndiv_fin by lra. cbn [nmul nadd nsub nneg]. f_equal. lra. }
    split; [exact ERa|]. split; [exact EGa|]. split; [exact EBa|]. split.
    + exists 0. split; [exact EA|]. rewrite Rabs_R0.
      apply Rlt_le, Rdiv_lt_0_compat; lra.
    + assert (0 <= 0 <= aw / 10000) as Ha.
      { split; [lra|]. apply Rlt_le, Rdiv_lt_0_compat; lra. }
      assert (0 < aw) as Haw' by lra.
      destruct (forward_small_lightness _ _ _ EA HAw Hcz Haw' Hcz' Ha)
        as (j & EJ & Hj).
      rewrite forward_success. eexists. split; [reflexivity|].
      cbv zeta. cbn [AppearanceCorrelates.J]. unfold v in EJ. rewrite EJ.
      cbn [within]. rewrite Rminus_0_r. rewrite Rabs_pos_eq; lra.
Qed.

(** The compression of a response of at least 94 under Fl >= 0.6799. *)
Lemma compress_white_lower (fl r : R) :
  0.6799 <= fl -> 94 <= r -> 11 <= compress fl r.
Proof.
  intros Hfl Hr. rewrite compress_pos by lra.
  set (P := Rpower (fl * r / 100) 0.42).
  assert (0.8 <= P) as HP.
  { apply Rle_trans with (Rpower 0.639 0.42).
    - replace 0.42 with (INR 21 / INR 50) by (simpl; lra).
      apply Rpower_ge_root; try lra; lia.
    - apply Rle_Rpower_l; [lra|]. split; [lra|]. nra. }
  assert (400 * 0.8 / (0.8 + 27.13) <= 400 * P / (P + 27.13))
    by (apply compression_ratio_mono; lra).
  lra.
Qed.

(** For La = 64 and D65 the achromatic response of the white is at least
    30 times Nbb. *)
Lemma makeViewingConditions_D65_64_Aw (yb : R) (s : SurroundCondition) :
  0 < yb ->
  let mv := makeViewingConditions_locals #64 (Fin yb) D65_WHITE_POINT s in
  exists aw : R,
    Mvc.Aw mv = Fin aw /\
    30 * (0.725 * Rpower (yb / 100.0) (-0.2)) <= aw.
Proof.
  intros Hyb mv.
  assert (0 < 100.0) as Hy by lra.
  destruct (makeViewingConditions_locals_scalars 64 #95.047 #108.883 s Hyb Hy)
    as (En & ENbb & _ & Ez & f & Ef & ED).
  change (XYZ.mk #95.047 #100.0 #108.883) with D65_WHITE_POINT in *.
  fold mv in En, ENbb, Ez, ED.
  set (d := Rmax 0 (Rmin 1 (f * (1 - 1 / 3.6 * exp ((- 64 - 42) / 92))))) in *.
  assert (0 <= d <= 1) as Hd.
  { unfold d. split; [apply Rmax_l | apply Rmax_lub; [lra | apply Rmin_l]]. }
  pose proof Fl_64_bounds as HFl.
  pose proof (makeViewingConditions_Fl_64 (Fin yb) D65_WHITE_POINT s) as EFl.
  fold mv in EFl.
  pose proof (makeViewingConditions_whiteRgbHpe_D65 #64 (Fin yb) s ED) as EH.
  fold mv in EH. cbv zeta in EH.
  destruct (adapted_white_D65_bounds Hd) as (H0 & H1 & H2).
  cbv zeta in H0, H1, H2.
  set (h0 := hpe0 _ _ _) in *. set (h1 := hpe1 _ _ _) in *.
  set (h2 := hpe2 _ _ _) in *.
  assert (Mvc.whiteRa mv = Fin (compress Fl_64 h0)) as ERa.
  { unfold mv. rewrite Mvc_whiteRa_eq. fold mv. rewrite EH, EFl.
    apply nonlinearAdaptation_fin; lra. }
  assert (Mvc.whiteGa mv = Fin (compress Fl_64 h1)) as EGa.
  { unfold mv. rewrite Mvc_whiteGa_eq. fold mv. rewrite EH, EFl.
    apply nonlinearAdaptation_fin; lra. }
  assert (Mvc.whiteBa mv = Fin (compress Fl_64 h2)) as EBa.
  { unfold mv. rewrite Mvc_whiteBa_eq. fold mv. rewrite EH, EFl.
    apply nonlinearAdaptation_fin; lra. }
  assert (11 <= compress Fl_64 h0) as Pa by (apply compress_white_lower; lra).
  assert (11 <= compress Fl_64 h1) as Pg by (apply compress_white_lower; lra).
  assert (11 <= compress Fl_64 h2) as Pb by (apply compress_white_lower; lra).
  pose proof (Rpower_pos (yb / 100.0) (-0.2)) as Hpow.
  eexists. split.
  - unfold mv. rewrite Mvc_Aw_eq. fold mv. rewrite ERa, EGa, EBa, ENbb.
    rewrite ndiv_fin by lra. reflexivity.
  - cbn [nmul nadd nsub nneg].
    set (nbb := 0.725 * Rpower (yb / 100.0) (-0.2)).
    assert (0 < nbb) by (unfold nbb; lra).
    nra.
Qed.

Lemma forward_black_lightness_witness :
  exists vc r,
    makeViewingConditions #64 #20 D65_WHITE_POINT None = Success vc /\
    forward (XYZ.mk #0 #0 #0) D65_WHITE_POINT vc = Success r /\
    within 1 (AppearanceCorrelates.J r) 0.
Proof.
  assert (0 < 20) as Hyb by lra.
  destruct (makeViewingConditions_D65_64 average Hyb)
    as (d & aw & ED & Hd & EFl & En & ENbb & Ez & EAw & Haw).
  destruct (makeViewingConditions_D65_64_Aw average Hyb) as (aw' & EAw' & Haw').
  rewrite EAw in EAw'. injection EAw' as <-.
  pose proof (Rpower_pos (20 / 100.0) (-0.2)) as Hpow.
  rewrite makeViewingConditions_success. cbv zeta.
  eexists.
  pose proof (sqrt_pos (20 / 100.0)) as Hsq.
  assert (forall v, 0 <= v <= 1000000 -> Rabs v <= 1000000) as Hb.
  { intros v Hv. rewrite Rabs_pos_eq; lra. }
  assert (forall v, 0.000001 <= v -> 0.000001 <= Rabs v) as Hl.
  { intros v Hv. rewrite Rabs_pos_eq; lra. }
  refine (let H := proj2 forward_black_lightness 95.047 100.0 108.883 d Fl_64
                     (0.725 * Rpower (20 / 100.0) (-0.2)) aw
                     (0.69 * (1.48 + sqrt (20 / 100.0))) _
                     _ _ _ _ _ _ _ Hd _ _ _ _ _ _ in _).
  destruct H as (_ & _ & _ & _ & r & Hr & HJ).
  exists r. split; [reflexivity|]. split; [exact Hr | exact HJ].
  Unshelve.
  - apply Hb; lra.
  - apply Hb; lra.
  - apply Hb; lra.
  - apply Hl; lra.
  - apply Hl; lra.
  - apply Hl; lra.
  - exact ED.
  - exact EFl.
  - exact ENbb.
  - exact EAw.
  - lra.
  - cbn [ViewingConditions.surround ViewingConditions.z].
    rewrite Ez. reflexivity.
  - lra.
Defined.

Lemma multiplyMatrixVec_NaN_first (m : Matrix3x3) (g b : number) :
  multiplyMatrixVec m (NaN, g, b) = (NaN, NaN, NaN).
Proof.
  unfold multiplyMatrixVec. cbn [at0 at1 at2 fst snd].
  rewrite !nmul_NaN_r. reflexivity.
Qed.

(** A [NaN] in the first adapted cone response reaches the lightness. *)
Lemma forward_NaN_cone_response xyz wp cond (cz : R) :
  at0 (Fwd.rgc (forward_locals xyz wp cond)) = NaN ->
  (SurroundParameters.c (ViewingConditions.surround cond)
   * ViewingConditions.z cond)%num = Fin cz ->
  cz <> 0 ->
  Fwd.J (forward_locals xyz wp cond) = NaN.
Proof.
  intros Hrgc Hcz Hne.
  set (v := forward_locals xyz wp cond) in *.
  assert (Fwd.rgbHpe v = (NaN, NaN, NaN)) as EH.
  { unfold v. rewrite Fwd_rgbHpe_eq. fold v.
    destruct (Fwd.rgc v) as [[r g] b]. cbn in Hrgc. subst r.
    rewrite multiplyMatrixVec_NaN_first. apply multiplyMatrixVec_NaN. }
  unfold v. rewrite Fwd_J_eq, Fwd_A_eq, Fwd_Ra_eq. fold v.
  rewrite EH, Hcz. cbn [at0 fst]. rewrite nonlinearAdaptation_NaN.
  cbn [nmul nadd nsub ndiv]. rewrite Math_pow_NaN by assumption.
  reflexivity.
Qed.

(** C8, counterexample: a white point whose first cone response is zero
    (X = 0, Y = 0.1624, Z = 0.4296). Under the conditions built for
    La = 64, Yb = 100 and D65, the von Kries factor of black is an
    infinity times zero, and the lightness of black is [NaN]. *)
Lemma forward_black_degenerate_white :
  exists vc r,
    makeViewingConditions #64 #100 D65_WHITE_POINT None = Success vc /\
    forward (XYZ.mk #0 #0 #0) (XYZ.mk #0 #0.1624 #0.4296) vc = Success r /\
    AppearanceCorrelates.J r = NaN /\
    ~ within 1 (AppearanceCorrelates.J r) 0.
Proof.
  assert (0 < 100) as Hyb by lra.
  destruct (makeViewingConditions_D65_64 average Hyb)
    as (d & aw & ED & Hd & EFl & En & ENbb & Ez & EAw & Haw).
  rewrite makeViewingConditions_success. cbv zeta.
  eexists. eexists. split; [reflexivity|].
  rewrite forward_success. cbv zeta. split; [reflexivity|].
  cbn [AppearanceCorrelates.J].
  match goal with
  | |- ?j = NaN /\ _ => assert (j = NaN) as EJ
  end.
  { apply forward_NaN_cone_response
      with (cz := 0.69 * (1.48 + sqrt (100 / 100.0))).
    - rewrite Fwd_rgc_eq, Fwd_whiteRgb_eq, Fwd_rgb_eq. cbv zeta.
      cbn [XYZ.X XYZ.Y XYZ.Z ViewingConditions.D]. rewrite !cat02_fin, ED.
      cbn [at0 at1 at2 fst snd nmul]. unfold ndiv at 1.
      rewrite (@Reqb_true (0.7328 * 0 + 0.4296 * 0.1624 + -0.1624 * 0.4296) 0)
        by lra.
      destruct (Reqb (d * 0.1624) 0); [reflexivity|].
      destruct (Rltb (d * 0.1624) 0); cbn [nadd nsub nneg nmul];
        unfold inf_times; rewrite Reqb_true by lra; reflexivity.
    - cbn [ViewingConditions.surround ViewingConditions.z]. rewrite Ez.
      reflexivity.
    - pose proof (sqrt_pos (100 / 100.0)). lra. }
  rewrite EJ. split; [reflexivity|]. cbn [within]. tauto.
Qed.

(* ================================================================== *)
(** * Saturation *)
(* ================================================================== *)

Lemma is_odd_integer_half : is_odd_integer 0.5 = false.
Proof.
  unfold is_odd_integer.
  rewrite (@not_integer_between 0.5 0%Z) by (simpl; lra). reflexivity.
Qed.

(** The saturation formula on a zero brightness. *)
Lemma saturation_of_zero_brightness (M : number) :
  let s := (#100 * Math_pow (M / #0) #0.5)%num in
  s = NaN \/ s = PosInf.
Proof.
  assert (Math_pow NaN #0.5 = NaN) as ENaN by (apply Math_pow_NaN; lra).
  assert (Math_pow PosInf #0.5 = PosInf) as EPos.
  { unfold Math_pow. rcompare. reflexivity. }
  assert (Math_pow NegInf #0.5 = PosInf) as ENeg.
  { unfold Math_pow. rcompare. now rewrite is_odd_integer_half. }
  assert ((#100 * PosInf)%num = PosInf) as E100.
  { cbn [nmul]. unfold inf_times. rcompare. reflexivity. }
  destruct M as [m | | |]; cbn [ndiv].
  - rewrite Reqb_true by reflexivity.
    destruct (Reqb m 0); [left; now rewrite ENaN|].
    destruct (Rltb m 0); right; now rewrite ?ENeg, ?EPos, E100.
  - rewrite Rltb_false by lra. right. now rewrite EPos, E100.
  - rewrite Rltb_false by lra. right. now rewrite ENeg, E100.
  - left. now rewrite ENaN.
Qed.

(** With [Fl = 0] every cone response is compressed to the offset. *)
Lemma nonlinearAdaptation_Fl_zero (r : R) :
  nonlinearAdaptation (Fin r) (Fin 0) = Fin 0.1.
Proof.
  unfold nonlinearAdaptation, CONE_RESPONSE_EXPONENT,
    CONE_RESPONSE_SCALE, CONE_RESPONSE_OFFSET, POST_ADAPTATION_OFFSET.
  cbn [Math_abs nmul nge].
  rewrite ndiv_fin by lra.
  replace (0 * Rabs r / 100) with 0 by (unfold Rdiv; ring).
  rewrite Math_pow_zero by lra.
  unfold Rleb. destruct (Rle_dec 0 r); cbn [nmul nadd];
    rewrite ndiv_fin by lra; cbn [nadd]; f_equal; field; lra.
Qed.

Lemma zero_brightness_example :
  let v := forward_locals (XYZ.mk #19.31 #23.93 #10.14) D65_WHITE_POINT
             conditions_without_adaptation in
  Fwd.Q v = Fin 0.
Proof.
  intros v.
  assert (ViewingConditions.D conditions_without_adaptation = Fin 1) as HD
    by reflexivity.
  pose proof (forward_rgbHpe_D65 19.31 23.93 10.14
                conditions_without_adaptation HD) as EH.
  fold v in EH. cbv zeta in EH.
  assert (Fwd.A v = Fin 0) as EA.
  { unfold v. rewrite Fwd_A_eq, Fwd_Ra_eq, Fwd_Ga_eq, Fwd_Ba_eq. fold v.
    rewrite EH. cbn [at0 at1 at2 fst snd ViewingConditions.Fl
                     ViewingConditions.Nbb conditions_without_adaptation].
    rewrite !nonlinearAdaptation_Fl_zero. rewrite ndiv_fin by lra.
    cbn [nmul nadd nsub nneg]. f_equal. lra. }
  assert (Fwd.J v = Fin 0) as EJ.
  { unfold v. rewrite Fwd_J_eq. fold v. rewrite EA.
    cbn [ViewingConditions.Aw ViewingConditions.surround ViewingConditions.z
         conditions_without_adaptation SURROUND_AVERAGE SurroundParameters.c
         nmul].
    rewrite ndiv_fin by lra. replace (0 / 27) with 0 by lra.
    rewrite Math_pow_zero by lra. cbn [nmul]. f_equal. lra. }
  unfold v. rewrite Fwd_Q_eq. fold v. rewrite EJ.
  cbn [ViewingConditions.Aw ViewingConditions.surround ViewingConditions.Fl
       conditions_without_adaptation SURROUND_AVERAGE SurroundParameters.c].
  rewrite !ndiv_fin by lra. replace (0 / 100) with 0 by lra.
  rewrite !Math_pow_zero by lra. cbn [nmul nadd]. f_equal. lra.
Qed.

Lemma forward_result xyz wp cond r :
  forward xyz wp cond = Success r ->
  r = AppearanceCorrelates.mk
        (Fwd.J (forward_locals xyz wp cond)) (Fwd.C (forward_locals xyz wp cond))
        (Fwd.h (forward_locals xyz wp cond)) (Fwd.M (forward_locals xyz wp cond))
        (Fwd.s (forward_locals xyz wp cond)) (Fwd.Q (forward_locals xyz wp cond)).
Proof.
  unfold forward, Effect_try. intros H.
  exact (f_equal (fun e => match e with Success a => a | Failure _ => r end)
                (eq_sym H)).
Qed.

(** C3 (as the code has it). [forward] computes the saturation as
    s = 100 (M / Q)^0.5 with no guard on Q. When the brightness Q is zero
    the result is not 0: it is [NaN] (for M = 0 or M = NaN) or +Infinity
    (otherwise). *)
Theorem forward_saturation_unguarded :
  forall xyz whitePoint conditions r,
    forward xyz whitePoint conditions = Success r ->
    AppearanceCorrelates.s r
    = (#100 * Math_pow (AppearanceCorrelates.M r / AppearanceCorrelates.Q r)
                #0.5)%num /\
    (AppearanceCorrelates.Q r = Fin 0 ->
     AppearanceCorrelates.s r = NaN \/ AppearanceCorrelates.s r = PosInf).
Proof.
  intros xyz wp cond r Hr. apply forward_result in Hr. subst r.
  cbn [AppearanceCorrelates.s AppearanceCorrelates.M AppearanceCorrelates.Q].
  split; [apply Fwd_s_eq|].
  intros HQ. rewrite Fwd_s_eq, HQ. apply saturation_of_zero_brightness.
Qed.

Lemma forward_saturation_unguarded_witness :
  exists r,
    forward (XYZ.mk #19.31 #23.93 #10.14) D65_WHITE_POINT
      conditions_without_adaptation = Success r /\
    AppearanceCorrelates.Q r = Fin 0 /\
    (AppearanceCorrelates.s r = NaN \/ AppearanceCorrelates.s r = PosInf).
Proof.
  eexists. split; [reflexivity|].
  assert (AppearanceCorrelates.Q
            (let v := forward_locals (XYZ.mk #19.31 #23.93 #10.14)
                        D65_WHITE_POINT conditions_without_adaptation in
             AppearanceCorrelates.mk (Fwd.J v) (Fwd.C v) (Fwd.h v) (Fwd.M v)
               (Fwd.s v) (Fwd.Q v)) = Fin 0) as HQ
    by apply zero_brightness_example.
  split; [exact HQ|].
  exact (proj2 (@forward_saturation_unguarded _ _ _ _ (forward_success _ _ _))
               HQ).
Defined.

(** C3, counterexample: for the test colour (19.31, 23.93, 10.14) under
    D65 and conditions with Fl = 0 the brightness Q is 0, and the
    saturation that [forward] returns is not 0 (it is not even finite). *)
Lemma forward_saturation_not_defaulted :
  exists r,
    forward (XYZ.mk #19.31 #23.93 #10.14) D65_WHITE_POINT
      conditions_without_adaptation = Success r /\
    AppearanceCorrelates.Q r = Fin 0 /\
    AppearanceCorrelates.s r <> Fin 0.
Proof.
  rewrite forward_success. eexists. split; [reflexivity|]. cbv zeta.
  cbn [AppearanceCorrelates.Q AppearanceCorrelates.s].
  split; [apply zero_brightness_example|].
  rewrite Fwd_s_eq. rewrite zero_brightness_example.
  destruct (saturation_of_zero_brightness
              (Fwd.M (forward_locals (XYZ.mk #19.31 #23.93 #10.14)
                        D65_WHITE_POINT conditions_without_adaptation)))
    as [E | E]; cbv zeta in E; rewrite E; discriminate.
Qed.

(* ================================================================== *)
(** * The white point *)
(* ================================================================== *)

Lemma makeViewingConditions_result La Yb wp s vc :
  makeViewingConditions La Yb wp s = Success vc ->
  vc = (let v := makeViewingConditions_locals La Yb wp
                   (match s with Some s' => s' | None => average end) in
        ViewingConditions.mk La Yb (Mvc.surroundParams v) (Mvc.k v) (Mvc.Fl v)
          (Mvc.n v) (Mvc.Nbb v) (Mvc.Ncb v) (Mvc.z v) (Mvc.Dclamp v)
          (Mvc.Aw v) (Mvc.adaptedWhiteRgc v)).
Proof.
  unfold makeViewingConditions, Effect_try. intros H.
  exact (f_equal (fun e => match e with Success a => a | Failure _ => vc end)
           (eq_sym H)).
Qed.

(** Under the conditions built for a white point, [forward] computes for
    that white point the very expression that [makeViewingConditions]
    stored as Aw. *)
Lemma forward_white_achromatic_response La Yb wp s vc :
  makeViewingConditions La Yb wp s = Success vc ->
  Fwd.A (forward_locals wp wp vc) = ViewingConditions.Aw vc.
Proof.
  intros H. apply makeViewingConditions_result in H. subst vc.
  cbv zeta. unfold_locals.
  lazy delta [ViewingConditions.Fl ViewingConditions.Nbb ViewingConditions.D
              ViewingConditions.Aw] beta iota.
  reflexivity.
Qed.

(** X29. Under the conditions that [makeViewingConditions] built for a
    white point, whenever the achromatic response Aw of the white is finite
    and non-zero and the exponent c z is finite, [forward] gives that white
    point the lightness J = 100 exactly. *)
Theorem forward_white_lightness :
  forall (La Yb : number) (whitePoint : XYZ.t)
         (surround : option SurroundCondition) (vc : ViewingConditions.t)
         (aw cz : R),
    makeViewingConditions La Yb whitePoint surround = Success vc ->
    ViewingConditions.Aw vc = Fin aw -> aw <> 0 ->
    (SurroundParameters.c (ViewingConditions.surround vc)
     * ViewingConditions.z vc)%num = Fin cz ->
    exists r,
      forward whitePoint whitePoint vc = Success r /\
      AppearanceCorrelates.J r = Fin 100 /\
      within 1 (AppearanceCorrelates.J r) 100.
Proof.
  intros La Yb wp s vc aw cz Hvc HAw Haw Hcz.
  pose proof (forward_white_achromatic_response Hvc) as EA.
  assert (Fwd.J (forward_locals wp wp vc) = Fin 100) as EJ.
  { rewrite Fwd_J_eq, EA, HAw, Hcz. rewrite ndiv_fin by assumption.
    replace (aw / aw) with 1 by (field; assumption).
    rewrite Math_pow_pos by lra. rewrite Rpower_1_l. cbn [nmul].
    f_equal. lra. }
  rewrite forward_success. eexists. split; [reflexivity|]. cbv zeta.
  cbn [AppearanceCorrelates.J]. rewrite EJ. split; [reflexivity|].
  cbn [within]. rewrite Rminus_diag, Rabs_R0. lra.
Qed.

Lemma forward_white_lightness_witness :
  exists vc r,
    makeViewingConditions #64 #100 D65_WHITE_POINT None = Success vc /\
    forward D65_WHITE_POINT D65_WHITE_POINT vc = Success r /\
    AppearanceCorrelates.J r = Fin 100.
Proof.
  assert (0 < 100) as Hyb by lra.
  destruct (makeViewingConditions_D65_64 average Hyb)
    as (d & aw & ED & Hd & EFl & En & ENbb & Ez & EAw & Haw).
  pose proof (makeViewingConditions_success #64 #100 D65_WHITE_POINT None)
    as Hvc.
  cbv zeta in Hvc.
  set (vc := ViewingConditions.mk _ _ _ _ _ _ _ _ _ _ _ _) in Hvc.
  assert (vc = vc) as Evc by reflexivity. unfold vc at 2 in Evc.
  assert (ViewingConditions.Aw vc = Fin aw) as HAw.
  { rewrite Evc. exact EAw. }
  assert ((SurroundParameters.c (ViewingConditions.surround vc)
           * ViewingConditions.z vc)%num
          = Fin (0.69 * (1.48 + sqrt (100 / 100.0)))) as Hcz.
  { rewrite Evc. cbn [ViewingConditions.surround ViewingConditions.z].
    rewrite Ez. reflexivity. }
  assert (aw <> 0) as Hne by lra.
  destruct (forward_white_lightness Hvc HAw Hne Hcz)
    as (r & Hr & HJ & _).
  exists vc, r. repeat split; assumption.
Defined.

(* ================================================================== *)
(** * The round trip *)
(* ================================================================== *)

Lemma quotient_negative (a b : R) : a < 0 -> 0 < b -> a / b < 0.
Proof.
  intros Ha Hb. unfold Rdiv.
  pose proof (Rinv_0_lt_compat b Hb). nra.
Qed.

(** The tristimulus value (0, 0, 100) has a negative achromatic response
    under D65 and the conditions built for La = 64 and Yb = 100, so that
    its lightness, a non-integer power of a negative ratio, is [NaN]. *)
Lemma blue_primary_lightness_NaN vc :
  makeViewingConditions #64 #100 D65_WHITE_POINT None = Success vc ->
  Fwd.J (forward_locals (XYZ.mk #0 #0 #100) D65_WHITE_POINT vc) = NaN.
Proof.
  intros Hvc. apply makeViewingConditions_result in Hvc. cbv zeta in Hvc.
  assert (0 < 100) as Hyb by lra.
  destruct (makeViewingConditions_D65_64 average Hyb)
    as (d & aw & ED & Hd & EFl & En & ENbb & Ez & EAw & Haw).
  assert (ViewingConditions.D vc = Fin d) as HD by (rewrite Hvc; exact ED).
  assert (ViewingConditions.Fl vc = Fin Fl_64) as HFl
    by (rewrite Hvc; exact EFl).
  assert (ViewingConditions.Nbb vc = Fin (0.725 * Rpower (100 / 100.0) (-0.2)))
    as HNbb by (rewrite Hvc; exact ENbb).
  assert (ViewingConditions.Aw vc = Fin aw) as HAw by (rewrite Hvc; exact EAw).
  assert ((SurroundParameters.c (ViewingConditions.surround vc)
           * ViewingConditions.z vc)%num = Fin (0.69 * (1.48 + 1))) as Hcz.
  { rewrite Hvc. cbn [ViewingConditions.surround ViewingConditions.z].
    rewrite Ez. replace (100 / 100.0) with 1 by lra. rewrite sqrt_1.
    reflexivity. }
  clear Hvc ED EFl En ENbb Ez EAw.
  set (v := forward_locals (XYZ.mk #0 #0 #100) D65_WHITE_POINT vc).
  pose proof (forward_rgbHpe_D65 0 0 100 vc HD) as EH. fold v in EH.
  cbv zeta in EH.
  set (R' := hpe0 _ _ _) in EH. set (G' := hpe1 _ _ _) in EH.
  set (B' := hpe2 _ _ _) in EH.
  assert (-8.9 <= R' <= -7.8 /\ 3.6 <= G' <= 4.7 /\ 91 <= B' <= 100.1)
    as (HR & HG & HB).
  { unfold R', G', B', hpe0, hpe1, hpe2, adapt. repeat split; lra. }
  pose proof Fl_64_bounds as HFlb.
  assert (Fwd.Ra v = Fin (compress Fl_64 R')) as ERa.
  { unfold v. rewrite Fwd_Ra_eq. fold v. rewrite EH, HFl.
    apply nonlinearAdaptation_fin; lra. }
  assert (Fwd.Ga v = Fin (compress Fl_64 G')) as EGa.
  { unfold v. rewrite Fwd_Ga_eq. fold v. rewrite EH, HFl.
    apply nonlinearAdaptation_fin; lra. }
  assert (Fwd.Ba v = Fin (compress Fl_64 B')) as EBa.
  { unfold v. rewrite Fwd_Ba_eq. fold v. rewrite EH, HFl.
    apply nonlinearAdaptation_fin; lra. }
  (* the three compressed responses *)
  rewrite compress_neg in ERa by lra.
  rewrite compress_pos in EGa by lra. rewrite compress_pos in EBa by lra.
  set (PR := Rpower (Fl_64 * - R' / 100) 0.42) in ERa.
  set (PG := Rpower (Fl_64 * G' / 100) 0.42) in EGa.
  set (PB := Rpower (Fl_64 * B' / 100) 0.42) in EBa.
  assert (0.22 <= PR) as HPR.
  { assert (0.0484 <= Fl_64 * - R' / 100 <= 1) as Hx by nra.
    apply Rle_trans with (sqrt (Fl_64 * - R' / 100)).
    - replace 0.22 with (sqrt (0.22 * 0.22)) by (apply sqrt_square; lra).
      apply sqrt_le_1; lra.
    - apply Rpower_ge_sqrt. lra. }
  assert (0 < PG <= PR) as HPG.
  { split; [apply Rpower_pos|]. apply Rle_Rpower_l; [lra|].
    split; [apply Rdiv_lt_0_compat; nra|]. nra. }
  assert (0 < PB <= 1) as HPB.
  { split; [apply Rpower_pos|].
    rewrite <- (Rpower_1_l 0.42). apply Rle_Rpower_l; [lra|].
    split; [apply Rdiv_lt_0_compat; nra|]. nra. }
  assert (400 * 0.22 / (0.22 + 27.13) <= 400 * PR / (PR + 27.13)) as FR
    by (apply compression_ratio_mono; lra).
  assert (400 * PG / (PG + 27.13) <= 400 * PR / (PR + 27.13)) as FG
    by (apply compression_ratio_mono; lra).
  assert (400 * PB / (PB + 27.13) <= 400 * 1 / (1 + 27.13)) as FB
    by (apply compression_ratio_mono; lra).
  set (fR := 400 * PR / (PR + 27.13)) in *.
  set (fG := 400 * PG / (PG + 27.13)) in *.
  set (fB := 400 * PB / (PB + 27.13)) in *.
  pose proof (Rpower_pos (100 / 100.0) (-0.2)) as Hnbb.
  set (nbb := 0.725 * Rpower (100 / 100.0) (-0.2)) in *.
  assert (0 < nbb) as Hnbb' by (unfold nbb; lra).
  assert (Fwd.A v
          = Fin ((2 * (- fR + 0.1) + (fG + 0.1) + 1 / 20 * (fB + 0.1) - 0.305)
                 * nbb)) as EA.
  { unfold v. rewrite Fwd_A_eq. fold v. rewrite ERa, EGa, EBa, HNbb.
    rewrite ndiv_fin by lra. reflexivity. }
  unfold v. rewrite Fwd_J_eq. fold v. rewrite EA, HAw, Hcz.
  rewrite ndiv_fin by lra.
  rewrite Math_pow_neg_nonint; [reflexivity | |].
  - set (S := 2 * (- fR + 0.1) + (fG + 0.1) + 1 / 20 * (fB + 0.1) - 0.305).
    assert (S < 0) as HS by (unfold S; lra).
    assert (0 < - S * nbb) as HSn by (apply Rmult_lt_0_compat; lra).
    apply quotient_negative; [lra | assumption].
  - apply (@not_integer_between _ 1%Z). simpl. lra.
Qed.

(** A [NaN] lightness makes the recovered [t], and with it the whole
    result of [inverse], [NaN]. *)
Lemma inverse_NaN_lightness (C h : number) wp cond :
  inverse (JCh.mk NaN C h) wp cond = Success (XYZ.mk NaN NaN NaN).
Proof.
  rewrite inverse_success.
  rewrite inverse_locals_t_NaN; [reflexivity|].
  rewrite Inv_t_eq. cbn [JCh.J JCh.C]. nsimpl.
  rewrite Math_pow_NaN by lra. nsimpl.
  apply Math_pow_NaN. lra.
Qed.

(** The inverse compression undoes the compression. *)
Lemma compression_round_trip (r fl : R) :
  0 < fl ->
  inverseNonlinearAdaptation (nonlinearAdaptation (Fin r) (Fin fl)) (Fin fl)
  = Fin r.
Proof.
  intros Hfl. destruct (Req_dec r 0) as [-> | Hr].
  - rewrite nonlinearAdaptation_zero.
    unfold inverseNonlinearAdaptation, POST_ADAPTATION_OFFSET,
      CONE_RESPONSE_OFFSET, CONE_RESPONSE_SCALE, CONE_RESPONSE_EXPONENT.
    cbn [nsub nneg nadd]. replace (0.1 + - (0.1)) with 0 by lra.
    cbn [nge Math_abs nmul nsub nneg nadd]. rewrite Rabs_R0.
    rewrite Rleb_true by lra. rewrite !ndiv_fin by lra.
    replace (27.13 * 0 / (400 + - 0)) with 0 by (field; lra).
    rewrite Math_pow_zero by lra. cbn [nmul]. f_equal. ring.
  - rewrite nonlinearAdaptation_fin by assumption.
    set (x := fl * Rabs r / 100).
    assert (0 < x) as Hx.
    { apply Rdiv_lt_0_compat; [|lra].
      apply Rmult_lt_0_compat; [assumption | now apply Rabs_pos_lt]. }
    pose proof (Rpower_pos x 0.42) as HP.
    assert (Rpower (Rpower x 0.42) (1 / 0.42) = x) as Hback.
    { rewrite Rpower_mult. replace (0.42 * (1 / 0.42)) with 1 by (field; lra).
      now apply Rpower_1. }
    unfold compress. fold x. set (P := Rpower x 0.42) in *.
    unfold inverseNonlinearAdaptation, POST_ADAPTATION_OFFSET,
      CONE_RESPONSE_OFFSET, CONE_RESPONSE_SCALE, CONE_RESPONSE_EXPONENT.
    cbn [nsub nneg nadd nge Math_abs nmul].
    assert (0 < 400 * P / (P + 27.13) < 400) as HF.
    { split.
      - apply Rdiv_lt_0_compat; lra.
      - apply Rmult_lt_reg_r with (P + 27.13); [lra|].
        unfold Rdiv. rewrite Rmult_assoc, Rinv_l, Rmult_1_r by lra. lra. }
    destruct (Rle_dec 0 r) as [Hpos | Hneg].
    + replace (1 * (400 * P) / (P + 27.13) + 0.1 + - (0.1))
        with (400 * P / (P + 27.13)) by (field; lra).
      rewrite Rleb_true by lra. rewrite Rabs_pos_eq by lra.
      rewrite !ndiv_fin by lra.
      replace (27.13 * (400 * P / (P + 27.13))
               / (400 + - (400 * P / (P + 27.13)))) with P by (field; lra).
      rewrite Math_pow_pos by assumption. fold P. rewrite Hback.
      cbn [nmul]. f_equal. unfold x. rewrite Rabs_pos_eq by lra.
      field. lra.
    + replace (-1 * (400 * P) / (P + 27.13) + 0.1 + - (0.1))
        with (- (400 * P / (P + 27.13))) by (field; lra).
      rewrite Rleb_false by lra. rewrite Rabs_left by lra.
      rewrite !ndiv_fin by lra.
      replace (27.13 * - - (400 * P / (P + 27.13))
               / (400 + - - - (400 * P / (P + 27.13)))) with P
        by (field; lra).
      rewrite Math_pow_pos by assumption. fold P. rewrite Hback.
      cbn [nmul]. f_equal. unfold x. rewrite Rabs_left by lra.
      field. lra.
Qed.

(** [inverse] recovers a positive achromatic response from the lightness
    that [forward] derived from it. *)
Lemma achromatic_response_round_trip xyz wp cond (a aw cz : R) :
  Fwd.A (forward_locals xyz wp cond) = Fin a ->
  ViewingConditions.Aw cond = Fin aw ->
  0 < a -> 0 < aw ->
  (SurroundParameters.c (ViewingConditions.surround cond)
   * ViewingConditions.z cond)%num = Fin cz ->
  cz <> 0 ->
  forall C h,
    Inv.A (inverse_locals
             (JCh.mk (Fwd.J (forward_locals xyz wp cond)) C h) wp cond)
    = Fin a.
Proof.
  intros EA HAw Ha Haw Hcz Hne C h.
  assert (0 < a / aw) as Hratio by (apply Rdiv_lt_0_compat; assumption).
  rewrite Inv_A_eq. cbn [JCh.J]. rewrite Fwd_J_eq, EA, HAw, Hcz.
  rewrite ndiv_fin by lra. rewrite Math_pow_pos by assumption.
  cbn [nmul]. rewrite !ndiv_fin by lra.
  replace (100 * Rpower (a / aw) cz / 100) with (Rpower (a / aw) cz)
    by (field; lra).
  rewrite Math_pow_pos by apply Rpower_pos.
  rewrite Rpower_mult. replace (cz * (1 / cz)) with 1 by (field; assumption).
  rewrite Rpower_1 by assumption. cbn [nmul]. f_equal. field. lra.
Qed.

(** X30. The tristimulus value (0, 0, 100) has its components in
    [0, 100]. Under D65 and the conditions built for La = 64 and Yb = 100,
    [forward] returns J = NaN for it, and inverse(forward(xyz)) is
    (NaN, NaN, NaN), whose X component is not within 0.1 of 0. *)
Lemma round_trip_fails_on_blue_primary :
  exists vc r xyz',
    makeViewingConditions #64 #100 D65_WHITE_POINT None = Success vc /\
    forward (XYZ.mk #0 #0 #100) D65_WHITE_POINT vc = Success r /\
    AppearanceCorrelates.J r = NaN /\
    inverse (JCh.mk (AppearanceCorrelates.J r) (AppearanceCorrelates.C r)
                    (AppearanceCorrelates.h r)) D65_WHITE_POINT vc
    = Success xyz' /\
    xyz' = XYZ.mk NaN NaN NaN /\
    ~ within 0.1 (XYZ.X xyz') 0.
Proof.
  pose proof (makeViewingConditions_success #64 #100 D65_WHITE_POINT None)
    as Hvc.
  cbv zeta in Hvc.
  set (vc := ViewingConditions.mk _ _ _ _ _ _ _ _ _ _ _ _) in Hvc.
  exists vc. eexists. exists (XYZ.mk NaN NaN NaN).
  split; [exact Hvc|]. split; [apply forward_success|].
  cbv zeta. cbn [AppearanceCorrelates.J].
  rewrite (blue_primary_lightness_NaN Hvc).
  split; [reflexivity|]. split; [apply inverse_NaN_lightness|].
  split; [reflexivity|]. cbn [XYZ.X within]. tauto.
Qed.

(* ================================================================== *)
(** * A value of the eccentricity factor *)
(* ================================================================== *)

Lemma eccentricityFactor_90 : eccentricityFactor #90 = Fin (100 / 74.25).
Proof.
  ecc_eval.
  replace (90 + - (90.00)) with 0 by lra.
  replace (164.25 + - (90)) with 74.25 by lra.
  replace (0 / 0.7 + 74.25 / 1.0) with 74.25 by lra.
  replace (1.0 * 0 / 100 + 0.7 * 74.25 / 100) with 0.51975 by lra.
  f_equal. lra.
Qed.

(* ================================================================== *)
(** * Chroma of the white point under a dark surround *)
(* ================================================================== *)

(** Bernoulli's inequality for a real exponent in [0, 1]. *)
Lemma Rpower_le_linear (x alpha : R) :
  0 < x -> 0 <= alpha <= 1 -> Rpower x alpha <= 1 + alpha * (x - 1).
Proof.
  intros Hx [Ha0 Ha1]. unfold Rpower. set (s := ln x).
  assert (x = exp s) as Ex by (unfold s; now rewrite exp_ln).
  rewrite Ex at 1.
  pose proof (exp_ineq1_le (- (alpha * s))) as H1.
  pose proof (exp_ineq1_le ((1 - alpha) * s)) as H2.
  pose proof (exp_pos (alpha * s)) as Hpos.
  assert (exp (- (alpha * s)) * exp (alpha * s) = 1) as E1.
  { rewrite <- exp_plus. replace (- (alpha * s) + alpha * s) with 0 by ring.
    apply exp_0. }
  assert (exp ((1 - alpha) * s) * exp (alpha * s) = exp s) as E2.
  { rewrite <- exp_plus. f_equal. ring. }
  set (u := exp (alpha * s)) in *. set (p := exp (- (alpha * s))) in *.
  set (q := exp ((1 - alpha) * s)) in *. set (y := exp s) in *.
  assert (1 <= (1 - alpha) * p + alpha * q) as Hmix.
  { assert ((1 - alpha) * (1 + - (alpha * s)) <= (1 - alpha) * p)
      by (apply Rmult_le_compat_l; lra).
    assert (alpha * (1 + (1 - alpha) * s) <= alpha * q)
      by (apply Rmult_le_compat_l; lra).
    lra. }
  assert (u * 1 <= u * ((1 - alpha) * p + alpha * q)) as Hu
    by (apply Rmult_le_compat_l; lra).
  replace (u * ((1 - alpha) * p + alpha * q))
    with ((1 - alpha) * (p * u) + alpha * (q * u)) in Hu by ring.
  rewrite E1, E2 in Hu. lra.
Qed.

Lemma Rpower_ge_linear (x alpha : R) :
  0 < x -> 0 <= alpha -> 1 + alpha * (1 - 1 / x) <= Rpower x alpha.
Proof.
  intros Hx Ha. unfold Rpower.
  pose proof (exp_ineq1_le (alpha * ln x)) as H1.
  pose proof (exp_ineq1_le (- ln x)) as H2.
  rewrite exp_Ropp, exp_ln in H2 by assumption.
  assert (alpha * (1 - 1 / x) <= alpha * ln x)
    by (apply Rmult_le_compat_l; lra).
  lra.
Qed.

(** The compression on the range of the adapted D65 white for La = 64:
    its values and the slope of its increments. *)
Lemma compress_white_range (fl r r' : R) :
  0.6799 <= fl <= 0.6901 ->
  98.8 <= r -> r <= r' -> r' <= 103.8 ->
  0.1 < compress fl r <= 12.69 /\
  0.0458 * (r' - r) <= compress fl r' - compress fl r <= 0.0521 * (r' - r).
Proof.
  intros Hfl Hr Hrr' Hr'.
  rewrite !compress_pos by lra.
  set (x := fl * r / 100). set (x' := fl * r' / 100).
  assert (0.6717 <= x /\ x <= x' /\ x' <= 0.7164) as (Hx & Hxx' & Hx').
  { unfold x, x'. repeat split; nra. }
  set (P := Rpower x 0.42). set (P' := Rpower x' 0.42).
  assert (0.819 <= P) as HP.
  { apply Rle_trans with (sqrt x).
    - replace 0.819 with (sqrt (0.819 * 0.819)) by (apply sqrt_square; lra).
      apply sqrt_le_1; lra.
    - apply Rpower_ge_sqrt. lra. }
  assert (P' <= 0.881) as HP'.
  { apply Rle_trans with (1 + 0.42 * (x' - 1)).
    - apply Rpower_le_linear; lra.
    - lra. }
  assert (P <= P') as HPP' by (apply Rle_Rpower_l; lra).
  (* the increment of the power *)
  set (rho := r' / r).
  assert (1 <= rho) as Hrho.
  { unfold rho. apply Rmult_le_reg_r with r; [lra|].
    unfold Rdiv. rewrite Rmult_assoc, Rinv_l, Rmult_1_r by lra. lra. }
  assert (P' = P * Rpower rho 0.42) as EP'.
  { unfold P, P'. rewrite Rpower_mult_distr.
    - f_equal. unfold x, x', rho. field. lra.
    - lra.
    - lra. }
  assert (1 - 1 / rho = (r' - r) / r') as Elo by (unfold rho; field; lra).
  assert (rho - 1 = (r' - r) / r) as Ehi by (unfold rho; field; lra).
  pose proof (@Rpower_ge_linear rho 0.42) as Hlo.
  pose proof (@Rpower_le_linear rho 0.42) as Hhi.
  rewrite Elo in Hlo. rewrite Ehi in Hhi.
  assert (0 <= r' - r) as Hdelta by lra.
  set (delta := r' - r) in *.
  assert (delta / 103.8 <= delta / r') as Hq1.
  { unfold Rdiv. apply Rmult_le_compat_l; [assumption|].
    apply Rinv_le_contravar; lra. }
  assert (delta / r <= delta / 98.8) as Hq2.
  { unfold Rdiv. apply Rmult_le_compat_l; [assumption|].
    apply Rinv_le_contravar; lra. }
  assert (0 <= delta / 103.8) as Hq0 by lra.
  set (g := Rpower rho 0.42) in *.
  assert (0.003313 * delta <= P' - P <= 0.003746 * delta) as HD.
  { rewrite EP'. split.
    - assert (0.819 * (0.42 * (delta / 103.8)) <= P * (g - 1)).
      { apply Rmult_le_compat; lra. }
      lra.
    - assert (P * (g - 1) <= 0.881 * (0.42 * (delta / 98.8))).
      { apply Rmult_le_compat; lra. }
      lra. }
  assert (781.14 <= (P' + 27.13) * (P + 27.13) <= 784.62) as HB by nra.
  assert (400 * P' / (P' + 27.13) - 400 * P / (P + 27.13)
          = 10852 * (P' - P) / ((P' + 27.13) * (P + 27.13))) as Ediff
    by (replace 27.13 with (2713 / 100) by lra; field; lra).
  split.
  - split.
    + assert (0 < 400 * P / (P + 27.13)) by (apply Rdiv_lt_0_compat; lra).
      lra.
    + assert (400 * P / (P + 27.13) <= 400 * 0.881 / (0.881 + 27.13))
        by (apply compression_ratio_mono; lra).
      lra.
  - replace (400 * P' / (P' + 27.13) + 0.1 - (400 * P / (P + 27.13) + 0.1))
      with (10852 * (P' - P) / ((P' + 27.13) * (P + 27.13)))
      by (rewrite <- Ediff; ring).
    set (B := (P' + 27.13) * (P + 27.13)) in *.
    set (D := P' - P) in *.
    split.
    + apply Rmult_le_reg_r with B; [lra|].
      unfold Rdiv. rewrite (Rmult_assoc _ (/ B)), Rinv_l, Rmult_1_r by lra.
      nra.
    + apply Rmult_le_reg_r with B; [lra|].
      unfold Rdiv. rewrite (Rmult_assoc _ (/ B)), Rinv_l, Rmult_1_r by lra.
      nra.
Qed.

(** A lower bound of the interpolated eccentricity on one segment. *)
Lemma interpolation_lower_bound (Hi t den num D Dmax : R) :
  0 <= Hi -> 0 <= t -> 0 < den -> 0 < num -> 0 < D <= Dmax ->
  Hi / 100 * (num / Dmax) <= (Hi + 100 * t / den) / 100 * (num / D).
Proof.
  intros HHi Ht Hden Hnum [HD HDmax].
  assert (0 <= 100 * t / den) as Hq.
  { apply Rmult_le_pos; [lra | apply Rlt_le, Rinv_0_lt_compat; lra]. }
  assert (num / Dmax <= num / D) as Hfrac.
  { unfold Rdiv. apply Rmult_le_compat_l; [lra|].
    apply Rinv_le_contravar; lra. }
  assert (0 < num / Dmax) as Hpos.
  { apply Rdiv_lt_0_compat; lra. }
  apply Rmult_le_compat; lra.
Qed.

(** On hues of the third quadrant the computed eccentricity factor is at
    least 1.68. *)
Lemma eccentricityFactor_third_quadrant (h : R) :
  180 < h < 270 ->
  exists e, eccentricityFactor (Fin h) = Fin e /\ 1.68 <= e.
Proof.
  intros Hh.
  destruct (Rle_dec 237.53 h) as [H3|H3].
  - ecc_eval. eexists. split; [reflexivity|].
    apply Rle_trans with (300.0 / 100 * (0.8 * 1.2 / 1.71132)); [lra|].
    apply interpolation_lower_bound; lra.
  - ecc_eval. eexists. split; [reflexivity|].
    apply Rle_trans with (200.0 / 100 * (1.2 * 1.0 / 0.87936)); [lra|].
    apply interpolation_lower_bound; lra.
Qed.

(** The hue angle of a point of the open third quadrant. *)
Lemma hue_third_quadrant (a b : R) :
  a < 0 -> b < 0 ->
  exists h,
    (let h := (Math_atan2 (Fin b) (Fin a) * RAD_TO_DEG)%num in
     if (h <? #0)%num then (h + #360)%num else h) = Fin h /\
    180 < h < 270.
Proof.
  intros Ha Hb.
  assert (0 < b / a) as Hq.
  { replace (b / a) with ((- b) / (- a)) by (field; lra).
    apply Rdiv_lt_0_compat; lra. }
  pose proof (atan_bound (b / a)) as [_ Hup].
  assert (0 < atan (b / a)) as Hlo.
  { rewrite <- atan_0. apply atan_increasing. exact Hq. }
  pose proof PI_RGT_0 as Hpi.
  unfold Math_atan2, RAD_TO_DEG, Math_PI. rcompare.
  rewrite ndiv_fin by lra. cbn [nmul].
  set (x := atan (b / a)) in *.
  assert ((x - PI) * (180 / PI) = 180 * (x / PI) - 180) as E
    by (field; lra).
  assert (0 < x / PI < 1 / 2) as Hu.
  { split.
    - apply Rdiv_lt_0_compat; lra.
    - apply Rmult_lt_reg_r with PI; [lra|].
      unfold Rdiv at 1. rewrite Rmult_assoc, Rinv_l, Rmult_1_r by lra. lra. }
  cbv zeta. cbn [nlt]. rewrite Rltb_true by lra. cbn [nadd].
  eexists. split; [reflexivity|]. lra.
Qed.

(** The degree of adaptation of the dark surround for La = 64: the clamp
    leaves F (1 - e^(-106/92) / 3.6) as it is, between 0.5777 and 0.8. *)
Lemma makeViewingConditions_dark_D (yb : R) :
  0 < yb ->
  exists d,
    Mvc.Dclamp (makeViewingConditions_locals #64 (Fin yb) D65_WHITE_POINT dark)
    = Fin d /\ 0.5777 <= d <= 0.8.
Proof.
  intros Hyb. assert (0 < 100.0) as Hy by lra.
  destruct (makeViewingConditions_locals_scalars 64 #95.047 #108.883 dark Hyb Hy)
    as (_ & _ & _ & _ & f & Ef & ED).
  change (XYZ.mk #95.047 #100.0 #108.883) with D65_WHITE_POINT in ED.
  assert (f = 0.8) as -> by (cbn in Ef; congruence).
  eexists. split; [exact ED|].
  set (E := exp _).
  assert (0 < E < 1) as HE.
  { unfold E. split; [apply exp_pos|].
    rewrite <- exp_0. apply exp_increasing. lra. }
  clearbody E.
  rewrite Rmin_right by lra. rewrite Rmax_right by lra. lra.
Qed.

(** The compressed responses of the D65 white point under conditions of
    La = 64 whose degree of adaptation lies in [0.5777, 0.8]: they increase
    from R to B, and the red-green opponent signal is at most -0.0312. *)
Lemma forward_white_D65_responses (d : R) conditions :
  ViewingConditions.D conditions = Fin d ->
  ViewingConditions.Fl conditions = Fin Fl_64 ->
  0.5777 <= d <= 0.8 ->
  let fw := forward_locals D65_WHITE_POINT D65_WHITE_POINT conditions in
  exists ra ga ba,
    Fwd.Ra fw = Fin ra /\ Fwd.Ga fw = Fin ga /\ Fwd.Ba fw = Fin ba /\
    0.1 < ra /\ ra < ga /\ ga <= ba /\ ba <= 12.69 /\
    ra - 12 * ga / 11 + ba / 11 <= -0.0312.
Proof.
  intros HD HFl Hd fw.
  pose proof (@forward_rgbHpe_D65 95.047 100.0 108.883 d conditions HD) as EH.
  change (XYZ.mk #95.047 #100.0 #108.883) with D65_WHITE_POINT in EH.
  fold fw in EH. cbv zeta in EH.
  set (h0 := hpe0 _ _ _) in EH. set (h1 := hpe1 _ _ _) in EH.
  set (h2 := hpe2 _ _ _) in EH.
  assert (98.8 <= h0 /\ h0 < h1 /\ h1 <= h2 /\ h2 <= 103.8 /\
          - 0.0458 * (h1 - h0) + 0.0521 * (h2 - h1) / 11 <= -0.0312)
    as (B0 & B01 & B12 & B2 & Ba).
  { unfold h0, h1, h2, hpe0, hpe1, hpe2, adapt. repeat split; lra. }
  clearbody h0 h1 h2.
  pose proof Fl_64_bounds as HFlb.
  assert (h0 <= h1) as B01' by lra.
  assert (h1 <= 103.8) as B1u by lra.
  assert (98.8 <= h1) as B1l by lra.
  destruct (compress_white_range HFlb B0 B01' B1u) as ((P0 & _) & D01l & _).
  destruct (compress_white_range HFlb B1l B12 B2) as (_ & D12l & D12u).
  assert (98.8 <= h2) as B2l by lra. assert (h2 <= h2) as B22 by lra.
  destruct (compress_white_range HFlb B2l B22 B2) as ((_ & P2) & _).
  exists (compress Fl_64 h0), (compress Fl_64 h1), (compress Fl_64 h2).
  split; [|split; [|split]].
  - unfold fw. rewrite Fwd_Ra_eq. fold fw. rewrite EH, HFl.
    apply nonlinearAdaptation_fin; lra.
  - unfold fw. rewrite Fwd_Ga_eq. fold fw. rewrite EH, HFl.
    apply nonlinearAdaptation_fin; lra.
  - unfold fw. rewrite Fwd_Ba_eq. fold fw. rewrite EH, HFl.
    apply nonlinearAdaptation_fin; lra.
  - repeat split; lra.
Qed.

(** t^0.9 is at least t / (0.9 + 0.1 t); from t = 3 on it is at least 2.5. *)
Lemma Rpower_nine_tenths (t : R) : 3 <= t -> 2.5 <= Rpower t 0.9.
Proof.
  intros Ht.
  assert (Rpower t 0.9 * Rpower t 0.1 = t) as E.
  { rewrite <- Rpower_plus. replace (0.9 + 0.1) with 1 by lra.
    apply Rpower_1. lra. }
  assert (Rpower t 0.1 <= 1 + 0.1 * (t - 1)) as Hle
    by (apply Rpower_le_linear; lra).
  pose proof (Rpower_pos t 0.9) as P9. pose proof (Rpower_pos t 0.1) as P1.
  nra.
Qed.

(** Screen viewing (La = 64) on a white background (Yb = 100) in a dark
    surround: the D65 white point seen under these conditions gets the
    lightness 100 and a chroma of at least 3. *)
Lemma forward_white_chroma_not_below_three :
  exists vc r,
    makeViewingConditions #64 #100 D65_WHITE_POINT (Some dark) = Success vc /\
    forward D65_WHITE_POINT D65_WHITE_POINT vc = Success r /\
    AppearanceCorrelates.J r = Fin 100 /\
    exists c, AppearanceCorrelates.C r = Fin c /\ 3 <= c.
Proof.
  assert (0 < 100) as Hyb by lra.
  destruct (makeViewingConditions_D65_64 dark Hyb)
    as (d & aw & ED & _ & EFl & En & ENbb & Ez & EAw & Haw).
  destruct (makeViewingConditions_dark_D Hyb) as (d' & ED' & Hd).
  rewrite ED in ED'. injection ED' as <-.
  pose proof (makeViewingConditions_success #64 #100 D65_WHITE_POINT (Some dark))
    as Hvc.
  cbv zeta in Hvc.
  set (vc := ViewingConditions.mk _ _ _ _ _ _ _ _ _ _ _ _) in Hvc.
  assert (vc = vc) as Evc by reflexivity. unfold vc at 2 in Evc.
  assert (ViewingConditions.D vc = Fin d) as HD by (rewrite Evc; exact ED).
  assert (ViewingConditions.Fl vc = Fin Fl_64) as HFl
    by (rewrite Evc; exact EFl).
  assert (ViewingConditions.Aw vc = Fin aw) as HAw by (rewrite Evc; exact EAw).
  assert (ViewingConditions.n vc = Fin 1) as Hn.
  { rewrite Evc. cbn [ViewingConditions.n]. rewrite En. f_equal. lra. }
  assert (ViewingConditions.Ncb vc = Fin 0.725) as HNcb.
  { rewrite Evc. cbn [ViewingConditions.Ncb].
    change (Mvc.Ncb ?v) with (Mvc.Nbb v). rewrite ENbb. f_equal.
    replace (100 / 100.0) with 1 by lra. rewrite Rpower_1_l. lra. }
  assert (ViewingConditions.z vc = Fin 2.48) as Hz.
  { rewrite Evc. cbn [ViewingConditions.z]. rewrite Ez. f_equal.
    replace (100 / 100.0) with 1 by lra. rewrite sqrt_1. lra. }
  assert (ViewingConditions.surround vc = SURROUND_DARK) as Hs
    by (rewrite Evc; reflexivity).
  set (fw := forward_locals D65_WHITE_POINT D65_WHITE_POINT vc).
  destruct (@forward_white_D65_responses d vc HD HFl Hd)
    as (ra & ga & ba & ERa & EGa & EBa & Hra & Hrg & Hgb & Hba & Ha).
  fold fw in ERa, EGa, EBa.
  (* lightness *)
  assert (Fwd.J fw = Fin 100) as EJ.
  { unfold fw. rewrite Fwd_J_eq, (forward_white_achromatic_response Hvc).
    rewrite HAw, Hs, Hz. cbn [SURROUND_DARK SurroundParameters.c nmul].
    rewrite ndiv_fin by lra.
    replace (aw / aw) with 1 by (field; lra).
    rewrite Math_pow_pos by lra. rewrite Rpower_1_l. cbn [nmul].
    f_equal. lra. }
  (* opponent signals and hue *)
  set (a := ra - 12 * ga / 11 + ba / 11) in *.
  set (b := (ra + ga - 2 * ba) / 9).
  assert (b < 0) as Hb by (unfold b; lra).
  assert (Fwd.a fw = Fin a) as Ea.
  { unfold fw. rewrite Fwd_a_eq. fold fw. rewrite ERa, EGa, EBa.
    cbn [nmul nsub nadd nneg]. rewrite !ndiv_fin by lra.
    cbn [nmul nsub nadd nneg]. f_equal; unfold a; lra. }
  assert (Fwd.b fw = Fin b) as Eb.
  { unfold fw. rewrite Fwd_b_eq. fold fw. rewrite ERa, EGa, EBa.
    cbn [nmul nsub nadd nneg]. rewrite !ndiv_fin by lra.
    f_equal; unfold b; lra. }
  assert (a < 0) as Ha0 by lra.
  destruct (hue_third_quadrant Ha0 Hb) as (h & Eh & Hh).
  assert (Fwd.h fw = Fin h) as Eh'.
  { unfold fw. rewrite Fwd_h_eq. fold fw. rewrite Ea, Eb. exact Eh. }
  destruct (eccentricityFactor_third_quadrant Hh) as (e & Ee & He).
  assert (Fwd.et fw = Fin e) as Eet.
  { unfold fw. rewrite Fwd_et_eq. fold fw. rewrite Eh'. exact Ee. }
  (* the chroma *)
  set (den := ra + ga + 21 * ba / 20).
  assert (0 < den <= 38.7045) as Hden by (unfold den; lra).
  set (t := 50000 / 13 * 0.8 * 0.725 * e * sqrt (a * a + b * b) / den).
  assert (Fwd.t fw = Fin t) as Et.
  { unfold fw. rewrite Fwd_t_eq. fold fw.
    rewrite Hs, HNcb, Eet, Ea, Eb, ERa, EGa, EBa.
    cbn [SURROUND_DARK SurroundParameters.Nc nmul nadd].
    rewrite (@ndiv_fin 50000 13) by lra.
    rewrite (@ndiv_fin (21 * ba) 20) by lra.
    assert (0 <= a * a + b * b) as Hsq by nra.
    rewrite Math_sqrt_fin by exact Hsq.
    cbn [nmul nadd]. rewrite ndiv_fin by (fold den; lra).
    reflexivity. }
  assert (3 <= t) as Ht.
  { assert (- a <= sqrt (a * a + b * b)) as Hs'.
    { rewrite <- (sqrt_square (- a)) at 1 by lra.
      apply sqrt_le_1; nra. }
    assert (116.9 <= 50000 / 13 * 0.8 * 0.725 * e * sqrt (a * a + b * b))
      as Hnum by nra.
    assert (t * den = 50000 / 13 * 0.8 * 0.725 * e * sqrt (a * a + b * b))
      as Etd by (unfold t; field; lra).
    destruct (Rle_lt_dec 3 t) as [Hge | Hlt]; [exact Hge|].
    assert (t * den < 3 * den) by (apply Rmult_lt_compat_r; lra).
    lra. }
  assert (Fwd.C fw = Fin (Rpower t 0.9 * 1 * (1.64 - 0.29))) as EC.
  { unfold fw. rewrite Fwd_C_eq. fold fw. rewrite Et, EJ, Hn.
    rewrite ndiv_fin by lra. rewrite !Math_pow_pos by lra.
    replace (100 / 100) with 1 by lra.
    rewrite Rpower_1_l, Rpower_1 by lra. reflexivity. }
  exists vc. eexists. split; [exact Hvc|]. split; [apply forward_success|].
  cbv zeta. cbn [AppearanceCorrelates.J AppearanceCorrelates.C].
  fold fw. split; [exact EJ|].
  eexists. split; [exact EC|].
  pose proof (Rpower_nine_tenths Ht). lra.
Qed.

(* ================================================================== *)
(** * Chroma of the white point under the default surround *)
(* ================================================================== *)

(** A lower bound of the interpolated eccentricity on one segment that
    keeps a share [q] of the hue quadrature term. *)
Lemma interpolation_lower_bound_share (Hi t den num D Dmax q : R) :
  0 <= Hi -> 0 <= q -> q * den <= t -> 0 < den -> 0 < num -> 0 < D <= Dmax ->
  (Hi + 100 * q) / 100 * (num / Dmax) <= (Hi + 100 * t / den) / 100 * (num / D).
Proof.
  intros HHi Hq Hqt Hden Hnum [HD HDmax].
  assert (q <= t / den) as Hq'.
  { apply Rmult_le_reg_r with den; [exact Hden|].
    unfold Rdiv. rewrite Rmult_assoc, Rinv_l, Rmult_1_r by lra. exact Hqt. }
  assert (100 * t / den = 100 * (t / den)) as E by (field; lra).
  rewrite E.
  assert (num / Dmax <= num / D) as Hfrac.
  { unfold Rdiv. apply Rmult_le_compat_l; [lra|].
    apply Rinv_le_contravar; lra. }
  assert (0 < num / Dmax) as Hpos by (apply Rdiv_lt_0_compat; lra).
  apply Rmult_le_compat; lra.
Qed.

(** On hues between 180 and 225 degrees the computed eccentricity factor is
    at least 3.15. *)
Lemma eccentricityFactor_third_octant (h : R) :
  180 < h <= 225 ->
  exists e, eccentricityFactor (Fin h) = Fin e /\ 3.15 <= e.
Proof.
  intros Hh. ecc_eval. eexists. split; [reflexivity|].
  apply Rle_trans with ((200.0 + 100 * 0.247) / 100 * (1.2 * 1.0 / 0.8543));
    [lra|].
  apply interpolation_lower_bound_share; lra.
Qed.

(** The hue angle of a point of the third quadrant below the diagonal. *)
Lemma hue_third_octant (a b : R) :
  a < 0 -> b < 0 -> a <= b ->
  exists h,
    (let h := (Math_atan2 (Fin b) (Fin a) * RAD_TO_DEG)%num in
     if (h <? #0)%num then (h + #360)%num else h) = Fin h /\
    180 < h <= 225.
Proof.
  intros Ha Hb Hab.
  assert (0 < b / a <= 1) as Hq.
  { replace (b / a) with ((- b) / (- a)) by (field; lra). split.
    - apply Rdiv_lt_0_compat; lra.
    - apply Rmult_le_reg_r with (- a); [lra|].
      unfold Rdiv. rewrite Rmult_assoc, Rinv_l by lra. lra. }
  assert (0 < atan (b / a)) as Hlo.
  { rewrite <- atan_0. apply atan_increasing. apply Hq. }
  assert (atan (b / a) <= PI / 4) as Hup.
  { rewrite <- atan_1. destruct Hq as [_ [Hlt | ->]]; [|lra].
    apply Rlt_le, atan_increasing. exact Hlt. }
  pose proof PI_RGT_0 as Hpi.
  unfold Math_atan2, RAD_TO_DEG, Math_PI. rcompare.
  rewrite ndiv_fin by lra. cbn [nmul].
  set (x := atan (b / a)) in *.
  assert ((x - PI) * (180 / PI) = 180 * (x / PI) - 180) as E
    by (field; lra).
  assert (0 < x / PI <= 1 / 4) as Hu.
  { split.
    - apply Rdiv_lt_0_compat; lra.
    - apply Rmult_le_reg_r with PI; [lra|].
      unfold Rdiv at 1. rewrite Rmult_assoc, Rinv_l, Rmult_1_r by lra. lra. }
  cbv zeta. cbn [nlt]. rewrite Rltb_true by lra. cbn [nadd].
  eexists. split; [reflexivity|]. lra.
Qed.

(** The compressed responses of the D65 white point under conditions of
    La = 64 whose degree of adaptation is that of the average surround. *)
Lemma forward_white_D65_responses_average (d : R) conditions :
  ViewingConditions.D conditions = Fin d ->
  ViewingConditions.Fl conditions = Fin Fl_64 ->
  0.9083 <= d <= 0.9167 ->
  let fw := forward_locals D65_WHITE_POINT D65_WHITE_POINT conditions in
  exists ra ga ba,
    Fwd.Ra fw = Fin ra /\ Fwd.Ga fw = Fin ga /\ Fwd.Ba fw = Fin ba /\
    0.1 < ra /\ ra < ga /\ ga <= ba /\ ba <= 12.69 /\
    ra - 12 * ga / 11 + ba / 11 <= -0.013 /\
    (ra + ga - 2 * ba) / 9 <= -0.0079 /\
    ra - 12 * ga / 11 + ba / 11 <= (ra + ga - 2 * ba) / 9.
Proof.
  intros HD HFl Hd fw.
  pose proof (@forward_rgbHpe_D65 95.047 100.0 108.883 d conditions HD) as EH.
  change (XYZ.mk #95.047 #100.0 #108.883) with D65_WHITE_POINT in EH.
  fold fw in EH. cbv zeta in EH.
  set (h0 := hpe0 _ _ _) in EH. set (h1 := hpe1 _ _ _) in EH.
  set (h2 := hpe2 _ _ _) in EH.
  assert (98.8 <= h0 /\ h0 < h1 /\ h1 <= h2 /\ h2 <= 103.8 /\
          - 0.0458 * (h1 - h0) + 0.0521 * (h2 - h1) / 11 <= -0.013 /\
          (- 0.0458 * (h1 - h0) - 2 * (0.0458 * (h2 - h1))) / 9 <= -0.0079 /\
          31 * (0.0521 * (h2 - h1)) <= 88 * (0.0458 * (h1 - h0)))
    as (B0 & B01 & B12 & B2 & Ba & Bb & Bab).
  { unfold h0, h1, h2, hpe0, hpe1, hpe2, adapt. repeat split; lra. }
  clearbody h0 h1 h2.
  pose proof Fl_64_bounds as HFlb.
  assert (h0 <= h1) as B01' by lra.
  assert (h1 <= 103.8) as B1u by lra.
  assert (98.8 <= h1) as B1l by lra.
  destruct (compress_white_range HFlb B0 B01' B1u) as ((P0 & _) & D01l & D01u).
  destruct (compress_white_range HFlb B1l B12 B2) as (_ & D12l & D12u).
  assert (98.8 <= h2) as B2l by lra. assert (h2 <= h2) as B22 by lra.
  destruct (compress_white_range HFlb B2l B22 B2) as ((_ & P2) & _).
  exists (compress Fl_64 h0), (compress Fl_64 h1), (compress Fl_64 h2).
  split; [|split; [|split]].
  - unfold fw. rewrite Fwd_Ra_eq. fold fw. rewrite EH, HFl.
    apply nonlinearAdaptation_fin; lra.
  - unfold fw. rewrite Fwd_Ga_eq. fold fw. rewrite EH, HFl.
    apply nonlinearAdaptation_fin; lra.
  - unfold fw. rewrite Fwd_Ba_eq. fold fw. rewrite EH, HFl.
    apply nonlinearAdaptation_fin; lra.
  - repeat split; lra.
Qed.

(** C7, on the configuration of the repository's test: La = 64, Yb = 20,
    the D65 white point and the default surround. [forward] gives the white
    point the lightness J = 100 and a chroma C of at least 3, where C < 3
    is expected: the hue of the adapted white lies between 180 and 225
    degrees, where [eccentricityFactor] returns at least 3.15. *)
Theorem forward_white_chroma_at_least_three :
  exists vc r,
    makeViewingConditions #64 #20 D65_WHITE_POINT None = Success vc /\
    forward D65_WHITE_POINT D65_WHITE_POINT vc = Success r /\
    AppearanceCorrelates.J r = Fin 100 /\
    exists c, AppearanceCorrelates.C r = Fin c /\ 3 <= c.
Proof.
  assert (0 < 20) as Hyb by lra.
  destruct (makeViewingConditions_D65_64 average Hyb)
    as (d & aw & ED & _ & EFl & En & ENbb & Ez & EAw & Haw).
  destruct (makeViewingConditions_average_D Hyb) as (d' & ED' & Hd).
  rewrite ED in ED'. injection ED' as <-.
  pose proof (makeViewingConditions_success #64 #20 D65_WHITE_POINT None)
    as Hvc.
  cbv zeta in Hvc.
  set (vc := ViewingConditions.mk _ _ _ _ _ _ _ _ _ _ _ _) in Hvc.
  assert (vc = vc) as Evc by reflexivity. unfold vc at 2 in Evc.
  assert (ViewingConditions.D vc = Fin d) as HD by (rewrite Evc; exact ED).
  assert (ViewingConditions.Fl vc = Fin Fl_64) as HFl
    by (rewrite Evc; exact EFl).
  assert (ViewingConditions.Aw vc = Fin aw) as HAw by (rewrite Evc; exact EAw).
  assert (ViewingConditions.n vc = Fin (INR 1 / INR 5)) as Hn.
  { rewrite Evc. cbn [ViewingConditions.n]. rewrite En. f_equal. simpl. lra. }
  set (ncb := 0.725 * Rpower (20 / 100.0) (-0.2)) in *.
  assert (ViewingConditions.Ncb vc = Fin ncb) as HNcb.
  { rewrite Evc. cbn [ViewingConditions.Ncb].
    change (Mvc.Ncb ?v) with (Mvc.Nbb v). exact ENbb. }
  assert (0.99 <= ncb) as Hncb.
  { unfold ncb. replace (20 / 100.0) with (1 / 5) by lra.
    rewrite Rpower_inv_base by lra.
    replace (- -0.2) with (INR 1 / INR 5) by (simpl; lra).
    assert (1.37 <= Rpower 5 (INR 1 / INR 5))
      by (apply Rpower_ge_root; try lra; lia).
    lra. }
  assert (exists z, ViewingConditions.z vc = Fin z) as (z & Hz).
  { rewrite Evc. cbn [ViewingConditions.z]. rewrite Ez. eexists. reflexivity. }
  assert (ViewingConditions.surround vc = SURROUND_AVERAGE) as Hs
    by (rewrite Evc; reflexivity).
  set (fw := forward_locals D65_WHITE_POINT D65_WHITE_POINT vc).
  destruct (@forward_white_D65_responses_average d vc HD HFl Hd)
    as (ra & ga & ba & ERa & EGa & EBa & Hra & Hrg & Hgb & Hba & Ha & Hb & Hab).
  fold fw in ERa, EGa, EBa.
  (* lightness *)
  assert (Fwd.J fw = Fin 100) as EJ.
  { unfold fw. rewrite Fwd_J_eq, (forward_white_achromatic_response Hvc).
    rewrite HAw, Hs, Hz. cbn [SURROUND_AVERAGE SurroundParameters.c nmul].
    rewrite ndiv_fin by lra.
    replace (aw / aw) with 1 by (field; lra).
    rewrite Math_pow_pos by lra. rewrite Rpower_1_l. cbn [nmul].
    f_equal. lra. }
  (* opponent signals and hue *)
  set (a := ra - 12 * ga / 11 + ba / 11) in *.
  set (b := (ra + ga - 2 * ba) / 9) in *.
  destruct (forward_opponent_fin _ _ _ ERa EGa EBa) as [Ea Eb].
  fold fw a b in Ea, Eb.
  assert (a < 0) as Ha0 by lra. assert (b < 0) as Hb0 by lra.
  destruct (hue_third_octant Ha0 Hb0 Hab) as (h & Eh & Hh).
  assert (Fwd.h fw = Fin h) as Eh'.
  { unfold fw. rewrite Fwd_h_eq. fold fw. rewrite Ea, Eb. exact Eh. }
  destruct (eccentricityFactor_third_octant Hh) as (e & Ee & He).
  assert (Fwd.et fw = Fin e) as Eet.
  { unfold fw. rewrite Fwd_et_eq. fold fw. rewrite Eh'. exact Ee. }
  (* the chroma *)
  set (den := ra + ga + 21 * ba / 20).
  assert (0 < den <= 38.7045) as Hden by (unfold den; lra).
  set (t := 50000 / 13 * 1.0 * ncb * e * sqrt (a * a + b * b) / den).
  assert (Fwd.t fw = Fin t) as Et.
  { unfold fw. rewrite Fwd_t_eq. fold fw.
    rewrite Hs, HNcb, Eet, Ea, Eb, ERa, EGa, EBa.
    cbn [SURROUND_AVERAGE SurroundParameters.Nc nmul nadd].
    rewrite (@ndiv_fin 50000 13) by lra.
    rewrite (@ndiv_fin (21 * ba) 20) by lra.
    assert (0 <= a * a + b * b) as Hsq by nra.
    rewrite Math_sqrt_fin by exact Hsq.
    cbn [nmul nadd]. rewrite ndiv_fin by (fold den; lra).
    reflexivity. }
  assert (4.7 <= t) as Ht.
  { assert (0.0152 <= sqrt (a * a + b * b)) as Hs'.
    { rewrite <- (sqrt_square 0.0152) at 1 by lra.
      apply sqrt_le_1; nra. }
    assert (0 < 50000 / 13 * 1.0 * ncb * e) as Hk by nra.
    assert (4.7 * 38.7045 <= 50000 / 13 * 1.0 * ncb * e * sqrt (a * a + b * b))
      as Hnum.
    { assert (3846 * 0.99 * 3.15 <= 50000 / 13 * 1.0 * ncb * e) by nra.
      nra. }
    assert (t * den = 50000 / 13 * 1.0 * ncb * e * sqrt (a * a + b * b))
      as Etd by (unfold t; field; lra).
    destruct (Rle_lt_dec 4.7 t) as [Hge | Hlt]; [exact Hge|].
    assert (t * den < 4.7 * den) by (apply Rmult_lt_compat_r; lra).
    nra. }
  set (q := Rpower 0.29 (INR 1 / INR 5)).
  assert (0 < q <= 0.79) as Hq.
  { split; [apply Rpower_pos|].
    apply Rpower_le_root; try lra; lia. }
  assert (Fwd.C fw = Fin (Rpower t 0.9 * 1 * (1.64 - q))) as EC.
  { unfold fw. rewrite Fwd_C_eq. fold fw. rewrite Et, EJ, Hn.
    rewrite ndiv_fin by lra. rewrite !Math_pow_pos by lra.
    replace (100 / 100) with 1 by lra.
    rewrite Rpower_1_l. reflexivity. }
  exists vc. eexists. split; [exact Hvc|]. split; [apply forward_success|].
  cbv zeta. cbn [AppearanceCorrelates.J AppearanceCorrelates.C].
  fold fw. split; [exact EJ|].
  eexists. split; [exact EC|].
  assert (4 <= Rpower t 0.9) as Hp.
  { apply Rle_trans with (Rpower 4.7 0.9).
    - replace 0.9 with (INR 9 / INR 10) by (simpl; lra).
      apply Rpower_ge_root; try lra; lia.
    - apply Rle_Rpower_l; lra. }
  nra.
Qed.

(* ================================================================== *)
(** * The round trip on a colour of the test suite *)
(* ================================================================== *)

(** The hue angle of [forward], through its cosine and sine. *)
Lemma forward_hue_direction xyz wp cond (a b : R) :
  Fwd.a (forward_locals xyz wp cond) = Fin a ->
  Fwd.b (forward_locals xyz wp cond) = Fin b ->
  a <> 0 \/ b <> 0 ->
  exists h,
    Fwd.h (forward_locals xyz wp cond) = Fin h /\
    cos (h * (PI / 180)) = a / sqrt (a * a + b * b) /\
    sin (h * (PI / 180)) = b / sqrt (a * a + b * b).
Proof.
  intros Ea Eb Hab.
  pose proof PI_RGT_0 as Hpi.
  destruct (Math_atan2_direction Hab) as (t & Et & Hc & Hs).
  rewrite Fwd_h_eq, Ea, Eb, Et. cbv zeta.
  unfold RAD_TO_DEG, Math_PI. rewrite ndiv_fin by lra. cbn [nmul nlt].
  destruct (Rlt_dec (t * (180 / PI)) 0) as [Hneg | Hpos].
  - rewrite Rltb_true by exact Hneg. cbn [nadd].
    eexists. split; [reflexivity|].
    replace ((t * (180 / PI) + 360) * (PI / 180)) with (t + 2 * INR 1 * PI)
      by (simpl; field; lra).
    rewrite cos_period, sin_period. split; assumption.
  - rewrite Rltb_false by lra.
    eexists. split; [reflexivity|].
    replace (t * (180 / PI) * (PI / 180)) with t by (field; lra).
    split; assumption.
Qed.

Unset Implicit Arguments.

Section InverseOfForward.

Variables (xyz wp : XYZ.t) (cond : ViewingConditions.t).

Local Abbreviation fw := (forward_locals xyz wp cond).
Local Abbreviation iv :=
  (inverse_locals (JCh.mk (Fwd.J fw) (Fwd.C fw) (Fwd.h fw)) wp cond).

(** What [inverse] recovers from the correlates of [forward]. With the
    post-adaptation responses Ra, Ga, Ba of [forward], its opponent
    signals a, b and p2 = 2 Ra + Ga + Ba / 20, [inverse] scales a and b by
    (p2 + 0.305) / p2, the offset 0.305 being counted in p2 and once more in
    gamma, and so recovers responses that are off by
    0.305 / p2 times the a, b part of the linear solve. *)
Lemma inverse_of_forward_responses (ra ga ba e nbb ncb nc aw cz n : R) :
  Fwd.Ra fw = Fin ra -> Fwd.Ga fw = Fin ga -> Fwd.Ba fw = Fin ba ->
  Fwd.et fw = Fin e -> 0 < e ->
  ViewingConditions.Nbb cond = Fin nbb -> 0 < nbb ->
  ViewingConditions.Ncb cond = Fin ncb -> 0 < ncb ->
  SurroundParameters.Nc (ViewingConditions.surround cond) = Fin nc -> 0 < nc ->
  ViewingConditions.Aw cond = Fin aw -> 0 < aw ->
  (SurroundParameters.c (ViewingConditions.surround cond)
   * ViewingConditions.z cond)%num = Fin cz -> 0 < cz ->
  ViewingConditions.n cond = Fin n -> 0 <= n ->
  let a := ra - 12 * ga / 11 + ba / 11 in
  let b := (ra + ga - 2 * ba) / 9 in
  let p2 := 2 * ra + ga + ba / 20 in
  a <> 0 \/ b <> 0 ->
  0 < ra + ga + 21 * ba / 20 ->
  0.305 < p2 ->
  Inv.p2 iv = Fin p2 /\
  Inv.a iv = Fin (a * (p2 + 0.305) / p2) /\
  Inv.b iv = Fin (b * (p2 + 0.305) / p2) /\
  Inv.Ra iv = Fin (ra + 0.305 / p2 * ((451 * a + 288 * b) / 1403)) /\
  Inv.Ga iv = Fin (ga + 0.305 / p2 * ((- 891 * a - 261 * b) / 1403)) /\
  Inv.Ba iv = Fin (ba + 0.305 / p2 * ((- 220 * a - 6300 * b) / 1403)).
Proof.
  intros ERa EGa EBa Ee He HNbb Hnbb HNcb Hncb HNc Hnc HAw Haw Hcz Hcz'
         Hn Hn' a b p2 Hab Hden Hp2.
  pose proof PI_RGT_0 as Hpi.
  destruct (forward_opponent_fin _ _ _ ERa EGa EBa) as [Ea Eb].
  fold a b in Ea, Eb.
  (* forward: achromatic response, lightness, t, chroma, hue *)
  set (A := (p2 - 0.305) * nbb).
  assert (0 < A) as HA by (unfold A; apply Rmult_lt_0_compat; lra).
  assert (Fwd.A fw = Fin A) as EA.
  { rewrite Fwd_A_eq. rewrite ERa, EGa, EBa, HNbb.
    rewrite ndiv_fin by lra. cbn [nmul nadd nsub nneg].
    f_equal. unfold A, p2. lra. }
  assert (0 < A / aw) as Hratio by (apply Rdiv_lt_0_compat; assumption).
  set (j := 100 * Rpower (A / aw) cz).
  assert (0 < j) as Hj.
  { unfold j. pose proof (Rpower_pos (A / aw) cz). lra. }
  assert (Fwd.J fw = Fin j) as EJ.
  { rewrite Fwd_J_eq. rewrite EA, HAw, Hcz.
    rewrite ndiv_fin by lra. rewrite Math_pow_pos by assumption.
    reflexivity. }
  set (r := sqrt (a * a + b * b)).
  assert (0 < r) as Hr.
  { unfold r. apply sqrt_lt_R0. destruct Hab; nra. }
  set (den := ra + ga + 21 * ba / 20) in *.
  set (p1 := 50000 / 13 * nc * ncb * e).
  assert (0 < p1) as Hp1.
  { unfold p1. repeat apply Rmult_lt_0_compat; lra. }
  set (t := p1 * r / den).
  assert (0 < t) as Ht.
  { unfold t. apply Rdiv_lt_0_compat; [|exact Hden].
    apply Rmult_lt_0_compat; assumption. }
  assert (Fwd.t fw = Fin t) as Et.
  { rewrite Fwd_t_eq.
    rewrite HNc, HNcb, Ee, Ea, Eb, ERa, EGa, EBa.
    cbn [nmul nadd].
    rewrite (@ndiv_fin 50000 13) by lra.
    rewrite (@ndiv_fin (21 * ba) 20) by lra.
    assert (0 <= a * a + b * b) as Hsq by nra.
    rewrite Math_sqrt_fin by exact Hsq.
    cbn [nmul nadd]. rewrite ndiv_fin by (fold den; lra).
    reflexivity. }
  set (q := Rpower 0.29 n).
  assert (0 < q <= 1) as Hq.
  { unfold q. split; [apply Rpower_pos|].
    rewrite <- (Rpower_O 0.29) by lra.
    apply Rpower_anti_exponent; lra. }
  set (sj := Rpower (j / 100) 0.5).
  assert (0 < sj) as Hsj by apply Rpower_pos.
  assert (Fwd.C fw = Fin (Rpower t 0.9 * sj * (1.64 - q))) as EC.
  { rewrite Fwd_C_eq. rewrite Et, EJ, Hn.
    rewrite ndiv_fin by lra. rewrite !Math_pow_pos by lra.
    reflexivity. }
  destruct (forward_hue_direction _ _ _ Ea Eb Hab) as (h & Eh & Hc & Hs).
  fold r in Eh, Hc, Hs.
  (* inverse *)
  assert (Inv.A iv = Fin A) as EiA.
  { assert (cz <> 0) as Hne by lra.
    exact (achromatic_response_round_trip _ _ _ EA HAw HA Haw Hcz Hne
             (Fwd.C fw) (Fwd.h fw)). }
  assert (Inv.p2 iv = Fin p2) as Ep2.
  { rewrite Inv_p2_eq. rewrite EiA, HNbb.
    rewrite ndiv_fin by lra. cbn [nadd]. f_equal. unfold A. field. lra. }
  assert (Inv.t iv = Fin t) as Eit.
  { rewrite Inv_t_eq. cbn [JCh.J JCh.C]. rewrite EC, EJ, Hn.
    rewrite ndiv_fin by lra. rewrite !Math_pow_pos by lra.
    fold q sj. cbn [nsub nneg nadd nmul].
    assert (0 < sj * (1.64 + - q)) as Hd'
      by (apply Rmult_lt_0_compat; lra).
    rewrite ndiv_fin by lra.
    replace (Rpower t 0.9 * sj * (1.64 - q) / (sj * (1.64 + - q)))
      with (Rpower t 0.9) by (field; lra).
    rewrite ndiv_fin by lra.
    rewrite Math_pow_pos by apply Rpower_pos.
    rewrite Rpower_mult.
    replace (0.9 * (1 / 0.9)) with 1 by lra.
    now rewrite Rpower_1. }
  assert (Inv.p1 iv = Fin p1) as Eip1.
  { rewrite Inv_p1_eq, Inv_et_eq. cbn [JCh.h].
 rewrite <- Fwd_et_eq. rewrite HNc, HNcb, Ee.
    rewrite ndiv_fin by lra. reflexivity. }
  assert (Inv.cosH iv = Fin (a / r) /\ Inv.sinH iv = Fin (b / r))
    as [Ecos Esin].
  { rewrite Inv_cosH_eq, Inv_sinH_eq, Inv_hRad_eq.
    cbn [JCh.h]. rewrite Eh.
    unfold DEG_TO_RAD, Math_PI. rewrite ndiv_fin by lra.
    cbn [nmul Math_cos Math_sin]. rewrite Hc, Hs. split; reflexivity. }
  set (dn := 23 * p1 + 11 * t * (a / r) + 108 * t * (b / r)).
  assert (dn = 23 * p1 * p2 / den) as Edn.
  { assert (11 * a + 108 * b = 23 * p2 - 23 * den) as Hid
      by (unfold a, b, p2, den; field).
    transitivity (p1 * (23 * den + (11 * a + 108 * b)) / den).
    - unfold dn, t. field. split; lra.
    - rewrite Hid. field. lra. }
  assert (0 < dn) as Hdn.
  { rewrite Edn. apply Rdiv_lt_0_compat; [|exact Hden].
    apply Rmult_lt_0_compat; lra. }
  assert (Inv.gamma iv = Fin (23 * (p2 + 0.305) * t / dn)) as Eg.
  { rewrite Inv_gamma_eq.
    rewrite Eip1, Ep2, Eit, Ecos, Esin. cbn [nmul nadd].
    rewrite ndiv_fin by (fold dn; lra). reflexivity. }
  assert (23 * (p2 + 0.305) * t / dn = (p2 + 0.305) * r / p2) as Egam.
  { rewrite Edn. unfold t. field. repeat split; lra. }
  rewrite Egam in Eg.
  assert (Inv.a iv = Fin (a * (p2 + 0.305) / p2)) as Eia.
  { rewrite Inv_a_eq. rewrite Eg, Ecos. cbn [nmul].
    f_equal. field. split; lra. }
  assert (Inv.b iv = Fin (b * (p2 + 0.305) / p2)) as Eib.
  { rewrite Inv_b_eq. rewrite Eg, Esin. cbn [nmul].
    f_equal. field. split; lra. }
  split; [exact Ep2|]. split; [exact Eia|]. split; [exact Eib|].
 rewrite Inv_Ra_eq, Inv_Ga_eq, Inv_Ba_eq.
  rewrite Ep2, Eia, Eib. cbn [nmul nadd nsub nneg].
  rewrite !ndiv_fin by lra.
  assert (p2 <> 0) as Hp2' by lra.
  unfold p2, a, b in *.
  repeat split; f_equal; field; lra.
Qed.

End InverseOfForward.

Set Implicit Arguments.

(** [inverseNonlinearAdaptation] on a response between the offset and the
    saturation level. *)
Lemma inverseNonlinearAdaptation_fin (x fl : R) :
  0.1 < x < 400.1 -> 0 < fl ->
  inverseNonlinearAdaptation (Fin x) (Fin fl) = Fin (expand fl x).
Proof.
  intros [Hlo Hhi] Hfl.
  unfold inverseNonlinearAdaptation, expand, POST_ADAPTATION_OFFSET,
    CONE_RESPONSE_OFFSET, CONE_RESPONSE_SCALE, CONE_RESPONSE_EXPONENT.
  cbn [nsub nneg nadd nge Math_abs nmul].
  rewrite Rleb_true by lra. rewrite Rabs_pos_eq by lra.
  rewrite !ndiv_fin by lra.
  assert (0 < 27.13 * (x + - (0.1)) / (400 + - (x + - (0.1)))) as Hbase.
  { apply Rdiv_lt_0_compat; lra. }
  rewrite Math_pow_pos by exact Hbase.
  cbn [nmul]. f_equal.
  replace (x + - (0.1)) with (x - 0.1) by lra.
  replace (400 + - (x - 0.1)) with (400 - (x - 0.1)) by lra.
  lra.
Qed.

(** The tristimulus values that [inverse] derives, under D65, from its
    recovered cone responses. *)
Lemma inverse_xyzVec_D65 cor conditions (ra ga ba fl d : R) :
  Inv.Ra (inverse_locals cor D65_WHITE_POINT conditions) = Fin ra ->
  Inv.Ga (inverse_locals cor D65_WHITE_POINT conditions) = Fin ga ->
  Inv.Ba (inverse_locals cor D65_WHITE_POINT conditions) = Fin ba ->
  0.1 < ra < 400.1 -> 0.1 < ga < 400.1 -> 0.1 < ba < 400.1 ->
  ViewingConditions.Fl conditions = Fin fl -> 0 < fl ->
  ViewingConditions.D conditions = Fin d -> 0 <= d <= 1 ->
  Inv.xyzVec (inverse_locals cor D65_WHITE_POINT conditions)
  = (let pr := expand fl ra in
     let pg := expand fl ga in
     let pb := expand fl ba in
     let lr := 1.910197 * pr + -1.112124 * pg + 0.201908 * pb in
     let lg := 0.370950 * pr + 0.629054 * pg + -0.000008 * pb in
     let lb := 0.000000 * pr + 0.000000 * pg + 1.000000 * pb in
     let r := (0.7328 * lr + 0.4296 * lg + -0.1624 * lb)
              / adapt d 94.9278424 in
     let g := (-0.7036 * lr + 1.6975 * lg + 0.0061 * lb)
              / adapt d 103.5391171 in
     let b := (0.0030 * lr + 0.0136 * lg + 0.9834 * lb)
              / adapt d 108.7206832 in
     (Fin (1.096124 * r + -0.278869 * g + 0.182745 * b),
      Fin (0.454369 * r + 0.473533 * g + 0.072098 * b),
      Fin (-0.009628 * r + -0.005698 * g + 1.015326 * b))).
Proof.
  intros ERa EGa EBa Hra Hga Hba HFl Hfl HD Hd.
  rewrite Inv_xyzVec_eq, Inv_rgb_eq, Inv_rgc_eq, Inv_whiteRgb_eq,
    Inv_rgbHpe_eq.
  rewrite D65_whiteRgb, HD, HFl, ERa, EGa, EBa. cbv zeta.
  rewrite !inverseNonlinearAdaptation_fin by assumption.
  cbn [XYZ.Y at0 at1 at2 fst snd D65_WHITE_POINT].
  assert (forall w r, 94 <= w ->
            (Fin r / (Fin d * #100.0 / Fin w + #1 - Fin d))%num
            = Fin (r / adapt d w)) as Hdiv.
  { intros w r Hw. cbn [nmul]. rewrite (@ndiv_fin (d * 100.0) w) by lra.
    cbn [nadd nsub nneg].
    assert (0 < w) as Hw0 by lra.
    assert (0 < 100.0 / w) as Hq by (apply Rdiv_lt_0_compat; lra).
    assert (d * 100.0 / w = d * (100.0 / w)) as E by (field; lra).
    assert (0 < d * 100.0 / w + 1 + - d) as Hpos.
    { rewrite E. assert (0 <= d * (100.0 / w)) by nra.
      destruct (Req_dec d 1) as [-> | Hne]; lra. }
    rewrite ndiv_fin by lra. f_equal. }
  unfold multiplyMatrixVec, M_CAT02, M_HPE_INV, M_CAT02_INV.
  cbn [at0 at1 at2 fst snd nmul nadd].
  rewrite !Hdiv by lra.
  reflexivity.
Qed.

(** Bounds of a compressed response through rational bounds of the power
    0.42 = 21 / 50 of its argument. *)
Lemma compress_bounds (fl r xl xu pl pu : R) :
  0 < r -> 0 < xl -> xl <= fl * r / 100 <= xu ->
  0 < pl -> 0 < pu -> pl ^ 50 <= xl ^ 21 -> xu ^ 21 <= pu ^ 50 ->
  400 * pl / (pl + 27.13) + 0.1 <= compress fl r
  <= 400 * pu / (pu + 27.13) + 0.1.
Proof.
  intros Hr Hxl [Hlo Hhi] Hpl Hpu Hrl Hru.
  rewrite compress_pos by exact Hr.
  set (x := fl * r / 100) in *.
  assert (pl <= Rpower x 0.42 <= pu) as [Hl Hu].
  { replace 0.42 with (INR 21 / INR 50) by (simpl; lra). split.
    - apply Rle_trans with (Rpower xl (INR 21 / INR 50)).
      + apply Rpower_ge_root; try assumption; lia.
      + apply Rle_Rpower_l; [simpl; lra | lra].
    - apply Rle_trans with (Rpower xu (INR 21 / INR 50)).
      + apply Rle_Rpower_l; [simpl; lra | lra].
      + apply Rpower_le_root; try assumption; try lra; lia. }
  split.
  - apply Rplus_le_compat_r. apply compression_ratio_mono. lra.
  - apply Rplus_le_compat_r. apply compression_ratio_mono. lra.
Qed.

(** The compressed cone responses of the stimulus (5, 5, 40) under D65 and
    the conditions of La = 64 with an average surround. *)
Lemma forward_sample_responses (d : R) conditions :
  ViewingConditions.D conditions = Fin d ->
  ViewingConditions.Fl conditions = Fin Fl_64 ->
  0.9083 <= d <= 0.9167 ->
  exists hb ra ga ba,
    Fwd.Ra (forward_locals (XYZ.mk #5 #5 #40) D65_WHITE_POINT conditions)
    = Fin ra /\
    Fwd.Ga (forward_locals (XYZ.mk #5 #5 #40) D65_WHITE_POINT conditions)
    = Fin ga /\
    Fwd.Ba (forward_locals (XYZ.mk #5 #5 #40) D65_WHITE_POINT conditions)
    = Fin ba /\
    37.058 <= hb /\ ba = compress Fl_64 hb /\
    2.5486 <= ra <= 2.5516 /\ 3.9837 <= ga <= 3.9867 /\
    8.2150 <= ba <= 8.2207.
Proof.
  intros HD HFl Hd.
  pose proof (@forward_rgbHpe_D65 5 5 40 d conditions HD) as EH.
  cbv zeta in EH.
  set (h0 := hpe0 _ _ _) in EH. set (h1 := hpe1 _ _ _) in EH.
  set (h2 := hpe2 _ _ _) in EH.
  assert (2.0669 <= h0 <= 2.0686 /\ 6.2506 <= h1 <= 6.2542 /\
          37.058 <= h2 <= 37.086) as (B0 & B1 & B2).
  { unfold h0, h1, h2, hpe0, hpe1, hpe2, adapt. repeat split; lra. }
  clearbody h0 h1 h2.
  pose proof Fl_64_tight as HFlb.
  assert (2.5486 <= compress Fl_64 h0 <= 2.5516) as C0.
  { assert (0.014135 <= Fl_64 * h0 / 100 <= 0.014152) as Hx by nra.
    pose proof (@compress_bounds Fl_64 h0 0.014135 0.014152 0.1671 0.1673)
      as Hc.
    assert (0.1671 ^ 50 <= 0.014135 ^ 21) as Hrl by lra.
    assert (0.014152 ^ 21 <= 0.1673 ^ 50) as Hru by lra.
    specialize (Hc ltac:(lra) ltac:(lra) Hx ltac:(lra) ltac:(lra) Hrl Hru).
    lra. }
  assert (3.9837 <= compress Fl_64 h1 <= 3.9867) as C1.
  { assert (0.042747 <= Fl_64 * h1 / 100 <= 0.042786) as Hx by nra.
    pose proof (@compress_bounds Fl_64 h1 0.042747 0.042786 0.2660 0.2662)
      as Hc.
    assert (0.2660 ^ 50 <= 0.042747 ^ 21) as Hrl by lra.
    assert (0.042786 ^ 21 <= 0.2662 ^ 50) as Hru by lra.
    specialize (Hc ltac:(lra) ltac:(lra) Hx ltac:(lra) ltac:(lra) Hrl Hru).
    lra. }
  assert (8.2150 <= compress Fl_64 h2 <= 8.2207) as C2.
  { assert (0.25343 <= Fl_64 * h2 / 100 <= 0.25371) as Hx by nra.
    pose proof (@compress_bounds Fl_64 h2 0.25343 0.25371 0.5618 0.5622)
      as Hc.
    assert (0.5618 ^ 50 <= 0.25343 ^ 21) as Hrl by lra.
    assert (0.25371 ^ 21 <= 0.5622 ^ 50) as Hru by lra.
    specialize (Hc ltac:(lra) ltac:(lra) Hx ltac:(lra) ltac:(lra) Hrl Hru).
    lra. }
  exists h2, (compress Fl_64 h0), (compress Fl_64 h1), (compress Fl_64 h2).
  split; [|split; [|split]].
  - rewrite Fwd_Ra_eq, EH, HFl. apply nonlinearAdaptation_fin; lra.
  - rewrite Fwd_Ga_eq, EH, HFl. apply nonlinearAdaptation_fin; lra.
  - rewrite Fwd_Ba_eq, EH, HFl. apply nonlinearAdaptation_fin; lra.
  - repeat split; lra.
Qed.

(** The expansion of a response above the offset is positive and bounded
    through a rational bound of the power 1 / 0.42 = 50 / 21. *)
Lemma expand_bounds (fl x c u : R) :
  0.6839 <= fl -> 0.1 < x < 400.1 ->
  27.13 * (x - 0.1) <= c * (400 - (x - 0.1)) -> 0 < u -> c ^ 50 <= u ^ 21 ->
  0 < expand fl x <= 100 / 0.6839 * u.
Proof.
  intros Hfl [Hlo Hhi] Hc Hu Hroot. unfold expand.
  set (base := 27.13 * (x - 0.1) / (400 - (x - 0.1))) in *.
  assert (0 < base) as Hb by (apply Rdiv_lt_0_compat; lra).
  assert (base <= c) as Hc'.
  { apply Rmult_le_reg_r with (400 - (x - 0.1)); [lra|].
    unfold base, Rdiv. rewrite Rmult_assoc, Rinv_l, Rmult_1_r by lra.
    exact Hc. }
  assert (0 < 100 / fl <= 100 / 0.6839) as [Hk Hk'].
  { split; [apply Rdiv_lt_0_compat; lra|].
    unfold Rdiv. apply Rmult_le_compat_l; [lra|].
    apply Rinv_le_contravar; lra. }
  pose proof (Rpower_pos base (1 / 0.42)) as Hp.
  assert (Rpower base (1 / 0.42) <= u) as Hpu.
  { replace (1 / 0.42) with (INR 50 / INR 21) by (simpl; lra).
    apply Rle_trans with (Rpower c (INR 50 / INR 21)).
    - apply Rle_Rpower_l; [simpl; lra | lra].
    - apply Rpower_le_root; try assumption; try lra; lia. }
  split; [apply Rmult_lt_0_compat; assumption|].
  apply Rmult_le_compat; lra.
Qed.

(** Expanding a compressed response whose part above the offset has been
    enlarged by the factor 1 + eps enlarges the response itself by at least
    1 + (1 / 0.42) (1 - 1 / (1 + eps)). *)
Lemma expand_enlarged_compress (fl r x eps : R) :
  0 < fl -> 0 < r -> 0 <= eps ->
  (1 + eps) * (compress fl r - 0.1) <= x - 0.1 -> x < 400.1 ->
  r * (1 + 1 / 0.42 * (1 - 1 / (1 + eps))) <= expand fl x.
Proof.
  intros Hfl Hr Heps Hx Hhi.
  rewrite compress_pos in Hx by exact Hr.
  set (y := fl * r / 100) in *.
  assert (0 < y) as Hy.
  { unfold y. apply Rdiv_lt_0_compat; [|lra].
    apply Rmult_lt_0_compat; assumption. }
  set (P := Rpower y 0.42) in *.
  assert (0 < P) as HP by apply Rpower_pos.
  set (u := 400 * P / (P + 27.13)) in *.
  assert (0 < u < 400) as [Hu0 Hu4].
  { unfold u. split.
    - apply Rdiv_lt_0_compat; lra.
    - apply Rmult_lt_reg_r with (P + 27.13); [lra|].
      unfold Rdiv. rewrite Rmult_assoc, Rinv_l, Rmult_1_r by lra. lra. }
  assert (27.13 * u / (400 - u) = P) as EP by (unfold u; field; lra).
  replace (u + 0.1 - 0.1) with u in Hx by lra.
  assert (u <= x - 0.1) as Hux by nra.
  assert (x - 0.1 < 400) as Hv4 by lra.
  unfold expand.
  set (v := x - 0.1) in *.
  assert (P * (1 + eps) <= 27.13 * v / (400 - v)) as Hbase.
  { rewrite <- EP.
    apply Rle_trans with (27.13 * ((1 + eps) * u) / (400 - u)).
    - apply Req_le. field. lra.
    - assert (0 <= (1 + eps) * u) as Hn by nra.
      apply Rle_trans with (27.13 * v / (400 - u)).
      + unfold Rdiv. apply Rmult_le_compat_r.
        * apply Rlt_le, Rinv_0_lt_compat. lra.
        * lra.
      + unfold Rdiv. apply Rmult_le_compat_l; [lra|].
        apply Rinv_le_contravar; lra. }
  assert (Rpower (P * (1 + eps)) (1 / 0.42) = y * Rpower (1 + eps) (1 / 0.42))
    as Esplit.
  { rewrite <- Rpower_mult_distr by lra. f_equal.
    unfold P. rewrite Rpower_mult.
    replace (0.42 * (1 / 0.42)) with 1 by (field; lra).
    now apply Rpower_1. }
  assert (y * Rpower (1 + eps) (1 / 0.42)
          <= Rpower (27.13 * v / (400 - v)) (1 / 0.42)) as Hpow.
  { rewrite <- Esplit. apply Rle_Rpower_l; [lra|].
    split; [|exact Hbase]. apply Rmult_lt_0_compat; lra. }
  assert (1 + 1 / 0.42 * (1 - 1 / (1 + eps)) <= Rpower (1 + eps) (1 / 0.42))
    as Hlin by (apply Rpower_ge_linear; lra).
  assert (r = 100 / fl * y) as Er by (unfold y; field; lra).
  assert (0 < 100 / fl) as Hk by (apply Rdiv_lt_0_compat; lra).
  rewrite Er at 1. rewrite Rmult_assoc.
  apply Rmult_le_compat_l; [lra|].
  apply Rle_trans with (y * Rpower (1 + eps) (1 / 0.42)); [|exact Hpow].
  apply Rmult_le_compat_l; lra.
Qed.

(** Bounds of a quotient from bounds of its terms. *)
Lemma quotient_upper (n f u f' : R) :
  n <= u -> 0 <= u -> 0 < f' <= f -> n / f <= u / f'.
Proof.
  intros Hn Hu [Hf' Hf].
  apply Rle_trans with (u / f).
  - unfold Rdiv. apply Rmult_le_compat_r; [|exact Hn].
    apply Rlt_le, Rinv_0_lt_compat. lra.
  - unfold Rdiv. apply Rmult_le_compat_l; [exact Hu|].
    apply Rinv_le_contravar; lra.
Qed.

Lemma quotient_lower (n f l f' : R) :
  l <= n -> 0 <= l -> 0 < f <= f' -> l / f' <= n / f.
Proof.
  intros Hn Hl [Hf Hf'].
  apply Rle_trans with (l / f).
  - unfold Rdiv. apply Rmult_le_compat_l; [exact Hl|].
    apply Rinv_le_contravar; lra.
  - unfold Rdiv. apply Rmult_le_compat_r; [|exact Hn].
    apply Rlt_le, Rinv_0_lt_compat. lra.
Qed.

(** C1. The round trip on the stimulus (5, 5, 40) of the repository's
    round-trip test, under its conditions (La = 64, Yb = 20, D65, average
    surround): [forward] and then [inverse] succeed, and the recovered Z is
    at least 41.5 where the stimulus has 40. [inverse] counts the offset
    0.305 in p2 and once more in gamma, so the opponent signals come back
    scaled by (p2 + 0.305) / p2. *)
Theorem round_trip_misses_sample :
  exists vc r xyz' z',
    makeViewingConditions #64 #20 D65_WHITE_POINT None = Success vc /\
    forward (XYZ.mk #5 #5 #40) D65_WHITE_POINT vc = Success r /\
    inverse (JCh.mk (AppearanceCorrelates.J r) (AppearanceCorrelates.C r)
                    (AppearanceCorrelates.h r)) D65_WHITE_POINT vc
    = Success xyz' /\
    XYZ.Z xyz' = Fin z' /\ 41.5 <= z'.
Proof.
  assert (0 < 20) as Hyb by lra.
  destruct (makeViewingConditions_D65_64 average Hyb)
    as (d & aw & ED & Hd01 & EFl & En & ENbb & Ez & EAw & Haw).
  destruct (makeViewingConditions_average_D Hyb) as (d' & ED' & Hd).
  rewrite ED in ED'. injection ED' as <-.
  pose proof (makeViewingConditions_success #64 #20 D65_WHITE_POINT None)
    as Hvc.
  cbv zeta in Hvc.
  set (vc := ViewingConditions.mk _ _ _ _ _ _ _ _ _ _ _ _) in Hvc.
  assert (vc = vc) as Evc by reflexivity. unfold vc at 2 in Evc.
  assert (ViewingConditions.D vc = Fin d) as HD by (rewrite Evc; exact ED).
  assert (ViewingConditions.Fl vc = Fin Fl_64) as HFl
    by (rewrite Evc; exact EFl).
  assert (ViewingConditions.Aw vc = Fin aw) as HAw by (rewrite Evc; exact EAw).
  assert (ViewingConditions.n vc = Fin (20 / 100.0)) as Hn
    by (rewrite Evc; exact En).
  set (ncb := 0.725 * Rpower (20 / 100.0) (-0.2)) in *.
  assert (ViewingConditions.Nbb vc = Fin ncb) as HNbb
    by (rewrite Evc; exact ENbb).
  assert (ViewingConditions.Ncb vc = Fin ncb) as HNcb.
  { rewrite Evc. cbn [ViewingConditions.Ncb].
    change (Mvc.Ncb ?v) with (Mvc.Nbb v). exact ENbb. }
  assert (0 < ncb) as Hncb.
  { unfold ncb. pose proof (Rpower_pos (20 / 100.0) (-0.2)). lra. }
  assert (ViewingConditions.z vc = Fin (1.48 + sqrt (20 / 100.0))) as Hz
    by (rewrite Evc; exact Ez).
  assert (ViewingConditions.surround vc = SURROUND_AVERAGE) as Hs
    by (rewrite Evc; reflexivity).
  set (cz := 0.69 * (1.48 + sqrt (20 / 100.0))).
  assert (0 < cz) as Hcz'.
  { unfold cz. pose proof (sqrt_pos (20 / 100.0)). lra. }
  assert ((SurroundParameters.c (ViewingConditions.surround vc)
           * ViewingConditions.z vc)%num = Fin cz) as Hcz
    by (rewrite Hs, Hz; reflexivity).
  assert (SurroundParameters.Nc (ViewingConditions.surround vc) = Fin 1.0)
    as HNc by (rewrite Hs; reflexivity).
  pose proof Fl_64_tight as HFlb.
  (* forward *)
  destruct (@forward_sample_responses d vc HD HFl Hd)
    as (hb & ra & ga & ba & ERa & EGa & EBa & Hhb & Eba & Hra & Hga & Hba).
  set (fw := forward_locals (XYZ.mk #5 #5 #40) D65_WHITE_POINT vc) in *.
  destruct (forward_opponent_fin _ _ _ ERa EGa EBa) as [Ea Eb].
  fold fw in Ea, Eb.
  set (a := ra - 12 * ga / 11 + ba / 11) in *.
  set (b := (ra + ga - 2 * ba) / 9) in *.
  assert (-1.0538 <= a <= -1.0469) as Ha by (unfold a; lra).
  assert (-1.1011 <= b <= -1.0990) as Hb by (unfold b; lra).
  assert (a < 0) as Ha0 by lra. assert (b < 0) as Hb0 by lra.
  destruct (hue_third_quadrant Ha0 Hb0) as (h & Eh & Hh).
  assert (Fwd.h fw = Fin h) as Eh'.
  { unfold fw. rewrite Fwd_h_eq. fold fw. rewrite Ea, Eb. exact Eh. }
  destruct (eccentricityFactor_third_quadrant Hh) as (e & Ee & He).
  assert (Fwd.et fw = Fin e) as Eet.
  { unfold fw. rewrite Fwd_et_eq. fold fw. rewrite Eh'. exact Ee. }
  (* inverse: the recovered responses *)
  set (p2 := 2 * ra + ga + ba / 20).
  assert (9.4916 <= p2 <= 9.5010) as Hp2 by (unfold p2; lra).
  assert (a <> 0 \/ b <> 0) as Hab by (left; lra).
  assert (0 < ra + ga + 21 * ba / 20) as Hden by lra.
  destruct (inverse_of_forward_responses
              (XYZ.mk #5 #5 #40) D65_WHITE_POINT vc
              ra ga ba e ncb ncb 1.0 aw cz (20 / 100.0)
              ERa EGa EBa Eet ltac:(lra) HNbb Hncb HNcb Hncb HNc ltac:(lra)
              HAw Haw Hcz Hcz' Hn ltac:(lra) Hab Hden ltac:(unfold p2 in Hp2; lra))
    as (_ & _ & _ & EiRa & EiGa & EiBa).
  fold fw a b p2 in EiRa, EiGa, EiBa.
  set (iv := inverse_locals _ _ _) in EiRa, EiGa, EiBa.
  set (k := 0.305 / p2) in *.
  assert (0.0321 <= k <= 0.03214) as Hk.
  { assert (k * p2 = 0.305) as Ek by (unfold k; field; lra).
    split.
    - destruct (Rle_lt_dec 0.0321 k) as [H|H]; [exact H | nra].
    - destruct (Rle_lt_dec k 0.03214) as [H|H]; [exact H | nra]. }
  set (mR := (451 * a + 288 * b) / 1403) in *.
  set (mG := (- 891 * a - 261 * b) / 1403) in *.
  set (mB := (- 220 * a - 6300 * b) / 1403) in *.
  assert (-0.5648 <= mR <= -0.5621) as HmR by (unfold mR; lra).
  assert (0.869 <= mG <= 0.8741) as HmG by (unfold mG; lra).
  assert (5.099 <= mB <= 5.1097) as HmB by (unfold mB; lra).
  set (ra' := ra + k * mR) in *.
  set (ga' := ga + k * mG) in *.
  set (ba' := ba + k * mB) in *.
  assert (2.53 <= ra' <= 2.5336) as Hra'.
  { assert (-0.01816 <= k * mR <= -0.01804) by nra. unfold ra'. lra. }
  assert (4.0115 <= ga' <= 4.0148) as Hga'.
  { assert (0.0278 <= k * mG <= 0.0281) by nra. unfold ga'. lra. }
  assert (ba + 0.1636 <= ba' <= 8.385) as Hba'.
  { assert (0.1636 <= k * mB <= 0.1643) by nra. unfold ba'. lra. }
  pose proof (@inverse_xyzVec_D65 _ vc ra' ga' ba' Fl_64 d EiRa EiGa EiBa
                ltac:(lra) ltac:(lra) ltac:(lra) HFl ltac:(lra) HD Hd01)
    as Exyz.
  fold iv in Exyz. cbv zeta in Exyz.
  (* the expanded responses *)
  assert (0 < expand Fl_64 ra' <= 2.0764) as Hpr.
  { assert (0.1674 ^ 50 <= 0.0142 ^ 21) as Hroot by lra.
    pose proof (@expand_bounds Fl_64 ra' 0.1674 0.0142 ltac:(lra) ltac:(lra)
                  ltac:(lra) ltac:(lra) Hroot). lra. }
  assert (0 < expand Fl_64 ga' <= 6.3753) as Hpg.
  { assert (0.2682 ^ 50 <= 0.0436 ^ 21) as Hroot by lra.
    pose proof (@expand_bounds Fl_64 ga' 0.2682 0.0436 ltac:(lra) ltac:(lra)
                  ltac:(lra) ltac:(lra) Hroot). lra. }
  assert (38.74 <= expand Fl_64 ba') as Hpb.
  { assert (0 < hb) as Hhb0 by lra.
    pose proof (@expand_enlarged_compress Fl_64 hb ba' 0.0195 ltac:(lra) Hhb0
                  ltac:(lra)) as Hbig.
    rewrite <- Eba in Hbig.
    specialize (Hbig ltac:(lra) ltac:(lra)).
    assert (1.0455 <= 1 + 1 / 0.42 * (1 - 1 / (1 + 0.0195))) as Hc by lra.
    nra. }
  set (pr := expand Fl_64 ra') in *.
  set (pg := expand Fl_64 ga') in *.
  set (pb := expand Fl_64 ba') in *.
  (* the recovered Z *)
  set (f1 := adapt d 94.9278424) in *.
  set (f2 := adapt d 103.5391171) in *.
  set (f3 := adapt d 108.7206832) in *.
  assert (1.04 <= f1) as Hf1 by (unfold f1, adapt; lra).
  assert (0.9686 <= f2) as Hf2 by (unfold f2, adapt; lra).
  assert (0 < f3 <= 0.92715) as Hf3 by (unfold f3, adapt; lra).
  set (lr := 1.910197 * pr + -1.112124 * pg + 0.201908 * pb) in *.
  set (lg := 0.370950 * pr + 0.629054 * pg + -0.000008 * pb) in *.
  set (lb := 0.000000 * pr + 0.000000 * pg + 1.000000 * pb) in *.
  assert ((0.7328 * lr + 0.4296 * lg + -0.1624 * lb) / f1 <= 3.3 / 1.04)
    as Hr.
  { apply quotient_upper; [unfold lr, lg, lb; lra | lra | lra]. }
  assert ((-0.7036 * lr + 1.6975 * lg + 0.0061 * lb) / f2 <= 11.8 / 0.9686)
    as Hg.
  { apply quotient_upper; [unfold lr, lg, lb; lra | lra | lra]. }
  assert (38.12 / 0.92715 <= (0.0030 * lr + 0.0136 * lg + 0.9834 * lb) / f3)
    as Hbl.
  { apply quotient_lower; [unfold lr, lg, lb; lra | lra | lra]. }
  exists vc. eexists. eexists. eexists.
  split; [exact Hvc|]. split; [apply forward_success|].
  cbv zeta. cbn [AppearanceCorrelates.J AppearanceCorrelates.C
                 AppearanceCorrelates.h].
  fold fw. split; [apply inverse_success|].
  cbn [XYZ.Z]. fold iv. rewrite Exyz. cbn [at2 snd].
  split; [reflexivity|]. lra.
Qed.

(* ================================================================== *)
(** * Chromatic stimuli through the inverse transform *)
(* ================================================================== *)

(** On the first segment the factor vanishes with the distance from the
    hue angle 20.14. *)
Lemma eccentricityFactor_first_segment (h : R) :
  20.14 <= h < 90 ->
  exists e, eccentricityFactor (Fin h) = Fin e /\
            0 <= e <= 0.0164 * (h - 20.14).
Proof.
  intros Hh. ecc_eval. eexists. split; [reflexivity|].
  set (u := h + - (20.14)).
  assert (0 <= u < 69.86) as Hu by (unfold u; lra).
  replace (h - 20.14) with u by (unfold u; lra).
  replace (90.00 + - h) with (69.86 - u) by (unfold u; lra).
  set (den := u / 0.8 + (69.86 - u) / 0.7).
  assert (87.3 <= den) as Hden by (unfold den; lra).
  set (F1 := (0.0 + 100 * (u / 0.8) / den) / 100).
  assert (F1 = u / 0.8 / den) as E1
    by (unfold F1; replace 0.0 with 0 by lra; field; lra).
  assert (0 <= F1 <= u / 69.84) as H1.
  { rewrite E1. split.
    - apply Rmult_le_pos; [lra | apply Rlt_le, Rinv_0_lt_compat; lra].
    - apply Rmult_le_reg_r with den; [lra|].
      unfold Rdiv at 1. rewrite Rmult_assoc, Rinv_l, Rmult_1_r by lra.
      nra. }
  set (D2 := 0.7 * u / 100 + 0.8 * (69.86 - u) / 100).
  assert (0.489 <= D2) as HD2 by (unfold D2; lra).
  set (F2 := 0.7 * 0.8 / D2).
  assert (0 < F2 <= 1.1452) as H2.
  { unfold F2. split.
    - apply Rdiv_lt_0_compat; lra.
    - apply Rmult_le_reg_r with D2; [lra|].
      unfold Rdiv. rewrite Rmult_assoc, Rinv_l, Rmult_1_r by lra. nra. }
  split.
  - apply Rmult_le_pos; lra.
  - apply Rle_trans with (u / 69.84 * 1.1452); [|lra].
    apply Rmult_le_compat; lra.
Qed.

(** The bindings of [inverse] under the unit conditions for the lightness
    100 and the chroma 1.35, for which A = Aw and t = 1. *)
Lemma inverse_locals_unit_chromatic (h e c s : R) :
  let v := inverse_locals (JCh.mk #100 #1.35 (Fin h)) D65_WHITE_POINT
             unit_conditions in
  eccentricityFactor (Fin h) = Fin e -> 
  cos (h * (PI / 180)) = c -> sin (h * (PI / 180)) = s ->
  0 < 23 * (50000 / 13 * e) + 11 * c + 108 * s ->
  let g := 23 * (3.05 + 0.305) / (23 * (50000 / 13 * e) + 11 * c + 108 * s) in
  Inv.p2 v = Fin 3.05 /\ Inv.a v = Fin (g * c) /\ Inv.b v = Fin (g * s) /\
  0 < g.
Proof.
  intros v Ee Ec Es Hden g.
  pose proof PI_RGT_0 as Hpi.
  assert (Inv.A v = Fin 2.745) as EA.
  { unfold v. rewrite Inv_A_eq.
    cbn [JCh.J ViewingConditions.Aw ViewingConditions.surround
         ViewingConditions.z unit_conditions SURROUND_AVERAGE
         SurroundParameters.c nmul].
    rewrite !ndiv_fin by lra. replace (100 / 100) with 1 by lra.
    rewrite Math_pow_pos by lra. rewrite Rpower_1_l. cbn [nmul].
    f_equal. lra. }
  assert (Inv.p2 v = Fin 3.05) as Ep2.
  { unfold v. rewrite Inv_p2_eq. fold v. rewrite EA.
    cbn [ViewingConditions.Nbb unit_conditions].
    rewrite ndiv_fin by lra. cbn [nadd]. f_equal. lra. }
  assert (Inv.t v = Fin 1) as Et.
  { unfold v. rewrite Inv_t_eq.
    cbn [JCh.J JCh.C ViewingConditions.n unit_conditions].
    rewrite !(@ndiv_fin 100) by lra. rewrite (@ndiv_fin 1) by lra.
    rewrite !Math_pow_pos by lra. rewrite Rpower_1 by lra.
    replace (100 / 100) with 1 by lra. rewrite Rpower_1_l.
    cbn [nsub nneg nadd nmul].
    rewrite ndiv_fin by lra.
    replace (1 * (1.64 + - (0.29))) with 1.35 by lra.
    replace (1.35 / 1.35) with 1 by lra.
    rewrite Math_pow_pos by lra. now rewrite Rpower_1_l. }
  assert (Inv.p1 v = Fin (50000 / 13 * e)) as Ep1.
  { unfold v. rewrite Inv_p1_eq, Inv_et_eq.
    cbn [JCh.h ViewingConditions.surround ViewingConditions.Ncb
         unit_conditions SURROUND_AVERAGE SurroundParameters.Nc].
    rewrite Ee. rewrite ndiv_fin by lra. cbn [nmul]. f_equal. lra. }
  assert (Inv.cosH v = Fin c) as Ec'.
  { unfold v. rewrite Inv_cosH_eq, Inv_hRad_eq. cbn [JCh.h].
    unfold DEG_TO_RAD, Math_PI. rewrite ndiv_fin by lra.
    cbn [nmul Math_cos]. now rewrite Ec. }
  assert (Inv.sinH v = Fin s) as Es'.
  { unfold v. rewrite Inv_sinH_eq, Inv_hRad_eq. cbn [JCh.h].
    unfold DEG_TO_RAD, Math_PI. rewrite ndiv_fin by lra.
    cbn [nmul Math_sin]. now rewrite Es. }
  assert (Inv.gamma v = Fin g) as Eg.
  { unfold v. rewrite Inv_gamma_eq. fold v.
    rewrite Ep1, Ep2, Et, Ec', Es'. cbn [nmul nadd].
    rewrite ndiv_fin by lra. f_equal. unfold g. f_equal; lra. }
  split; [exact Ep2|]. split; [|split].
  - unfold v. rewrite Inv_a_eq. fold v. rewrite Eg, Ec'. reflexivity.
  - unfold v. rewrite Inv_b_eq. fold v. rewrite Eg, Es'. reflexivity.
  - unfold g. apply Rdiv_lt_0_compat; lra.
Qed.

(** Bounds of the square root of 2. *)
Lemma sqrt2_bounds : 1.4 < sqrt 2 < 1.5.
Proof.
  split.
  - replace 1.4 with (sqrt (1.4 * 1.4)) by (apply sqrt_square; lra).
    apply sqrt_lt_1; lra.
  - replace 1.5 with (sqrt (1.5 * 1.5)) by (apply sqrt_square; lra).
    apply sqrt_lt_1; lra.
Qed.

Lemma inverse_linear_solve_exact_witness :
  (let v := inverse_locals (JCh.mk #100 #1.35 #45) D65_WHITE_POINT
              unit_conditions in
   exists a b : R,
     Inv.a v = Fin a /\ Inv.b v = Fin b /\ 0 < a /\ 0 < b /\
     Inv.Ra v = Fin ((460 * 3.05 + 451 * a + 288 * b) / 1403) /\
     Inv.Ga v = Fin ((460 * 3.05 - 891 * a - 261 * b) / 1403) /\
     Inv.Ba v = Fin ((460 * 3.05 - 220 * a - 6300 * b) / 1403)) /\
  (let v := inverse_locals (JCh.mk #100 #1.35 #225) D65_WHITE_POINT
              unit_conditions in
   exists a b : R,
     Inv.a v = Fin a /\ Inv.b v = Fin b /\ a < 0 /\ b < 0 /\
     Inv.Ra v = Fin ((460 * 3.05 + 451 * a + 288 * b) / 1403) /\
     Inv.Ga v = Fin ((460 * 3.05 - 891 * a - 261 * b) / 1403) /\
     Inv.Ba v = Fin ((460 * 3.05 - 220 * a - 6300 * b) / 1403)) /\
  (let v := forward_locals (XYZ.mk #19.31 #23.93 #10.14) D65_WHITE_POINT
              unit_conditions in
   exists Ra Ga Ba : R,
     Fwd.Ra v = Fin Ra /\ Fwd.Ga v = Fin Ga /\ Fwd.Ba v = Fin Ba /\
     Fwd.a v = Fin (Ra - 12 * Ga / 11 + Ba / 11) /\
     Fwd.b v = Fin ((Ra + Ga - 2 * Ba) / 9) /\
     (Fwd.A v / ViewingConditions.Nbb unit_conditions + #0.305)%num
     = Fin (2 * Ra + Ga + Ba / 20)).
Proof.
  destruct inverse_linear_solve_exact as (_ & Hinv & Hfwd).
  pose proof PI_RGT_0 as Hpi.
  pose proof sqrt2_bounds as Hsqrt.
  assert (0 < 1 / sqrt 2 < 1) as Hr.
  { split.
    - apply Rdiv_lt_0_compat; lra.
    - apply Rmult_lt_reg_r with (sqrt 2); [lra|].
      unfold Rdiv. rewrite Rmult_assoc, Rinv_l by lra. lra. }
  split; [|split].
  - intros v.
    assert (20.14 <= 45 < 90) as H45 by lra.
    destruct (eccentricityFactor_first_segment H45) as (e & Ee & He).
    assert (45 * (PI / 180) = PI / 4) as Eang by lra.
    assert (cos (45 * (PI / 180)) = 1 / sqrt 2) as Ec
      by (rewrite Eang; apply cos_PI4).
    assert (sin (45 * (PI / 180)) = 1 / sqrt 2) as Es
      by (rewrite Eang; apply sin_PI4).
    assert (0 < 23 * (50000 / 13 * e) + 11 * (1 / sqrt 2) + 108 * (1 / sqrt 2))
      as Hden by lra.
    destruct (@inverse_locals_unit_chromatic _ _ _ _ Ee Ec Es Hden)
      as (Ep2 & Ea & Eb & Hg).
    fold v in Ep2, Ea, Eb.
    destruct (Hinv _ _ _ _ _ _ Ep2 Ea Eb)
      as (Ra & Ga & Ba & ERa & EGa & EBa & -> & -> & -> & _).
    do 2 eexists. split; [exact Ea|]. split; [exact Eb|].
    split; [apply Rmult_lt_0_compat; lra|].
    split; [apply Rmult_lt_0_compat; lra|].
    repeat split; assumption.
  - intros v.
    assert (180 < 225 < 270) as H225 by lra.
    destruct (eccentricityFactor_third_quadrant H225) as (e & Ee & He).
    assert (225 * (PI / 180) = PI / 4 + PI) as Eang by lra.
    assert (cos (225 * (PI / 180)) = - (1 / sqrt 2)) as Ec
      by (rewrite Eang, neg_cos; f_equal; apply cos_PI4).
    assert (sin (225 * (PI / 180)) = - (1 / sqrt 2)) as Es
      by (rewrite Eang, neg_sin; f_equal; apply sin_PI4).
    assert (0 < 23 * (50000 / 13 * e) + 11 * - (1 / sqrt 2)
                + 108 * - (1 / sqrt 2)) as Hden by lra.
    destruct (@inverse_locals_unit_chromatic _ _ _ _ Ee Ec Es Hden)
      as (Ep2 & Ea & Eb & Hg).
    fold v in Ep2, Ea, Eb.
    destruct (Hinv _ _ _ _ _ _ Ep2 Ea Eb)
      as (Ra & Ga & Ba & ERa & EGa & EBa & -> & -> & -> & _).
    do 2 eexists. split; [exact Ea|]. split; [exact Eb|].
    split; [nra|]. split; [nra|].
    repeat split; assumption.
  - intros v.
    assert (ViewingConditions.D unit_conditions = Fin 1) as HD by reflexivity.
    pose proof (@forward_rgbHpe_D65 19.31 23.93 10.14 1 unit_conditions HD)
      as EH.
    fold v in EH. cbv zeta in EH.
    set (h0 := hpe0 _ _ _) in EH. set (h1 := hpe1 _ _ _) in EH.
    set (h2 := hpe2 _ _ _) in EH.
    assert (0 < h0 /\ 0 < h1 /\ 0 < h2) as (P0 & P1 & P2).
    { unfold h0, h1, h2, hpe0, hpe1, hpe2, adapt. repeat split; lra. }
    assert (Fwd.Ra v = Fin (compress 1 h0)) as ERa.
    { unfold v. rewrite Fwd_Ra_eq. fold v. rewrite EH.
      apply nonlinearAdaptation_fin; lra. }
    assert (Fwd.Ga v = Fin (compress 1 h1)) as EGa.
    { unfold v. rewrite Fwd_Ga_eq. fold v. rewrite EH.
      apply nonlinearAdaptation_fin; lra. }
    assert (Fwd.Ba v = Fin (compress 1 h2)) as EBa.
    { unfold v. rewrite Fwd_Ba_eq. fold v. rewrite EH.
      apply nonlinearAdaptation_fin; lra. }
    assert (ViewingConditions.Nbb unit_conditions = Fin 1) as HNbb
      by reflexivity.
    assert (1 <> 0) as Hne by lra.
    destruct (Hfwd _ _ _ _ _ _ 1 ERa EGa EBa HNbb Hne) as (Ea & Eb & Ep).
    do 3 eexists. repeat split; eassumption.
Defined.

(* ================================================================== *)
(** * Further properties: the compression of the cone responses *)
(* ================================================================== *)



(** X2. For Fl > 0 and a cone response r with Fl |r| <= 10^8, the
    compressed response is finite and within 370 of the offset 0.1: at
    least 0.1 for r >= 0, at most 0.1 for r <= 0, equal to 0.1 for r = 0;
    and the compression of -r is its mirror image about 0.1. *)
Theorem nonlinearAdaptation_range (r fl : R) :
  0 < fl -> fl * Rabs r <= 100000000 ->
  exists v w,
    nonlinearAdaptation (Fin r) (Fin fl) = Fin v /\
    nonlinearAdaptation (Fin (- r)) (Fin fl) = Fin w /\
    Rabs (v - 0.1) <= 370 /\
    (0 <= r -> 0.1 <= v) /\ (r <= 0 -> v <= 0.1) /\ (r = 0 -> v = 0.1) /\
    w - 0.1 = - (v - 0.1).
Proof.
  intros Hfl Hmag.
  destruct (Req_dec r 0) as [-> | Hr].
  - exists 0.1, 0.1. rewrite Ropp_0, nonlinearAdaptation_zero.
    repeat split; try lra.
    replace (0.1 - 0.1) with 0 by lra. rewrite Rabs_R0. lra.
  - exists (compress fl r), (compress fl (- r)).
    rewrite !nonlinearAdaptation_fin by lra.
    split; [reflexivity|]. split; [reflexivity|].
    assert (forall s, 0 < s -> fl * s <= 100000000 ->
              0 < 400 * Rpower (fl * s / 100) 0.42
                  / (Rpower (fl * s / 100) 0.42 + 27.13) <= 370) as Hbound.
    { intros s Hs Hm. pose proof (Rpower_pos (fl * s / 100) 0.42) as HP.
      assert (0 < fl * s / 100 <= 1000000) as Hx.
      { split; [apply Rdiv_lt_0_compat; nra | lra]. }
      assert (Rpower (fl * s / 100) 0.42 <= 332) as HP'.
      { apply Rle_trans with (Rpower 1000000 0.42).
        - apply Rle_Rpower_l; lra.
        - replace 0.42 with (INR 21 / INR 50) by (simpl; lra).
          apply Rpower_le_root; try lra; lia. }
      set (P := Rpower (fl * s / 100) 0.42) in *. split.
      - apply Rdiv_lt_0_compat; lra.
      - apply Rle_trans with (400 * 332 / (332 + 27.13)); [|lra].
        apply compression_ratio_mono. lra. }
    destruct (Rlt_le_dec 0 r) as [Hpos | Hneg].
    + rewrite (compress_pos fl Hpos).
      assert (- r < 0) as Hn by lra. rewrite (compress_neg fl Hn).
      rewrite Ropp_involutive.
      rewrite Rabs_pos_eq in Hmag by lra.
      pose proof (Hbound r Hpos Hmag) as HB.
      set (F := 400 * Rpower (fl * r / 100) 0.42
                / (Rpower (fl * r / 100) 0.42 + 27.13)) in *.
      repeat split; try lra.
      replace (F + 0.1 - 0.1) with F by lra. rewrite Rabs_pos_eq; lra.
    + assert (r < 0) as Hn by lra. rewrite (compress_neg fl Hn).
      assert (0 < - r) as Hp by lra. rewrite (compress_pos fl Hp).
      rewrite Rabs_left in Hmag by lra.
      pose proof (Hbound (- r) Hp Hmag) as HB.
      set (F := 400 * Rpower (fl * - r / 100) 0.42
                / (Rpower (fl * - r / 100) 0.42 + 27.13)) in *.
      repeat split; try lra.
      replace (- F + 0.1 - 0.1) with (- F) by lra.
      rewrite Rabs_left; lra.
Qed.

Lemma nonlinearAdaptation_range_witness :
  exists v w,
    nonlinearAdaptation (Fin 50) (Fin 0.68) = Fin v /\
    nonlinearAdaptation (Fin (- 50)) (Fin 0.68) = Fin w /\
    Rabs (v - 0.1) <= 370 /\ 0.1 <= v /\ w - 0.1 = - (v - 0.1).
Proof.
  assert (0 < 0.68) as Hfl by lra.
  assert (0.68 * Rabs 50 <= 100000000) as Hmag
    by (rewrite Rabs_pos_eq; lra).
  destruct (nonlinearAdaptation_range 50 Hfl Hmag)
    as (v & w & Ev & Ew & Hv & Hpos & _ & _ & Hw).
  exists v, w. repeat split; try assumption. apply Hpos. lra.
Defined.



(* ================================================================== *)
(** * Further properties: viewing conditions *)
(* ================================================================== *)

(** X4. For every adapting luminance between 10^-6 and 10^6, whatever the
    other inputs are, [makeViewingConditions] succeeds with
    k = 1 / (5 La + 1) strictly between 0 and 1 and a finite luminance
    adaptation factor with 0 < Fl < 0.2 + 0.1 (5 La)^(1/3) and Fl < 17.3. *)
Theorem makeViewingConditions_Fl_positive :
  forall (La : R) (Yb : number) (whitePoint : XYZ.t)
         (surround : option SurroundCondition),
    0.000001 <= La <= 1000000 ->
    exists vc fl,
      makeViewingConditions (Fin La) Yb whitePoint surround = Success vc /\
      ViewingConditions.k vc = Fin (1 / (5 * La + 1)) /\
      0 < 1 / (5 * La + 1) < 1 /\
      ViewingConditions.Fl vc = Fin fl /\
      0 < fl < 0.2 + 0.1 * Rpower (5 * La) (1 / 3) /\
      fl < 17.3.
Proof.
  intros La Yb wp surround [HLa HLa'].
  rewrite makeViewingConditions_success. cbv zeta.
  set (s := match surround with Some s' => s' | None => average end).
  set (mv := makeViewingConditions_locals (Fin La) Yb wp s).
  cbn [ViewingConditions.k ViewingConditions.Fl].
  set (k := 1 / (5 * La + 1)).
  assert (0 < k < 1) as Hk.
  { unfold k. split.
    - apply Rdiv_lt_0_compat; lra.
    - apply Rmult_lt_reg_r with (5 * La + 1); [lra|].
      unfold Rdiv. rewrite Rmult_assoc, Rinv_l by lra. lra. }
  assert (Mvc.k mv = Fin k) as Ek.
  { unfold mv. rewrite Mvc_k_eq. cbn [nmul nadd]. apply ndiv_fin. lra. }
  set (k4 := k * k * k * k).
  assert (0 < k4 < 1) as Hk4.
  { unfold k4. assert (0 < k * k < 1) by nra. nra. }
  assert (k4 * (5 * La) < 1) as Hprod.
  { assert (k * (5 * La) < 1) as H1.
    { unfold k. apply Rmult_lt_reg_r with (5 * La + 1); [lra|].
      replace (1 / (5 * La + 1) * (5 * La) * (5 * La + 1)) with (5 * La)
        by (field; lra). lra. }
    assert (0 < k * k * k < 1) as H3.
    { assert (0 < k * k < 1) by nra. nra. }
    unfold k4.
    replace (k * k * k * k * (5 * La)) with (k * k * k * (k * (5 * La)))
      by ring.
    assert (0 < k * (5 * La)) by (apply Rmult_lt_0_compat; lra).
    nra. }
  assert (Rpower (5 * La) (1 / 3) <= 171) as Hcube.
  { apply Rle_trans with (Rpower 5000000 (1 / 3)).
    - apply Rle_Rpower_l; lra.
    - replace (1 / 3) with (INR 1 / INR 3) by (simpl; lra).
      apply Rpower_le_root; try lra; lia. }
  eexists. exists (0.2 * k4 * (5 * La)
                   + 0.1 * Rpower (1 + - k4) 2 * Rpower (5 * La) (1 / 3)).
  split; [reflexivity|]. split; [exact Ek|]. split; [exact Hk|]. split.
  - unfold mv. rewrite Mvc_Fl_eq, Mvc_k4_eq. fold mv. rewrite Ek.
    cbn [nmul nadd nsub nneg]. fold k4.
    rewrite ndiv_fin by lra.
    rewrite !Math_pow_pos by lra. reflexivity.
  - pose proof (Rpower_pos (1 + - k4) 2) as P1.
    pose proof (Rpower_pos (5 * La) (1 / 3)) as P2.
    assert (Rpower (1 + - k4) 2 < 1) as P1'.
    { replace 2 with (INR 2) by (simpl; lra).
      rewrite Rpower_pow by lra. simpl. nra. }
    assert (0.2 * k4 * (5 * La) < 0.2) by nra.
    assert (0.1 * Rpower (1 + - k4) 2 * Rpower (5 * La) (1 / 3)
            < 0.1 * Rpower (5 * La) (1 / 3)) by nra.
    split; [split|].
    + assert (0 < 0.2 * k4 * (5 * La)) by
        (apply Rmult_lt_0_compat; [apply Rmult_lt_0_compat|]; lra).
      assert (0 < 0.1 * Rpower (1 + - k4) 2 * Rpower (5 * La) (1 / 3)) by
        (apply Rmult_lt_0_compat; [apply Rmult_lt_0_compat|]; lra).
      lra.
    + lra.
    + lra.
Qed.

Lemma makeViewingConditions_Fl_positive_witness :
  exists vc fl,
    makeViewingConditions #64 #20 D65_WHITE_POINT None = Success vc /\
    ViewingConditions.k vc = Fin (1 / (5 * 64 + 1)) /\
    ViewingConditions.Fl vc = Fin fl /\
    0 < fl < 0.2 + 0.1 * Rpower (5 * 64) (1 / 3).
Proof.
  assert (0.000001 <= 64 <= 1000000) as H by lra.
  destruct (makeViewingConditions_Fl_positive #20 D65_WHITE_POINT None H)
    as (vc & fl & Hvc & Ek & _ & EFl & Hfl & _).
  exists vc, fl. repeat split; try assumption; apply Hfl.
Defined.

(** X5. For every adapting luminance above -42 the clamp of the degree of
    adaptation takes no effect: D = F (1 - e^((-La - 42)/92) / 3.6), with F
    the factor of the requested surround (1.0 for average and for the
    default, 0.9 for dim, 0.8 for dark), and D lies between F (1 - 1/3.6)
    and F, both included. *)
Theorem makeViewingConditions_D_unclamped :
  forall (La : R) (Yb : number) (whitePoint : XYZ.t)
         (surround : option SurroundCondition),
    - 42 < La ->
    let f := match surround with
             | Some dim => 0.9
             | Some dark => 0.8
             | Some average | None => 1.0
             end in
    exists vc,
      makeViewingConditions (Fin La) Yb whitePoint surround = Success vc /\
      SurroundParameters.F (ViewingConditions.surround vc) = Fin f /\
      ViewingConditions.D vc
      = Fin (f * (1 - 1 / 3.6 * exp ((- La - 42) / 92))) /\
      f * (1 - 1 / 3.6) <= f * (1 - 1 / 3.6 * exp ((- La - 42) / 92)) <= f.
Proof.
  intros La Yb wp surround HLa f.
  rewrite makeViewingConditions_success. cbv zeta.
  set (s := match surround with Some s' => s' | None => average end).
  set (mv := makeViewingConditions_locals (Fin La) Yb wp s).
  cbn [ViewingConditions.D ViewingConditions.surround].
  assert (SurroundParameters.F (resolveSurround s) = Fin f) as Ef.
  { unfold s, f. destruct surround as [[| |]|]; reflexivity. }
  assert (0.8 <= f <= 1) as Hf.
  { unfold f. destruct surround as [[| |]|]; lra. }
  set (E := exp ((- La - 42) / 92)).
  assert (0 < E < 1) as HE.
  { unfold E. split; [apply exp_pos|].
    rewrite <- exp_0. apply exp_increasing.
    apply Rmult_lt_reg_r with 92; [lra|].
    unfold Rdiv. rewrite Rmult_assoc, Rinv_l by lra. lra. }
  eexists. split; [reflexivity|]. split; [exact Ef|].
  assert (f * (1 - 1 / 3.6) <= f * (1 - 1 / 3.6 * E) <= f) as Hd by nra.
  split; [|exact Hd].
  unfold mv. rewrite Mvc_Dclamp_eq, Mvc_D_eq, Ef.
  rewrite ndiv_fin by lra. cbn [nneg nsub nadd].
  rewrite ndiv_fin by lra. cbn [Math_exp nmul nsub nneg nadd].
  rewrite Math_min_fin, Math_max_fin.
  change (exp ((- La + - (42)) / 92)) with E.
  change (1 + - (1 / 3.6 * E)) with (1 - 1 / 3.6 * E).
  rewrite Rmin_right by lra. rewrite Rmax_right by lra. reflexivity.
Qed.

Lemma makeViewingConditions_D_unclamped_witness :
  exists vc,
    makeViewingConditions #64 #20 D65_WHITE_POINT (Some dim) = Success vc /\
    SurroundParameters.F (ViewingConditions.surround vc) = Fin 0.9 /\
    ViewingConditions.D vc
    = Fin (0.9 * (1 - 1 / 3.6 * exp ((- 64 - 42) / 92))) /\
    0.9 * (1 - 1 / 3.6) <= 0.9 * (1 - 1 / 3.6 * exp ((- 64 - 42) / 92)) <= 0.9.
Proof.
  assert (- 42 < 64) as H by lra.
  exact (makeViewingConditions_D_unclamped #20 D65_WHITE_POINT (Some dim) H).
Defined.

(* ================================================================== *)
(** * Further properties: eccentricity, matrices, hue *)
(* ================================================================== *)

(** X6. The values of [eccentricityFactor] leave the range [0.7, 1.2] of the
    table of eccentricities on both sides: on hues of the third quadrant
    the factor is at least 1.68, and on the first segment it is at most
    0.0164 (h - 20.14), so that it is 0 at h = 20.14. *)
Theorem eccentricityFactor_outside_table_range :
  (forall h : R,
     180 < h < 270 ->
     exists e, eccentricityFactor (Fin h) = Fin e /\ 1.68 <= e) /\
  (forall h : R,
     20.14 <= h < 90 ->
     exists e, eccentricityFactor (Fin h) = Fin e /\
               0 <= e <= 0.0164 * (h - 20.14)) /\
  eccentricityFactor #20.14 = Fin 0.
Proof.
  split; [exact eccentricityFactor_third_quadrant|].
  split; [exact eccentricityFactor_first_segment|].
  assert (20.14 <= 20.14 < 90) as H by lra.
  destruct (eccentricityFactor_first_segment H) as (e & Ee & He).
  rewrite Ee. f_equal. lra.
Qed.

Lemma eccentricityFactor_outside_table_range_witness :
  (exists e, eccentricityFactor #210 = Fin e /\ 1.68 <= e) /\
  (exists e, eccentricityFactor #30 = Fin e /\ 0 <= e <= 0.0164 * (30 - 20.14)).
Proof.
  destruct eccentricityFactor_outside_table_range as (H3 & H1 & _).
  split; [apply H3 | apply H1]; lra.
Defined.

(** X7. The four matrices are inverse to each other only up to the rounding of
    their printed entries. On vectors with components in [-b, b], the
    inverse CAT02 matrix undoes the CAT02 matrix to within 10^-6 b per
    component, and the chain CAT02 . HPE^-1 . HPE . CAT02^-1, which a round
    trip applies to the adapted cone responses, is the identity to within
    2 10^-6 b. *)
Theorem matrices_inverse_up_to_rounding (x y z b : R) :
  - b <= x <= b -> - b <= y <= b -> - b <= z <= b ->
  (exists x' y' z',
     multiplyMatrixVec M_CAT02_INV
       (multiplyMatrixVec M_CAT02 (Fin x, Fin y, Fin z))
     = (Fin x', Fin y', Fin z') /\
     Rabs (x' - x) <= 0.000001 * b /\
     Rabs (y' - y) <= 0.000001 * b /\
     Rabs (z' - z) <= 0.000001 * b) /\
  (exists x' y' z',
     multiplyMatrixVec M_CAT02
       (multiplyMatrixVec M_HPE_INV
          (multiplyMatrixVec M_HPE
             (multiplyMatrixVec M_CAT02_INV (Fin x, Fin y, Fin z))))
     = (Fin x', Fin y', Fin z') /\
     Rabs (x' - x) <= 0.000002 * b /\
     Rabs (y' - y) <= 0.000002 * b /\
     Rabs (z' - z) <= 0.000002 * b).
Proof.
  intros Hx Hy Hz. split.
  - do 3 eexists. split; [reflexivity|].
    repeat split; apply Rabs_le; lra.
  - do 3 eexists. split; [reflexivity|].
    repeat split; apply Rabs_le; lra.
Qed.

Lemma matrices_inverse_up_to_rounding_witness :
  exists x' y' z',
    multiplyMatrixVec M_CAT02_INV
      (multiplyMatrixVec M_CAT02 (#19.31, #23.93, #10.14))
    = (Fin x', Fin y', Fin z') /\
    Rabs (x' - 19.31) <= 0.000001 * 100.
Proof.
  destruct (@matrices_inverse_up_to_rounding 19.31 23.93 10.14 100)
    as ((x' & y' & z' & E & Hx & _) & _); try lra.
  exists x', y', z'. split; assumption.
Defined.

(** [Math.atan2] returns [NaN] or an angle in [-PI, PI]. *)
Lemma Math_atan2_range (y x : number) :
  Math_atan2 y x = NaN \/
  exists t, Math_atan2 y x = Fin t /\ - PI <= t <= PI.
Proof.
  pose proof PI_RGT_0 as Hpi.
  destruct y as [b| | |], x as [a| | |]; cbn [Math_atan2];
    try (left; reflexivity);
    try (right; eexists; split; [reflexivity | lra]).
  - (* finite, finite *)
    pose proof (atan_bound (b / a)) as [Hlo Hhi].
    destruct (Rlt_dec 0 a) as [Ha | Ha].
    + rewrite Rltb_true by exact Ha.
      right. eexists. split; [reflexivity | lra].
    + rewrite Rltb_false by lra.
      destruct (Rlt_dec a 0) as [Ha' | Ha'].
      * rewrite Rltb_true by exact Ha'.
        destruct (Rlt_dec b 0) as [Hb | Hb].
        -- rewrite Rltb_true by exact Hb.
           assert (0 < atan (b / a)).
           { rewrite <- atan_0. apply atan_increasing.
             replace (b / a) with ((- b) / (- a)) by (field; lra).
             apply Rdiv_lt_0_compat; lra. }
           right. eexists. split; [reflexivity | lra].
        -- rewrite Rltb_false by lra.
           assert (atan (b / a) <= 0).
           { rewrite <- atan_0.
             destruct (Req_dec b 0) as [-> | Hb0].
             - unfold Rdiv. rewrite Rmult_0_l. lra.
             - apply Rlt_le, atan_increasing.
               replace (b / a) with (- (b / (- a))) by (field; lra).
               assert (0 < b / - a) by (apply Rdiv_lt_0_compat; lra).
               lra. }
           right. eexists. split; [reflexivity | lra].
      * rewrite Rltb_false by lra.
        destruct (Rlt_dec 0 b) as [Hb | Hb].
        -- rewrite Rltb_true by exact Hb.
           right. eexists. split; [reflexivity | lra].
        -- rewrite Rltb_false by lra.
           destruct (Rlt_dec b 0) as [Hb' | Hb'].
           ++ rewrite Rltb_true by exact Hb'.
              right. eexists. split; [reflexivity | lra].
           ++ rewrite Rltb_false by lra.
              right. eexists. split; [reflexivity | lra].
  - (* finite, -Infinity *)
    destruct (Rltb b 0); right; eexists; (split; [reflexivity | lra]).
Qed.

(** X8. The hue angle that [forward] returns is [NaN] or lies in
    [0, 360], both ends included, whatever the stimulus, the white point and
    the conditions are. *)
Theorem forward_hue_range :
  forall xyz whitePoint conditions r,
    forward xyz whitePoint conditions = Success r ->
    AppearanceCorrelates.h r = NaN \/
    exists h, AppearanceCorrelates.h r = Fin h /\ 0 <= h <= 360.
Proof.
  intros xyz wp cond r Hr. apply forward_result in Hr. subst r.
  cbv zeta. cbn [AppearanceCorrelates.h]. rewrite Fwd_h_eq. cbv zeta.
  pose proof PI_RGT_0 as Hpi.
  unfold RAD_TO_DEG, Math_PI. rewrite ndiv_fin by lra.
  destruct (Math_atan2_range (Fwd.b (forward_locals xyz wp cond))
              (Fwd.a (forward_locals xyz wp cond)))
    as [-> | (t & -> & Ht)].
  - left. reflexivity.
  - right. cbn [nmul nlt].
    set (u := t / PI).
    assert (t * (180 / PI) = 180 * u) as E by (unfold u; field; lra).
    assert (- 1 <= u <= 1) as Hu.
    { unfold u. split.
      - apply Rmult_le_reg_r with PI; [lra|].
        unfold Rdiv. rewrite Rmult_assoc, Rinv_l by lra. lra.
      - apply Rmult_le_reg_r with PI; [lra|].
        unfold Rdiv. rewrite Rmult_assoc, Rinv_l by lra. lra. }
    rewrite E.
    destruct (Rlt_dec (180 * u) 0) as [Hneg | Hpos].
    + rewrite Rltb_true by exact Hneg. cbn [nadd].
      eexists. split; [reflexivity | lra].
    + rewrite Rltb_false by lra.
      eexists. split; [reflexivity | lra].
Qed.

Lemma forward_hue_range_witness :
  exists r,
    forward (XYZ.mk #19.31 #23.93 #10.14) D65_WHITE_POINT unit_conditions
    = Success r /\
    (AppearanceCorrelates.h r = NaN \/
     exists h, AppearanceCorrelates.h r = Fin h /\ 0 <= h <= 360).
Proof.
  eexists. split; [apply forward_success|].
  apply (@forward_hue_range (XYZ.mk #19.31 #23.93 #10.14) D65_WHITE_POINT
           unit_conditions).
  apply forward_success.
Defined.

(* ================================================================== *)
(** * Further properties: batches and non-numbers *)
(* ================================================================== *)

Lemma forEach_app (A B E : Type) (f : A -> Effect B E) (xs ys : list A) :
  Effect_forEach (xs ++ ys) f =
  match Effect_forEach xs f with
  | Failure e => Failure e
  | Success out1 =>
      match Effect_forEach ys f with
      | Failure e => Failure e
      | Success out2 => Success (out1 ++ out2)
      end
  end.
Proof.
  induction xs as [|x rest IH]; cbn [app Effect_forEach].
  - destruct (Effect_forEach ys f); reflexivity.
  - destruct (f x) as [y | e]; [|reflexivity].
    rewrite IH. destruct (Effect_forEach rest f) as [out1 | e]; [|reflexivity].
    destruct (Effect_forEach ys f); reflexivity.
Qed.

(** X16. A batch that is the concatenation of two batches is compensated as the
    first batch followed by the second: a failure of the first batch is the
    failure of the whole (the second is not looked at), otherwise a failure
    of the second is, and otherwise the results are concatenated. *)
Theorem compensateBatch_concatenation :
  forall (culori_xyz65 : CuloriOklch.t -> option CuloriXyz65.t)
         (culori_oklch : CuloriXyz65.t -> option CuloriOklch.t)
         (clampToGamut : OKLCHColor.t -> Effect OKLCHColor.t string)
         (colors1 colors2 : list OKLCHColor.t)
         (sourceBg targetBg : OKLCHColor.t),
  let batch colors :=
    compensateBatch culori_xyz65 culori_oklch clampToGamut
      colors sourceBg targetBg in
  batch (colors1 ++ colors2) =
  match batch colors1 with
  | Failure e => Failure e
  | Success out1 =>
      match batch colors2 with
      | Failure e => Failure e
      | Success out2 => Success (out1 ++ out2)
      end
  end.
Proof.
  intros. unfold batch, compensateBatch. apply forEach_app.
Qed.

(** X9. A [NaN] among the three tristimulus components of the stimulus reaches
    every correlate: hue, chroma, colourfulness and saturation are [NaN],
    and so are lightness and brightness unless the exponent c z is zero. *)
Theorem forward_NaN_stimulus :
  forall xyz whitePoint conditions r,
    XYZ.X xyz = NaN \/ XYZ.Y xyz = NaN \/ XYZ.Z xyz = NaN ->
    forward xyz whitePoint conditions = Success r ->
    AppearanceCorrelates.h r = NaN /\
    AppearanceCorrelates.C r = NaN /\
    AppearanceCorrelates.M r = NaN /\
    AppearanceCorrelates.s r = NaN /\
    (forall e : R,
       (SurroundParameters.c (ViewingConditions.surround conditions)
        * ViewingConditions.z conditions)%num = Fin e ->
       e <> 0 ->
       AppearanceCorrelates.J r = NaN /\ AppearanceCorrelates.Q r = NaN).
Proof.
  intros xyz wp cond r Hnan Hr. apply forward_result in Hr. subst r.
  cbv zeta.
  cbn [AppearanceCorrelates.h AppearanceCorrelates.C AppearanceCorrelates.M
       AppearanceCorrelates.s AppearanceCorrelates.J AppearanceCorrelates.Q].
  set (v := forward_locals xyz wp cond).
  assert (Fwd.rgb v = (NaN, NaN, NaN)) as Ergb.
  { unfold v. rewrite Fwd_rgb_eq. unfold multiplyMatrixVec.
    cbn [at0 at1 at2 fst snd].
    destruct Hnan as [-> | [-> | ->]]; nsimpl; reflexivity. }
  assert (Fwd.rgbHpe v = (NaN, NaN, NaN)) as EH.
  { unfold v. rewrite Fwd_rgbHpe_eq, Fwd_rgc_eq. fold v. rewrite Ergb.
    cbv zeta. nsimpl. rewrite !multiplyMatrixVec_NaN. reflexivity. }
  assert (Fwd.Ra v = NaN) as ERa.
  { unfold v. rewrite Fwd_Ra_eq. fold v. rewrite EH.
    apply nonlinearAdaptation_NaN. }
  assert (Fwd.Ga v = NaN) as EGa.
  { unfold v. rewrite Fwd_Ga_eq. fold v. rewrite EH.
    apply nonlinearAdaptation_NaN. }
  assert (Fwd.a v = NaN) as Ea.
  { unfold v. rewrite Fwd_a_eq. fold v. rewrite ERa. reflexivity. }
  assert (Fwd.b v = NaN) as Eb.
  { unfold v. rewrite Fwd_b_eq. fold v. rewrite ERa. reflexivity. }
  assert (Fwd.h v = NaN) as Eh.
  { unfold v. rewrite Fwd_h_eq. fold v. rewrite Ea, Eb. reflexivity. }
  assert (Fwd.t v = NaN) as Et.
  { unfold v. rewrite Fwd_t_eq. fold v. rewrite ERa. nsimpl. reflexivity. }
  assert (Fwd.C v = NaN) as EC.
  { unfold v. rewrite Fwd_C_eq. fold v. rewrite Et.
    rewrite Math_pow_NaN by lra. reflexivity. }
  assert (Fwd.M v = NaN) as EM.
  { unfold v. rewrite Fwd_M_eq. fold v. rewrite EC. reflexivity. }
  assert (Fwd.s v = NaN) as Es.
  { unfold v. rewrite Fwd_s_eq. fold v. rewrite EM.
    cbn [ndiv]. rewrite Math_pow_NaN by lra. nsimpl. reflexivity. }
  split; [exact Eh|]. split; [exact EC|]. split; [exact EM|].
  split; [exact Es|].
  intros e He Hne.
  assert (Fwd.J v = NaN) as EJ.
  { unfold v. rewrite Fwd_J_eq, Fwd_A_eq. fold v. rewrite ERa, He.
    cbn [nmul nadd nsub ndiv]. rewrite Math_pow_NaN by exact Hne.
    nsimpl. reflexivity. }
  split; [exact EJ|].
  unfold v. rewrite Fwd_Q_eq. fold v. rewrite EJ.
  cbn [ndiv]. rewrite Math_pow_NaN by lra. nsimpl. reflexivity.
Qed.

Lemma forward_NaN_stimulus_witness :
  exists r,
    forward (XYZ.mk #19.31 NaN #10.14) D65_WHITE_POINT unit_conditions
    = Success r /\
    AppearanceCorrelates.h r = NaN /\ AppearanceCorrelates.J r = NaN.
Proof.
  eexists. split; [apply forward_success|].
  destruct (@forward_NaN_stimulus (XYZ.mk #19.31 NaN #10.14) D65_WHITE_POINT
              unit_conditions _ (or_intror (or_introl eq_refl))
              (forward_success _ _ _))
    as (Eh & _ & _ & _ & HJ).
  split; [exact Eh|].
  apply (HJ (0.69 * 2.48)).
  - reflexivity.
  - lra.
Defined.

(* ================================================================== *)
(** * Further properties: black backgrounds *)
(* ================================================================== *)

(** An infinite factor divided by an infinity is [NaN], whatever the other
    factor was. *)
Lemma times_infinity_over_infinity (s : number) :
  ((s * PosInf) / PosInf)%num = NaN /\ ((PosInf * s) / PosInf)%num = NaN.
Proof.
  destruct s as [a| | |]; cbn [nmul ndiv]; try (split; reflexivity).
  unfold inf_times. destruct (Reqb a 0); [split; reflexivity|].
  destruct (xorb false (Rltb a 0)); split; reflexivity.
Qed.

(** Once [p2] is [NaN], so is every component of the result. *)
Lemma inverse_locals_p2_NaN cor wp cond :
  Inv.p2 (inverse_locals cor wp cond) = NaN ->
  Inv.xyzVec (inverse_locals cor wp cond) = (NaN, NaN, NaN).
Proof.
  intros Hp.
  rewrite Inv_xyzVec_eq, Inv_rgb_eq, Inv_rgc_eq, Inv_rgbHpe_eq.
  rewrite Inv_Ra_eq, Inv_Ga_eq, Inv_Ba_eq.
  rewrite Hp. cbv zeta. nsimpl.
  rewrite !inverseNonlinearAdaptation_NaN, !multiplyMatrixVec_NaN.
  nsimpl. rewrite ?multiplyMatrixVec_NaN. reflexivity.
Qed.

(** The white responses that [makeViewingConditions] computes for screen
    viewing under D65 do not depend on the background: they are finite and
    above the offset 0.1 for every Yb, a number or not. *)
Lemma makeViewingConditions_white_responses_64
  (Yb : number) (s : SurroundCondition) :
  let mv := makeViewingConditions_locals #64 Yb D65_WHITE_POINT s in
  exists d ra ga ba : R,
    Mvc.Dclamp mv = Fin d /\ 0 <= d <= 1 /\
    Mvc.Fl mv = Fin Fl_64 /\
    Mvc.whiteRa mv = Fin ra /\ Mvc.whiteGa mv = Fin ga /\
    Mvc.whiteBa mv = Fin ba /\
    0.1 < ra /\ 0.1 < ga /\ 0.1 < ba.
Proof.
  intros mv.
  destruct (resolveSurround_F s) as [f [Ef Hf]].
  assert (exists d, Mvc.Dclamp mv = Fin d /\ 0 <= d <= 1) as (d & ED & Hd).
  { eexists. split.
    - unfold mv. rewrite Mvc_Dclamp_eq, Mvc_D_eq, Ef.
      rewrite ndiv_fin by lra. cbn [nneg nsub nadd].
      rewrite ndiv_fin by lra. cbn [Math_exp nmul nsub nneg nadd].
      rewrite Math_min_fin, Math_max_fin. reflexivity.
    - split; [apply Rmax_l | apply Rmax_lub; [lra | apply Rmin_l]]. }
  pose proof Fl_64_bounds as HFl.
  pose proof (makeViewingConditions_Fl_64 Yb D65_WHITE_POINT s) as EFl.
  fold mv in EFl.
  pose proof (@makeViewingConditions_whiteRgbHpe_D65 #64 Yb s d ED) as EH.
  fold mv in EH. cbv zeta in EH.
  destruct (adapted_white_D65_bounds Hd) as (H0 & H1 & H2).
  cbv zeta in H0, H1, H2.
  set (h0 := hpe0 _ _ _) in *. set (h1 := hpe1 _ _ _) in *.
  set (h2 := hpe2 _ _ _) in *.
  exists d, (compress Fl_64 h0), (compress Fl_64 h1), (compress Fl_64 h2).
  split; [exact ED|]. split; [exact Hd|]. split; [exact EFl|].
  split; [|split; [|split]].
  - unfold mv. rewrite Mvc_whiteRa_eq. fold mv. rewrite EH, EFl.
    apply nonlinearAdaptation_fin; lra.
  - unfold mv. rewrite Mvc_whiteGa_eq. fold mv. rewrite EH, EFl.
    apply nonlinearAdaptation_fin; lra.
  - unfold mv. rewrite Mvc_whiteBa_eq. fold mv. rewrite EH, EFl.
    apply nonlinearAdaptation_fin; lra.
  - repeat split; apply compress_gt_offset; lra.
Qed.

(** The conditions of screen viewing on a background of zero luminance. *)
Lemma makeViewingConditions_black_background (s : SurroundCondition) :
  let mv := makeViewingConditions_locals #64 #0 D65_WHITE_POINT s in
  Mvc.n mv = Fin 0 /\ Mvc.Nbb mv = PosInf /\ Mvc.Aw mv = PosInf /\
  exists e, (SurroundParameters.c (Mvc.surroundParams mv) * Mvc.z mv)%num
            = Fin e /\ e <> 0.
Proof.
  intros mv.
  assert (Mvc.n mv = Fin 0) as En.
  { unfold mv. rewrite Mvc_n_eq. cbn [XYZ.Y D65_WHITE_POINT].
    rewrite ndiv_fin by lra. f_equal. lra. }
  assert (Mvc.Nbb mv = PosInf) as ENbb.
  { unfold mv. rewrite Mvc_Nbb_eq. fold mv. rewrite En.
    cbn [ndiv]. rcompare. cbn [Math_pow]. rcompare. cbn [nmul].
    unfold inf_times. rcompare. reflexivity. }
  split; [exact En|]. split; [exact ENbb|]. split.
  - destruct (makeViewingConditions_white_responses_64 #0 s)
      as (d & ra & ga & ba & _ & _ & _ & ERa & EGa & EBa & Hra & Hga & Hba).
    fold mv in ERa, EGa, EBa.
    unfold mv. rewrite Mvc_Aw_eq. fold mv.
    rewrite ERa, EGa, EBa, ENbb. rewrite ndiv_fin by lra.
    cbn [nmul nadd nsub nneg]. unfold inf_times.
    rewrite Reqb_false by lra. rewrite Rltb_false by lra. reflexivity.
  - exists (match s with average => 0.69 | dim => 0.59 | dark => 0.525 end
            * (1.48 + sqrt 0)).
    split.
    + unfold mv at 2. rewrite Mvc_z_eq. fold mv. rewrite En.
      rewrite Math_sqrt_fin by lra.
      destruct s; reflexivity.
    + rewrite sqrt_0. destruct s; lra.
Qed.

(** X10. On a background of zero luminance the viewing conditions of screen
    viewing have n = 0 and infinite Nbb and Aw, and [forward] gives every
    stimulus, under every white point, the lightness [NaN]. *)
Theorem forward_black_background (surround : option SurroundCondition) :
  exists vc,
    makeViewingConditions SCREEN_ADAPTING_LUMINANCE #0 D65_WHITE_POINT surround
    = Success vc /\
    ViewingConditions.n vc = Fin 0 /\
    ViewingConditions.Nbb vc = PosInf /\
    ViewingConditions.Aw vc = PosInf /\
    forall xyz whitePoint,
    exists r,
      forward xyz whitePoint vc = Success r /\
      AppearanceCorrelates.J r = NaN.
Proof.
  rewrite makeViewingConditions_success. eexists. split; [reflexivity|].
  cbv zeta.
  set (s := match surround with Some s' => s' | None => average end).
  destruct (makeViewingConditions_black_background s)
    as (En & ENbb & EAw & e & Ee & He).
  cbv zeta in En, ENbb, EAw, Ee.
  cbn [ViewingConditions.n ViewingConditions.Nbb ViewingConditions.Aw].
  unfold SCREEN_ADAPTING_LUMINANCE.
  split; [exact En|]. split; [exact ENbb|]. split; [exact EAw|].
  intros xyz wp. rewrite forward_success. eexists. split; [reflexivity|].
  cbv zeta. cbn [AppearanceCorrelates.J].
  rewrite Fwd_J_eq, Fwd_A_eq.
  cbn [ViewingConditions.Nbb ViewingConditions.Aw ViewingConditions.surround
       ViewingConditions.z].
  rewrite ENbb, EAw, Ee.
  rewrite (proj1 (times_infinity_over_infinity _)).
  rewrite Math_pow_NaN by exact He. reflexivity.
Qed.

(** Under conditions whose Nbb and Aw are infinite, [forward] returns the
    lightness [NaN] and [inverse] the tristimulus value (NaN, NaN, NaN). *)
Lemma forward_lightness_infinite_Aw xyz wp cond (e : R) :
  ViewingConditions.Nbb cond = PosInf ->
  ViewingConditions.Aw cond = PosInf ->
  (SurroundParameters.c (ViewingConditions.surround cond)
   * ViewingConditions.z cond)%num = Fin e ->
  e <> 0 ->
  Fwd.J (forward_locals xyz wp cond) = NaN.
Proof.
  intros HNbb HAw He Hne.
  rewrite Fwd_J_eq, Fwd_A_eq, HNbb, HAw, He.
  rewrite (proj1 (times_infinity_over_infinity _)).
  rewrite Math_pow_NaN by exact Hne. reflexivity.
Qed.

Lemma inverse_infinite_Aw cor wp cond :
  ViewingConditions.Nbb cond = PosInf ->
  ViewingConditions.Aw cond = PosInf ->
  inverse cor wp cond = Success (XYZ.mk NaN NaN NaN).
Proof.
  intros HNbb HAw. rewrite inverse_success.
  rewrite inverse_locals_p2_NaN; [reflexivity|].
  rewrite Inv_p2_eq, Inv_A_eq, HNbb, HAw.
  rewrite (proj2 (times_infinity_over_infinity _)). reflexivity.
Qed.

(** X15. When the source or the target background has zero luminance (pure
    black, or a colour that culori cannot convert), the compensation hands
    the tristimulus value (NaN, NaN, NaN) to the conversion back to OKLCH:
    the result no longer depends on the colour. *)
Theorem compensateForBackground_black_background :
  forall (culori_xyz65 : CuloriOklch.t -> option CuloriXyz65.t)
         (culori_oklch : CuloriXyz65.t -> option CuloriOklch.t)
         (clampToGamut : OKLCHColor.t -> Effect OKLCHColor.t string)
         (color sourceBg targetBg : OKLCHColor.t),
    XYZ.Y (oklchToXyz65 culori_xyz65 sourceBg) = Fin 0 \/
    XYZ.Y (oklchToXyz65 culori_xyz65 targetBg) = Fin 0 ->
    compensateForBackground culori_xyz65 culori_oklch clampToGamut
      color sourceBg targetBg
    = Effect_mapError
        (fun cause =>
           OfContrastCompensation
             (ContrastCompensationError.mk
                "Failed to gamut-clamp compensated color" (Some cause)))
        (clampToGamut (xyz65ToOklch culori_oklch (XYZ.mk NaN NaN NaN))).
Proof.
  intros cx co clamp color sourceBg targetBg H.
  unfold compensateForBackground. cbv zeta.
  rewrite !makeViewingConditions_success. cbv zeta.
  cbn [Effect_mapError Effect_bind].
  rewrite forward_success. cbv zeta. cbn [Effect_mapError Effect_bind].
  cbn [AppearanceCorrelates.J AppearanceCorrelates.C AppearanceCorrelates.h].
  unfold SCREEN_ADAPTING_LUMINANCE.
  destruct (makeViewingConditions_black_background average)
    as (_ & ENbb & EAw & e & Ee & He).
  cbv zeta in ENbb, EAw, Ee.
  destruct H as [H | H]; rewrite H.
  - rewrite (@forward_lightness_infinite_Aw _ _ _ e);
      [| exact ENbb | exact EAw | exact Ee | exact He].
    rewrite inverse_NaN_lightness. reflexivity.
  - rewrite inverse_infinite_Aw; [reflexivity | exact ENbb | exact EAw].
Qed.

Lemma compensateForBackground_black_background_witness :
  let grey := OKLCHColor.mk #0.5 #0 #0 #1 in
  let black := OKLCHColor.mk #0 #0 #0 #1 in
  let culori_xyz65 (c : CuloriOklch.t) :=
    match CuloriOklch.l c with
    | Some l => Some (CuloriXyz65.mk l l l)
    | None => None
    end in
  compensateForBackground culori_xyz65 (fun _ => None) (fun c => Success c)
    grey black grey
  = Success (xyz65ToOklch (fun _ => None) (XYZ.mk NaN NaN NaN)).
Proof.
  intros grey black culori_xyz65.
  rewrite compensateForBackground_black_background.
  - reflexivity.
  - left. cbn. f_equal. lra.
Defined.

(* ================================================================== *)
(** * Further properties: the hue and chroma stages of the round trip *)
(* ================================================================== *)

(** X11. The hue stage of the round trip is exact. When the opponent signals
    (a, b) of [forward] are finite and not both zero, the cosine and the
    sine that [inverse] takes of the returned hue angle are a / sqrt(a^2 +
    b^2) and b / sqrt(a^2 + b^2): the direction of (a, b) is recovered,
    whatever the other correlates and the conditions of [inverse] are. *)
Theorem hue_direction_round_trip :
  forall (xyz whitePoint : XYZ.t) (conditions : ViewingConditions.t)
         (a b : R) (J C : number)
         (whitePoint' : XYZ.t) (conditions' : ViewingConditions.t),
    let fw := forward_locals xyz whitePoint conditions in
    Fwd.a fw = Fin a -> Fwd.b fw = Fin b ->
    a <> 0 \/ b <> 0 ->
    let iv := inverse_locals (JCh.mk J C (Fwd.h fw)) whitePoint' conditions' in
    Inv.cosH iv = Fin (a / sqrt (a * a + b * b)) /\
    Inv.sinH iv = Fin (b / sqrt (a * a + b * b)).
Proof.
  intros xyz wp cond a b J C wp' cond' fw Ea Eb Hab iv.
  pose proof PI_RGT_0 as Hpi.
  destruct (Math_atan2_direction Hab) as (t & Et & Hc & Hs).
  assert (exists h, Fwd.h fw = Fin h /\
                    cos (h * (PI / 180)) = cos t /\
                    sin (h * (PI / 180)) = sin t) as (h & Eh & Hch & Hsh).
  { unfold fw. rewrite Fwd_h_eq. fold fw. rewrite Ea, Eb, Et. cbv zeta.
    unfold RAD_TO_DEG, Math_PI. rewrite ndiv_fin by lra. cbn [nmul nlt].
    destruct (Rlt_dec (t * (180 / PI)) 0) as [Hneg | Hpos].
    - rewrite Rltb_true by exact Hneg. cbn [nadd].
      eexists. split; [reflexivity|].
      replace ((t * (180 / PI) + 360) * (PI / 180)) with (t + 2 * INR 1 * PI)
        by (simpl; field; lra).
      split; [apply cos_period | apply sin_period].
    - rewrite Rltb_false by lra.
      eexists. split; [reflexivity|].
      replace (t * (180 / PI) * (PI / 180)) with t by (field; lra).
      split; reflexivity. }
  unfold iv. rewrite Inv_cosH_eq, Inv_sinH_eq, Inv_hRad_eq.
  cbn [JCh.h]. rewrite Eh.
  unfold DEG_TO_RAD, Math_PI. rewrite ndiv_fin by lra.
  cbn [nmul Math_cos Math_sin].
  rewrite Hch, Hsh, Hc, Hs. split; reflexivity.
Qed.

Lemma hue_direction_round_trip_witness :
  let conditions :=
    ViewingConditions.mk #64 #100 SURROUND_DARK #1 (Fin Fl_64) #1 #0.725
      #0.725 #2.48 #0.7 #27 (#100, #100, #100) in
  let fw := forward_locals D65_WHITE_POINT D65_WHITE_POINT conditions in
  exists a b,
    Fwd.a fw = Fin a /\ Fwd.b fw = Fin b /\ a < 0 /\
    Inv.cosH (inverse_locals (JCh.mk #50 #10 (Fwd.h fw)) D65_WHITE_POINT
                conditions)
    = Fin (a / sqrt (a * a + b * b)).
Proof.
  intros conditions fw.
  assert (0.5777 <= 0.7 <= 0.8) as Hd by lra.
  destruct (@forward_white_D65_responses 0.7 conditions eq_refl eq_refl Hd)
    as (ra & ga & ba & ERa & EGa & EBa & _ & _ & _ & _ & Ha).
  destruct (forward_opponent_fin _ _ _ ERa EGa EBa) as [Ea Eb].
  fold fw in Ea, Eb.
  exists (ra - 12 * ga / 11 + ba / 11), ((ra + ga - 2 * ba) / 9).
  split; [exact Ea|]. split; [exact Eb|]. split; [lra|].
  assert (ra - 12 * ga / 11 + ba / 11 <> 0 \/ (ra + ga - 2 * ba) / 9 <> 0)
    as Hab by (left; lra).
  apply (hue_direction_round_trip D65_WHITE_POINT D65_WHITE_POINT conditions
           #50 #10 D65_WHITE_POINT conditions Ea Eb Hab).
Defined.

(** X12. The chroma stage of [inverse] does not invert that of [forward].
    From finite p1, p2, t and a unit direction (cos h, sin h), [inverse]
    takes the radius gamma = 23 (p2 + 0.305) t / (23 p1 + 11 t cos h +
    108 t sin h) and solves for responses Ra, Ga, Ba that reproduce p2 and
    the opponent signals a = gamma cos h, b = gamma sin h exactly. But p2
    already contains the offset 0.305: the quantity
    p1 sqrt(a^2 + b^2) / (Ra + Ga + 21 Ba / 20), which [forward] calls t,
    comes out as t 23 p1 (p2 + 0.305) / (23 p1 p2 - 0.305 t (11 cos h +
    108 sin h)), strictly more than the t that [inverse] started from. *)
Theorem inverse_chroma_overshoot :
  forall (correlates : JCh.t) (whitePoint : XYZ.t)
         (conditions : ViewingConditions.t) (p1 p2 t c s : R),
    let iv := inverse_locals correlates whitePoint conditions in
    Inv.p1 iv = Fin p1 -> Inv.p2 iv = Fin p2 -> Inv.t iv = Fin t ->
    Inv.cosH iv = Fin c -> Inv.sinH iv = Fin s ->
    c * c + s * s = 1 ->
    0 < p1 -> 0 < p2 -> 0 < t ->
    0 < 23 * p1 + 11 * t * c + 108 * t * s ->
    0 < 23 * p1 * p2 - 0.305 * t * (11 * c + 108 * s) ->
    exists g ra ga ba : R,
      Inv.gamma iv = Fin g /\ 0 < g /\
      Inv.a iv = Fin (g * c) /\ Inv.b iv = Fin (g * s) /\
      Inv.Ra iv = Fin ra /\ Inv.Ga iv = Fin ga /\ Inv.Ba iv = Fin ba /\
      2 * ra + ga + ba / 20 = p2 /\
      ra - 12 * ga / 11 + ba / 11 = g * c /\
      (ra + ga - 2 * ba) / 9 = g * s /\
      0 < ra + ga + 21 * ba / 20 /\
      p1 * sqrt (g * c * (g * c) + g * s * (g * s)) / (ra + ga + 21 * ba / 20)
      = t * (23 * p1 * (p2 + 0.305))
        / (23 * p1 * p2 - 0.305 * t * (11 * c + 108 * s)) /\
      t < p1 * sqrt (g * c * (g * c) + g * s * (g * s))
          / (ra + ga + 21 * ba / 20).
Proof.
  intros cor wp cond p1 p2 t c s iv Ep1 Ep2 Et Ec Es Hunit Hp1 Hp2 Ht HDn HE.
  set (Dn := 23 * p1 + 11 * t * c + 108 * t * s) in *.
  set (E := 23 * p1 * p2 - 0.305 * t * (11 * c + 108 * s)) in *.
  set (g := 23 * (p2 + 0.305) * t / Dn).
  assert (0 < g) as Hg.
  { unfold g. apply Rdiv_lt_0_compat; [|exact HDn].
    apply Rmult_lt_0_compat; [|exact Ht]. lra. }
  assert (Inv.gamma iv = Fin g) as Eg.
  { unfold iv. rewrite Inv_gamma_eq. fold iv.
    rewrite Ep1, Ep2, Et, Ec, Es. cbn [nmul nadd].
    rewrite ndiv_fin by (fold Dn; lra). reflexivity. }
  assert (Inv.a iv = Fin (g * c)) as Ea.
  { unfold iv. rewrite Inv_a_eq. fold iv. rewrite Eg, Ec. reflexivity. }
  assert (Inv.b iv = Fin (g * s)) as Eb.
  { unfold iv. rewrite Inv_b_eq. fold iv. rewrite Eg, Es. reflexivity. }
  set (ra := (460 * p2 + 451 * (g * c) + 288 * (g * s)) / 1403).
  set (ga := (460 * p2 - 891 * (g * c) - 261 * (g * s)) / 1403).
  set (ba := (460 * p2 - 220 * (g * c) - 6300 * (g * s)) / 1403).
  assert (Inv.Ra iv = Fin ra) as ERa.
  { unfold iv. rewrite Inv_Ra_eq. fold iv. rewrite Ep2, Ea, Eb.
    cbn [nmul nadd nsub nneg]. rewrite ndiv_fin by lra. reflexivity. }
  assert (Inv.Ga iv = Fin ga) as EGa.
  { unfold iv. rewrite Inv_Ga_eq. fold iv. rewrite Ep2, Ea, Eb.
    cbn [nmul nadd nsub nneg]. rewrite ndiv_fin by lra. reflexivity. }
  assert (Inv.Ba iv = Fin ba) as EBa.
  { unfold iv. rewrite Inv_Ba_eq. fold iv. rewrite Ep2, Ea, Eb.
    cbn [nmul nadd nsub nneg]. rewrite ndiv_fin by lra. reflexivity. }
  assert (ra + ga + 21 * ba / 20 = E / Dn) as Eden.
  { unfold ra, ga, ba, g, E. unfold Dn in *.
    replace 0.305 with (305 / 1000) by lra. field. nra. }
  assert (0 < E / Dn) as Hden by (apply Rdiv_lt_0_compat; assumption).
  assert (sqrt (g * c * (g * c) + g * s * (g * s)) = g) as Esq.
  { replace (g * c * (g * c) + g * s * (g * s)) with (g * g)
      by (transitivity (g * g * (c * c + s * s)); [rewrite Hunit|]; ring).
    apply sqrt_square. lra. }
  assert (p1 * g / (E / Dn) = t * (23 * p1 * (p2 + 0.305)) / E) as Eratio.
  { unfold g. field. split; lra. }
  exists g, ra, ga, ba.
  split; [exact Eg|]. split; [exact Hg|].
  split; [exact Ea|]. split; [exact Eb|].
  split; [exact ERa|]. split; [exact EGa|]. split; [exact EBa|].
  split; [unfold ra, ga, ba; lra|].
  split; [unfold ra, ga, ba; lra|].
  split; [unfold ra, ga, ba; lra|].
  rewrite Eden, Esq. split; [exact Hden|]. split; [exact Eratio|].
  rewrite Eratio.
  apply Rmult_lt_reg_r with E; [exact HE|].
  unfold Rdiv. rewrite Rmult_assoc, Rinv_l, Rmult_1_r by lra.
  assert (0 < 0.305 * Dn) by lra.
  unfold E, Dn in *. nra.
Qed.

Lemma inverse_chroma_overshoot_witness :
  let iv := inverse_locals (JCh.mk #100 #1.35 #90) D65_WHITE_POINT
              unit_conditions in
  exists g ra ga ba : R,
    Inv.gamma iv = Fin g /\ Inv.Ra iv = Fin ra /\ Inv.Ga iv = Fin ga /\
    Inv.Ba iv = Fin ba /\
    1 < 50000 / 13 * 1.0 * 1 * (100 / 74.25)
        * sqrt (g * 0 * (g * 0) + g * 1 * (g * 1)) / (ra + ga + 21 * ba / 20).
Proof.
  intros iv.
  assert (Inv.A iv = Fin 2.745) as EA.
  { unfold iv. rewrite Inv_A_eq.
    cbn [JCh.J ViewingConditions.Aw ViewingConditions.surround
         ViewingConditions.z unit_conditions SURROUND_AVERAGE
         SurroundParameters.c nmul].
    rewrite !ndiv_fin by lra. replace (100 / 100) with 1 by lra.
    rewrite Math_pow_pos by lra. rewrite Rpower_1_l. cbn [nmul].
    f_equal. lra. }
  assert (Inv.p2 iv = Fin 3.05) as Ep2.
  { unfold iv. rewrite Inv_p2_eq. fold iv. rewrite EA.
    cbn [ViewingConditions.Nbb unit_conditions].
    rewrite ndiv_fin by lra. cbn [nadd]. f_equal. lra. }
  assert (Inv.t iv = Fin 1) as Et.
  { unfold iv. rewrite Inv_t_eq.
    cbn [JCh.J JCh.C ViewingConditions.n unit_conditions].
    rewrite !(@ndiv_fin 100) by lra. rewrite (@ndiv_fin 1) by lra.
    rewrite !Math_pow_pos by lra. rewrite Rpower_1 by lra.
    replace (100 / 100) with 1 by lra. rewrite Rpower_1_l.
    cbn [nsub nneg nadd nmul].
    rewrite ndiv_fin by lra.
    replace (1 * (1.64 + - (0.29))) with 1.35 by lra.
    replace (1.35 / 1.35) with 1 by lra.
    rewrite Math_pow_pos by lra. now rewrite Rpower_1_l. }
  assert (Inv.p1 iv = Fin (50000 / 13 * 1.0 * 1 * (100 / 74.25))) as Ep1.
  { unfold iv. rewrite Inv_p1_eq, Inv_et_eq.
    cbn [JCh.h ViewingConditions.surround ViewingConditions.Ncb
         unit_conditions SURROUND_AVERAGE SurroundParameters.Nc].
    rewrite eccentricityFactor_90. rewrite ndiv_fin by lra. reflexivity. }
  assert (Inv.hRad iv = Fin (PI / 2)) as Eh.
  { unfold iv. rewrite Inv_hRad_eq. cbn [JCh.h]. unfold DEG_TO_RAD, Math_PI.
    rewrite ndiv_fin by lra. cbn [nmul]. f_equal. lra. }
  assert (Inv.cosH iv = Fin 0) as Ec.
  { unfold iv. rewrite Inv_cosH_eq. fold iv. rewrite Eh.
    cbn [Math_cos]. now rewrite cos_PI2. }
  assert (Inv.sinH iv = Fin 1) as Es.
  { unfold iv. rewrite Inv_sinH_eq. fold iv. rewrite Eh.
    cbn [Math_sin]. now rewrite sin_PI2. }
  destruct (@inverse_chroma_overshoot (JCh.mk #100 #1.35 #90) D65_WHITE_POINT
              unit_conditions _ _ _ _ _ Ep1 Ep2 Et Ec Es)
    as (g & ra & ga & ba & Eg & _ & _ & _ & ERa & EGa & EBa & _ & _ & _ & _
        & _ & Hlt); try lra.
  exists g, ra, ga, ba. repeat split; assumption.
Defined.

(* ================================================================== *)
(** * Further properties: the conversion back to OKLCH and the gamut clamp *)
(* ================================================================== *)

(** [Math.max(0, Math.min(1, v))] is [NaN] or lies in [0, 1]. *)
Lemma unit_clamp_range (v : number) :
  Math_max #0 (Math_min #1 v) = NaN \/
  exists l, Math_max #0 (Math_min #1 v) = Fin l /\ 0 <= l <= 1.
Proof.
  destruct v as [a| | |].
  - right. rewrite Math_min_fin, Math_max_fin. eexists. split; [reflexivity|].
    split; [apply Rmax_l | apply Rmax_lub; [lra | apply Rmin_l]].
  - right. exists 1. split; [|lra].
    cbn [Math_min nge]. cbn [Math_max nge]. now rewrite Rleb_false by lra.
  - right. exists 0. split; [|lra]. reflexivity.
  - left. reflexivity.
Qed.

(** [Math.max(0, v)] is [NaN], [Infinity] or a non-negative real. *)
Lemma floor_at_zero_range (v : number) :
  Math_max #0 v = NaN \/ Math_max #0 v = PosInf \/
  exists c, Math_max #0 v = Fin c /\ 0 <= c.
Proof.
  destruct v as [a| | |].
  - right. right. rewrite Math_max_fin. eexists. split; [reflexivity|].
    apply Rmax_l.
  - right. left. reflexivity.
  - right. right. exists 0. split; [reflexivity | lra].
  - left. reflexivity.
Qed.

(** X13. The colour that [xyz65ToOklch] returns: its lightness is [NaN] or lies
    in [0, 1], its chroma is [NaN], [Infinity] or non-negative, whatever
    culori answers; and when culori answers [undefined] the colour is
    (0, 0, 0) with alpha 1. *)
Theorem xyz65ToOklch_range :
  forall (culori_oklch : CuloriXyz65.t -> option CuloriOklch.t) (xyz : XYZ.t),
    let o := xyz65ToOklch culori_oklch xyz in
    (OKLCHColor.l o = NaN \/
     exists l, OKLCHColor.l o = Fin l /\ 0 <= l <= 1) /\
    (OKLCHColor.c o = NaN \/ OKLCHColor.c o = PosInf \/
     exists c, OKLCHColor.c o = Fin c /\ 0 <= c) /\
    (culori_oklch
       (CuloriXyz65.mk (XYZ.X xyz / #100) (XYZ.Y xyz / #100) (XYZ.Z xyz / #100))
     = None ->
     o = OKLCHColor.mk #0 #0 #0 #1).
Proof.
  intros co xyz o. unfold o, xyz65ToOklch. cbv zeta.
  cbn [OKLCHColor.l OKLCHColor.c].
  split; [apply unit_clamp_range|]. split; [apply floor_at_zero_range|].
  intros ->. cbn [nullish].
  rewrite Math_min_fin, !Math_max_fin.
  rewrite Rmin_right by lra. rewrite Rmax_left by lra. reflexivity.
Qed.

(** X14. [compensateForBackground] is the gamut clamp of one colour, with the
    clamp's failure wrapped: it never fails with a [CIECAM02Error], its only
    failure is the [ContrastCompensationError] built from the clamp's, and
    it succeeds whenever the clamp does. *)
Theorem compensateForBackground_failure_is_gamut_clamp :
  forall (culori_xyz65 : CuloriOklch.t -> option CuloriXyz65.t)
         (culori_oklch : CuloriXyz65.t -> option CuloriOklch.t)
         (clampToGamut : OKLCHColor.t -> Effect OKLCHColor.t string)
         (color sourceBg targetBg : OKLCHColor.t),
  let result :=
    compensateForBackground culori_xyz65 culori_oklch clampToGamut
      color sourceBg targetBg in
  exists compensated : OKLCHColor.t,
    (forall e, result <> Failure (OfCIECAM02 e)) /\
    (forall e, result = Failure (OfContrastCompensation e) ->
       exists cause,
         clampToGamut compensated = Failure cause /\
         e = ContrastCompensationError.mk
               "Failed to gamut-clamp compensated color" (Some cause)) /\
    (forall r, result = Success r <-> clampToGamut compensated = Success r).
Proof.
  intros cx co clamp color sourceBg targetBg result.
  unfold result, compensateForBackground. cbv zeta.
  rewrite !makeViewingConditions_success. cbv zeta.
  cbn [Effect_mapError Effect_bind].
  rewrite forward_success. cbv zeta. cbn [Effect_mapError Effect_bind].
  rewrite inverse_success. cbn [Effect_mapError Effect_bind].
  match goal with
  | |- context [clamp ?c] => exists c; destruct (clamp c) as [r | cause]
  end; cbn [Effect_mapError].
  - split; [discriminate|]. split; [discriminate|].
    intros r'. split; intros H; congruence.
  - split; [discriminate|]. split.
    + intros e He. exists cause. split; [reflexivity|]. congruence.
    + intros r'. split; discriminate.
Qed.

Lemma xyz65ToOklch_range_witness :
  xyz65ToOklch (fun _ => None) (XYZ.mk #50 #50 #50)
  = OKLCHColor.mk #0 #0 #0 #1.
Proof.
  destruct (xyz65ToOklch_range (fun _ => None) (XYZ.mk #50 #50 #50))
    as (_ & _ & H).
  apply H. reflexivity.
Defined.

Lemma compensateForBackground_failure_is_gamut_clamp_witness :
  let grey := OKLCHColor.mk #0.5 #0 #0 #1 in
  exists r,
    compensateForBackground (fun _ => None) (fun _ => None)
      (fun c => Success c) grey grey grey = Success r.
Proof.
  intros grey.
  destruct (compensateForBackground_failure_is_gamut_clamp
              (fun _ => None) (fun _ => None)
              (fun c : OKLCHColor.t => @Success OKLCHColor.t string c)
              grey grey grey)
    as (compensated & _ & _ & H).
  exists compensated. apply H. reflexivity.
Defined.

(* ================================================================== *)
(** * Argument parsing of the compensation script *)
(* ================================================================== *)

Lemma positional_eqb (arg : string) :
  positional arg ->
  String.eqb arg "--source-bg" = false /\
  String.eqb arg "--target-bg" = false /\
  String.eqb arg "--format" = false.
Proof.
  intros (H1 & H2 & H3). repeat split; now apply String.eqb_neq.
Qed.

(** Over arguments that are no flags the loop only collects colours. *)
Lemma parseArgs_loop_positional (args : list string) (state : ArgsState.t) :
  Forall positional args ->
  parseArgs_loop args state
  = Normal (ArgsState.mk (ArgsState.sourceBg state) (ArgsState.targetBg state)
              (ArgsState.format state) (ArgsState.colors state ++ args)).
Proof.
  intros H. revert state.
  induction H as [|arg rest Harg _ IH]; intros state.
  - cbn [parseArgs_loop]. rewrite app_nil_r. now destruct state.
  - cbn [parseArgs_loop].
    destruct (positional_eqb Harg) as (-> & -> & ->).
    rewrite IH.
    cbn [ArgsState.sourceBg ArgsState.targetBg ArgsState.format
         ArgsState.colors].
    now rewrite <- app_assoc.
Qed.

(** X17. The documented call shape parses to its parts: after the two flags
    (and an optional valid format) the remaining arguments, when they are
    no flags and there is at least one, are the colours in their order; the
    format defaults to hex. *)
Theorem parseArgs_canonical :
  forall (node script sourceBg targetBg : string) (colors : list string),
    Forall positional colors -> colors <> [] ->
    parseArgs (node :: script :: "--source-bg"%string :: sourceBg
               :: "--target-bg"%string :: targetBg :: colors)
    = Success (ParsedArgs.mk sourceBg targetBg ColorSpace.hex colors) /\
    forall fmt format,
      ColorSpace_of_string fmt = Some format ->
      parseArgs (node :: script :: "--source-bg"%string :: sourceBg
                 :: "--target-bg"%string :: targetBg
                 :: "--format"%string :: fmt :: colors)
      = Success (ParsedArgs.mk sourceBg targetBg format colors).
Proof.
  intros node script s t colors Hpos Hne. split.
  - unfold parseArgs, Effect_try. cbn [skipn parseArgs_loop String.eqb
      Ascii.eqb Bool.eqb].
    rewrite parseArgs_loop_positional by exact Hpos.
    cbn [ArgsState.sourceBg ArgsState.targetBg ArgsState.format
         ArgsState.colors app].
    destruct colors as [|c rest]; [contradiction|]. reflexivity.
  - intros fmt format Hfmt.
    unfold parseArgs, Effect_try. cbn [skipn parseArgs_loop String.eqb
      Ascii.eqb Bool.eqb].
    rewrite Hfmt.
    rewrite parseArgs_loop_positional by exact Hpos.
    cbn [ArgsState.sourceBg ArgsState.targetBg ArgsState.format
         ArgsState.colors app].
    destruct colors as [|c rest]; [contradiction|]. reflexivity.
Qed.

Lemma parseArgs_canonical_witness :
  parseArgs ["node"; "contrast-compensate.ts"; "--source-bg"; "#ffffff";
             "--target-bg"; "#1a1a1a"; "#2D72D2"; "#D13913"]%string
  = Success (ParsedArgs.mk "#ffffff" "#1a1a1a" ColorSpace.hex
               ["#2D72D2"; "#D13913"]%string).
Proof.
  apply parseArgs_canonical.
  - repeat constructor; discriminate.
  - discriminate.
Defined.

Lemma parseArgs_loop_app_positional
  (args rest : list string) (state : ArgsState.t) :
  Forall positional args ->
  parseArgs_loop (args ++ rest) state
  = parseArgs_loop rest
      (ArgsState.mk (ArgsState.sourceBg state) (ArgsState.targetBg state)
         (ArgsState.format state) (ArgsState.colors state ++ args)).
Proof.
  intros H. revert state.
  induction H as [|arg args' Harg _ IH]; intros state.
  - cbn [app]. rewrite app_nil_r. now destruct state.
  - cbn [app parseArgs_loop].
    destruct (positional_eqb Harg) as (-> & -> & ->).
    rewrite IH.
    cbn [ArgsState.sourceBg ArgsState.targetBg ArgsState.format
         ArgsState.colors].
    now rewrite <- app_assoc.
Qed.

(** What the loop does to its variables: it appends colours, all of them
    arguments that are no flags, it leaves a background as it was, unsets
    it or sets it to an argument, and the only error it throws is the one
    of an invalid format. *)
Lemma parseArgs_loop_invariant (n : nat) :
  forall (args : list string) (state : ArgsState.t),
    (List.length args <= n)%nat ->
    match parseArgs_loop args state with
    | Normal state' =>
        (exists extra,
           ArgsState.colors state' = ArgsState.colors state ++ extra /\
           Forall (fun c => In c args /\ positional c) extra) /\
        (ArgsState.sourceBg state' = ArgsState.sourceBg state \/
         ArgsState.sourceBg state' = None \/
         exists v, ArgsState.sourceBg state' = Some v /\ In v args) /\
        (ArgsState.targetBg state' = ArgsState.targetBg state \/
         ArgsState.targetBg state' = None \/
         exists v, ArgsState.targetBg state' = Some v /\ In v args)
    | Throw error => exists fmt, error = invalid_format_message fmt
    end.
Proof.
  induction n as [|n IH]; intros args state Hlen.
  - destruct args; [|cbn in Hlen; lia]. cbn [parseArgs_loop].
    split; [exists []; rewrite app_nil_r; split; [reflexivity | constructor]|].
    split; now left.
  - destruct args as [|arg rest].
    + cbn [parseArgs_loop].
      split; [exists []; rewrite app_nil_r; split; [reflexivity | constructor]|].
      split; now left.
    + cbn [List.length] in Hlen. cbn [parseArgs_loop].
      assert (forall (tail : list string) (st : ArgsState.t),
                (List.length tail <= n)%nat ->
                forall (P : ArgsState.t -> Prop),
                (forall st',
                    (exists extra,
                        ArgsState.colors st' = ArgsState.colors st ++ extra /\
                        Forall (fun c => In c tail /\ positional c) extra) ->
                    (ArgsState.sourceBg st' = ArgsState.sourceBg st \/
                     ArgsState.sourceBg st' = None \/
                     exists v, ArgsState.sourceBg st' = Some v /\ In v tail) ->
                    (ArgsState.targetBg st' = ArgsState.targetBg st \/
                     ArgsState.targetBg st' = None \/
                     exists v, ArgsState.targetBg st' = Some v /\ In v tail) ->
                    P st') ->
                match parseArgs_loop tail st with
                | Normal st' => P st'
                | Throw error => exists fmt, error = invalid_format_message fmt
                end) as Hrec.
      { intros tail st Htail P HP.
        pose proof (IH tail st Htail) as H.
        destruct (parseArgs_loop tail st) as [st'|error]; [|exact H].
        destruct H as (Hc & Hs & Ht). now apply HP. }
      destruct (String.eqb arg "--source-bg") eqn:E1.
      { destruct rest as [|value rest'].
        - split; [exists []; rewrite app_nil_r; split; [reflexivity | constructor]|].
          split; [right; left; reflexivity | left; reflexivity].
        - apply (Hrec rest'); [cbn in Hlen; lia|].
          intros st' (extra & Hextra & Hall) Hs Ht.
          cbn [ArgsState.sourceBg ArgsState.targetBg ArgsState.colors] in *.
          split; [|split].
          + exists extra. split; [exact Hextra|].
            eapply Forall_impl; [|exact Hall]. cbn. intros c [Hin Hp].
            split; [tauto | exact Hp].
          + destruct Hs as [Hs | [Hs | (v & Hs & Hin)]].
            * right. right. exists value. split; [exact Hs | cbn; tauto].
            * right. left. exact Hs.
            * right. right. exists v. split; [exact Hs | cbn; tauto].
          + destruct Ht as [Ht | [Ht | (v & Ht & Hin)]].
            * left. exact Ht.
            * right. left. exact Ht.
            * right. right. exists v. split; [exact Ht | cbn; tauto]. }
      destruct (String.eqb arg "--target-bg") eqn:E2.
      { destruct rest as [|value rest'].
        - split; [exists []; rewrite app_nil_r; split; [reflexivity | constructor]|].
          split; [left; reflexivity | right; left; reflexivity].
        - apply (Hrec rest'); [cbn in Hlen; lia|].
          intros st' (extra & Hextra & Hall) Hs Ht.
          cbn [ArgsState.sourceBg ArgsState.targetBg ArgsState.colors] in *.
          split; [|split].
          + exists extra. split; [exact Hextra|].
            eapply Forall_impl; [|exact Hall]. cbn. intros c [Hin Hp].
            split; [tauto | exact Hp].
          + destruct Hs as [Hs | [Hs | (v & Hs & Hin)]].
            * left. exact Hs.
            * right. left. exact Hs.
            * right. right. exists v. split; [exact Hs | cbn; tauto].
          + destruct Ht as [Ht | [Ht | (v & Ht & Hin)]].
            * right. right. exists value. split; [exact Ht | cbn; tauto].
            * right. left. exact Ht.
            * right. right. exists v. split; [exact Ht | cbn; tauto]. }
      destruct (String.eqb arg "--format") eqn:E3.
      { destruct rest as [|fmt rest'].
        - exists None. reflexivity.
        - destruct (ColorSpace_of_string fmt) as [format|].
          + apply (Hrec rest'); [cbn in Hlen; lia|].
            intros st' (extra & Hextra & Hall) Hs Ht.
            cbn [ArgsState.sourceBg ArgsState.targetBg ArgsState.colors] in *.
            split; [|split].
            * exists extra. split; [exact Hextra|].
              eapply Forall_impl; [|exact Hall]. cbn. intros c [Hin Hp].
              split; [tauto | exact Hp].
            * destruct Hs as [Hs | [Hs | (v & Hs & Hin)]].
              -- left. exact Hs.
              -- right. left. exact Hs.
              -- right. right. exists v. split; [exact Hs | cbn; tauto].
            * destruct Ht as [Ht | [Ht | (v & Ht & Hin)]].
              -- left. exact Ht.
              -- right. left. exact Ht.
              -- right. right. exists v. split; [exact Ht | cbn; tauto].
          + exists (Some fmt). reflexivity. }
      apply (Hrec rest); [lia|].
      intros st' (extra & Hextra & Hall) Hs Ht.
      cbn [ArgsState.sourceBg ArgsState.targetBg ArgsState.colors] in *.
      assert (positional arg) as Hp.
      { repeat split; intros ->; cbn in *; congruence. }
      split; [|split].
      * exists (arg :: extra). split.
        -- rewrite Hextra, <- app_assoc. reflexivity.
        -- constructor; [split; [now left | exact Hp]|].
           eapply Forall_impl; [|exact Hall]. cbn. intros c [Hin Hc].
           split; [tauto | exact Hc].
      * destruct Hs as [Hs | [Hs | (v & Hs & Hin)]].
        -- left. exact Hs.
        -- right. left. exact Hs.
        -- right. right. exists v. split; [exact Hs | cbn; tauto].
      * destruct Ht as [Ht | [Ht | (v & Ht & Hin)]].
        -- left. exact Ht.
        -- right. left. exact Ht.
        -- right. right. exists v. split; [exact Ht | cbn; tauto].
Qed.

(** X18. A successful parse: there is at least one colour, every colour is an
    argument (after the first two of [argv]) that is no flag, and both
    backgrounds are arguments. *)
Theorem parseArgs_success_shape :
  forall (argv : list string) (r : ParsedArgs.t),
    parseArgs argv = Success r ->
    ParsedArgs.colors r <> [] /\
    Forall (fun c => In c (skipn 2 argv) /\ positional c)
           (ParsedArgs.colors r) /\
    In (ParsedArgs.sourceBg r) (skipn 2 argv) /\
    In (ParsedArgs.targetBg r) (skipn 2 argv).
Proof.
  intros argv r. unfold parseArgs, Effect_try. cbv zeta.
  pose proof (@parseArgs_loop_invariant (List.length (skipn 2 argv))
                (skipn 2 argv) (ArgsState.mk None None ColorSpace.hex [])
                (Nat.le_refl _)) as H.
  destruct (parseArgs_loop (skipn 2 argv) _) as [st|error]; [|discriminate].
  destruct H as ((extra & Hextra & Hall) & Hs & Ht).
  cbn [ArgsState.sourceBg ArgsState.targetBg ArgsState.colors app] in *.
  destruct (ArgsState.sourceBg st) as [s|]; [|discriminate].
  destruct (ArgsState.targetBg st) as [t|]; [|discriminate].
  destruct (ArgsState.colors st) as [|c cs] eqn:Ec; [discriminate|].
  cbn [List.length Nat.eqb]. intros Hr. injection Hr as <-.
  cbn [ParsedArgs.colors ParsedArgs.sourceBg ParsedArgs.targetBg].
  split; [discriminate|]. split; [rewrite Hextra; exact Hall|]. split.
  - destruct Hs as [Hs | [Hs | (v & Hs & Hin)]]; try discriminate.
    injection Hs as ->. exact Hin.
  - destruct Ht as [Ht | [Ht | (v & Ht & Hin)]]; try discriminate.
    injection Ht as ->. exact Hin.
Qed.

Lemma parseArgs_success_shape_witness :
  exists r,
    parseArgs ["node"; "script"; "--target-bg"; "#000"; "red"; "--source-bg";
               "#fff"]%string = Success r /\
    ParsedArgs.colors r <> [].
Proof.
  eexists. split; [reflexivity|].
  apply (@parseArgs_success_shape
           ["node"; "script"; "--target-bg"; "#000"; "red"; "--source-bg";
            "#fff"]%string).
  reflexivity.
Defined.

(** X19. The failures of [parseArgs]: a missing (or unset) background, no
    colour, or an invalid format; the format error is thrown inside the
    loop and so comes before the other three. A flag in last position has
    no value and unsets what an earlier occurrence had set. *)
Theorem parseArgs_failures :
  (forall (argv : list string) (error : string),
     parseArgs argv = Failure error ->
     error = "Missing required flag: --source-bg"%string \/
     error = "Missing required flag: --target-bg"%string \/
     error = "No foreground colors provided"%string \/
     exists fmt, error = invalid_format_message fmt) /\
  (forall (node script sourceBg targetBg : string) (colors : list string),
     Forall positional colors ->
     parseArgs (node :: script :: "--source-bg"%string :: sourceBg
                :: "--target-bg"%string :: targetBg
                :: colors ++ ["--source-bg"%string])
     = Failure "Missing required flag: --source-bg"%string) /\
  (forall (node script fmt : string) (rest : list string),
     ColorSpace_of_string fmt = None ->
     parseArgs (node :: script :: "--format"%string :: fmt :: rest)
     = Failure (invalid_format_message (Some fmt))).
Proof.
  split; [|split].
  - intros argv error. unfold parseArgs, Effect_try. cbv zeta.
    pose proof (@parseArgs_loop_invariant (List.length (skipn 2 argv))
                  (skipn 2 argv) (ArgsState.mk None None ColorSpace.hex [])
                  (Nat.le_refl _)) as H.
    destruct (parseArgs_loop (skipn 2 argv) _) as [st|e].
    + destruct (ArgsState.sourceBg st) as [s|];
        [|intros Hr; injection Hr as <-; now left].
      destruct (ArgsState.targetBg st) as [t|];
        [|intros Hr; injection Hr as <-; right; now left].
      destruct (Nat.eqb (List.length (ArgsState.colors st)) 0);
        [|discriminate].
      intros Hr. injection Hr as <-. right. right. now left.
    + intros Hr. injection Hr as <-. right. right. right. exact H.
  - intros node script s t colors Hpos.
    unfold parseArgs, Effect_try.
    cbn [skipn parseArgs_loop String.eqb Ascii.eqb Bool.eqb].
    rewrite parseArgs_loop_app_positional by exact Hpos.
    reflexivity.
  - intros node script fmt rest Hfmt.
    unfold parseArgs, Effect_try.
    cbn [skipn parseArgs_loop String.eqb Ascii.eqb Bool.eqb].
    rewrite Hfmt. reflexivity.
Qed.

Lemma parseArgs_failures_witness :
  parseArgs ["node"; "script"; "--source-bg"; "#fff"; "--target-bg"; "#000";
             "red"; "--source-bg"]%string
  = Failure "Missing required flag: --source-bg"%string /\
  parseArgs ["node"; "script"; "--format"; "cmyk"]%string
  = Failure "Invalid format: cmyk. Expected: hex, rgb, oklch, oklab"%string.
Proof.
  destruct parseArgs_failures as (_ & Htrail & Hfmt). split.
  - apply (Htrail "node" "script" "#fff" "#000" ["red"])%string.
    repeat constructor; discriminate.
  - apply (Hfmt "node" "script" "cmyk" [])%string. reflexivity.
Defined.

(* ================================================================== *)
(** * Stop maps *)
(* ================================================================== *)

Section StopMaps.

Variable V : Type.

Lemma Map_get_set (m : StopMap V) (k k' : StopPosition) (v : V) :
  Map_get (Map_set m k v) k' = if Nat.eqb k k' then Some v else Map_get m k'.
Proof.
  induction m as [|[k0 v0] rest IH]; cbn [Map_set Map_get].
  - reflexivity.
  - destruct (Nat.eqb k0 k) eqn:E0; cbn [Map_get].
    + apply Nat.eqb_eq in E0. subst k0.
      destruct (Nat.eqb k k'); reflexivity.
    + rewrite IH. destruct (Nat.eqb k0 k') eqn:E1; [|reflexivity].
      apply Nat.eqb_eq in E1. subst k0. now rewrite Nat.eqb_sym, E0.
Qed.

Lemma Map_get_None (m : StopMap V) (k : StopPosition) :
  ~ In k (map fst m) -> Map_get m k = None.
Proof.
  induction m as [|[k0 v0] rest IH]; cbn [map fst In Map_get]; intros H.
  - reflexivity.
  - destruct (Nat.eqb k0 k) eqn:E; [apply Nat.eqb_eq in E; tauto|].
    apply IH. tauto.
Qed.

Lemma Map_set_fresh (m : StopMap V) (k : StopPosition) (v : V) :
  ~ In k (map fst m) -> Map_set m k v = m ++ [(k, v)].
Proof.
  induction m as [|[k0 v0] rest IH]; cbn [map fst In Map_set app]; intros H.
  - reflexivity.
  - destruct (Nat.eqb k0 k) eqn:E; [apply Nat.eqb_eq in E; tauto|].
    rewrite IH by tauto. reflexivity.
Qed.

Lemma Map_set_keys (m : StopMap V) (k : StopPosition) (v : V) :
  In k (map fst m) -> map fst (Map_set m k v) = map fst m.
Proof.
  induction m as [|[k0 v0] rest IH]; cbn [map fst In Map_set]; intros H.
  - contradiction.
  - destruct (Nat.eqb k0 k) eqn:E; cbn [map fst]; [reflexivity|].
    apply Nat.eqb_neq in E. rewrite IH; [reflexivity|]. tauto.
Qed.

Lemma Map_set_wf (m : StopMap V) (k : StopPosition) (v : V) :
  Map_wf m -> Map_wf (Map_set m k v).
Proof.
  unfold Map_wf. intros H.
  destruct (in_dec Nat.eq_dec k (map fst m)) as [Hin | Hout].
  - now rewrite Map_set_keys.
  - rewrite Map_set_fresh by exact Hout. rewrite map_app. cbn [map fst].
    apply NoDup_app; [exact H | repeat constructor; intros [] |].
    intros x Hx [<- | []]. exact (Hout Hx).
Qed.

Lemma Map_fold_wf (entries : list (StopPosition * V)) (m : StopMap V) :
  Map_wf m ->
  Map_wf (fold_left (fun map entry => Map_set map (fst entry) (snd entry))
            entries m).
Proof.
  revert m. induction entries as [|e rest IH]; intros m H; cbn [fold_left].
  - exact H.
  - apply IH. now apply Map_set_wf.
Qed.

Lemma Map_new_wf (entries : list (StopPosition * V)) : Map_wf (Map_new entries).
Proof. apply Map_fold_wf. constructor. Qed.

Lemma Map_fold_fresh (entries : list (StopPosition * V)) (m : StopMap V) :
  NoDup (map fst (m ++ entries)) ->
  fold_left (fun map entry => Map_set map (fst entry) (snd entry)) entries m
  = m ++ entries.
Proof.
  revert m. induction entries as [|[k v] rest IH]; intros m H; cbn [fold_left].
  - now rewrite app_nil_r.
  - cbn [fst snd].
    assert (~ In k (map fst m)) as Hfresh.
    { rewrite map_app in H. apply NoDup_remove_2 in H.
      intros Hin. apply H. apply in_or_app. now left. }
    rewrite Map_set_fresh by exact Hfresh.
    rewrite IH; [now rewrite <- app_assoc|].
    now rewrite <- app_assoc.
Qed.

(** For a list of entries with distinct keys, [new Map(entries)] has these
    very entries. *)
Lemma Map_new_distinct (entries : list (StopPosition * V)) :
  NoDup (map fst entries) -> Map_new entries = entries.
Proof. intros H. unfold Map_new. now rewrite Map_fold_fresh. Qed.

Lemma Map_get_fold_fn
  (fn : StopPosition -> V) (positions : list StopPosition) (m : StopMap V)
  (k : StopPosition) :
  Map_get
    (fold_left (fun map entry => Map_set map (fst entry) (snd entry))
       (map (fun position => (position, fn position)) positions) m) k
  = if in_dec Nat.eq_dec k positions then Some (fn k) else Map_get m k.
Proof.
  revert m. induction positions as [|p rest IH]; intros m; cbn [map fold_left].
  - reflexivity.
  - rewrite IH. cbn [fst snd]. rewrite Map_get_set.
    destruct (in_dec Nat.eq_dec k rest) as [Hin | Hout];
      destruct (in_dec Nat.eq_dec k (p :: rest)) as [Hin' | Hout'];
      cbn [In] in *; try tauto.
    + destruct (Nat.eqb p k) eqn:E.
      * apply Nat.eqb_eq in E. now subst p.
      * apply Nat.eqb_neq in E. tauto.
    + destruct (Nat.eqb p k) eqn:E; [|reflexivity].
      apply Nat.eqb_eq in E. tauto.
Qed.

Lemma mapToRecord_fold (entries : list (StopPosition * V))
  (acc : StopRecord V) (k : StopPosition) :
  NoDup (map fst entries) ->
  fold_left (fun acc entry => Record_set acc (fst entry) (snd entry))
    entries acc k
  = match Map_get entries k with Some v => Some v | None => acc k end.
Proof.
  revert acc. induction entries as [|[k0 v0] rest IH]; intros acc H;
    cbn [fold_left Map_get].
  - reflexivity.
  - cbn [map fst] in H. inversion H as [|? ? Hfresh Hrest]; subst.
    rewrite IH by exact Hrest. cbn [fst snd]. unfold Record_set.
    destruct (Nat.eqb k0 k) eqn:E.
    + apply Nat.eqb_eq in E. subst k0. now rewrite Map_get_None.
    + reflexivity.
Qed.

End StopMaps.

(** X20. Looking up a stop in a map built over [STOP_POSITIONS]: a position of
    the list gives the value of the builder function at it, any other
    position fails with the error that names it and the kind of map. *)
Theorem getStop_of_buildStopMap :
  forall (STOP_POSITIONS : list StopPosition)
         (number_of : StopPosition -> number)
         (transform_of : StopPosition -> StopTransform.t)
         (position : StopPosition),
    let numbers := buildStopNumberMap STOP_POSITIONS number_of in
    let transforms := buildStopTransformMap STOP_POSITIONS transform_of in
    (In position STOP_POSITIONS ->
     getStopNumber numbers position = Right (number_of position) /\
     getStopNumberEffect numbers position = Success (number_of position) /\
     getStopTransform transforms position = Right (transform_of position) /\
     getStopTransformEffect transforms position
     = Success (transform_of position)) /\
    (~ In position STOP_POSITIONS ->
     getStopNumberEffect numbers position
     = Failure
         (CollectionError.mk
            (String.append "Missing stop position "
               (String.append (String_of_position position) " in number map"))
            None) /\
     getStopTransformEffect transforms position
     = Failure
         (CollectionError.mk
            (String.append "Missing stop position "
               (String.append (String_of_position position)
                  " in transform map"))
            None)).
Proof.
  intros stops fn ft p numbers transforms.
  unfold numbers, transforms.
  unfold getStopNumberEffect, getStopNumber, getStopTransformEffect,
    getStopTransform, buildStopNumberMap, buildStopTransformMap, buildStopMap,
    Map_new.
  rewrite !Map_get_fold_fn.
  destruct (in_dec Nat.eq_dec p stops) as [Hin | Hout];
    cbn [Map_get Either_fromNullable].
  - split; [intros _; repeat split | intros H; contradiction].
  - split; [intros H; contradiction | intros _; split; reflexivity].
Qed.

Lemma getStop_of_buildStopMap_witness :
  let STOP_POSITIONS :=
    [100; 200; 300; 400; 500; 600; 700; 800; 900; 1000]%nat in
  let transform := StopTransform.mk #1 #1 #0 in
  getStopNumberEffect
    (buildStopNumberMap STOP_POSITIONS (fun p => Fin (INR p))) 300%nat
  = Success (Fin (INR 300)) /\
  getStopNumberEffect
    (buildStopNumberMap STOP_POSITIONS (fun p => Fin (INR p))) 150%nat
  = Failure
      (CollectionError.mk "Missing stop position 150 in number map" None).
Proof.
  intros stops transform. split.
  - apply (getStop_of_buildStopMap stops (fun p => Fin (INR p))
             (fun _ => transform) 300%nat).
    unfold stops. cbn. tauto.
  - apply (getStop_of_buildStopMap stops (fun p => Fin (INR p))
             (fun _ => transform) 150%nat).
    unfold stops. cbn. intros H. repeat destruct H as [H | H];
      try discriminate. exact H.
Defined.

(** X21. [mapStopMap] on a map: the keys and their order are kept, each value
    is transformed together with its key, lookups commute with the
    transformation, and the functor laws hold. *)
Theorem mapStopMap_functor :
  forall (A B C : Type) (stopMap : StopMap A)
         (f : A -> StopPosition -> B) (g : B -> StopPosition -> C),
    Map_wf stopMap ->
    mapStopMap stopMap f
    = map (fun entry => (fst entry, f (snd entry) (fst entry))) stopMap /\
    map fst (mapStopMap stopMap f) = map fst stopMap /\
    Map_wf (mapStopMap stopMap f) /\
    (forall position,
       Map_get (mapStopMap stopMap f) position
       = option_map (fun value => f value position)
           (Map_get stopMap position)) /\
    mapStopMap stopMap (fun value _ => value) = stopMap /\
    mapStopMap (mapStopMap stopMap f) g
    = mapStopMap stopMap (fun value position => g (f value position) position).
Proof.
  intros A B C m f g Hwf.
  assert (forall (X Y : Type) (h : X -> StopPosition -> Y) (l : StopMap X),
            map fst (map (fun entry => (fst entry, h (snd entry) (fst entry))) l)
            = map fst l) as Hkeys.
  { intros X Y h l. rewrite map_map. apply map_ext. reflexivity. }
  assert (forall (X Y : Type) (h : X -> StopPosition -> Y) (l : StopMap X),
            Map_wf l ->
            mapStopMap l h
            = map (fun entry => (fst entry, h (snd entry) (fst entry))) l)
    as Hmap.
  { intros X Y h l Hl. unfold mapStopMap. apply Map_new_distinct.
    rewrite Hkeys. exact Hl. }
  assert (Map_wf (mapStopMap m f)) as Hwf'.
  { rewrite Hmap by exact Hwf. unfold Map_wf. rewrite Hkeys. exact Hwf. }
  split; [now apply Hmap|]. split; [rewrite Hmap by exact Hwf; apply Hkeys|].
  split; [exact Hwf'|]. split; [|split].
  - intros p. rewrite Hmap by exact Hwf. clear.
    induction m as [|[k v] rest IH]; cbn [map Map_get fst snd].
    + reflexivity.
    + destruct (Nat.eqb k p) eqn:E; [|exact IH].
      apply Nat.eqb_eq in E. subst k. reflexivity.
  - rewrite Hmap by exact Hwf. clear.
    induction m as [|[k v] rest IH]; cbn [map fst snd]; [reflexivity|].
    now rewrite IH.
  - rewrite (Hmap B C g) by exact Hwf'. rewrite !Hmap by exact Hwf.
    rewrite map_map. apply map_ext. intros [k v]. reflexivity.
Qed.

Lemma mapStopMap_functor_witness :
  mapStopMap [(100%nat, #1); (200%nat, #2)] (fun value _ => (value + #1)%num)
  = [(100%nat, (#1 + #1)%num); (200%nat, (#2 + #1)%num)].
Proof.
  apply (@mapStopMap_functor number number number
           [(100%nat, #1); (200%nat, #2)]
           (fun value _ => (value + #1)%num) (fun value _ => value)).
  unfold Map_wf. cbn. repeat constructor; cbn; intros H;
    repeat destruct H as [H | H]; try discriminate; exact H.
Defined.

(** X22. Serialising a map to a record and reading it back over the keys of the
    map gives the map again (each value now possibly [undefined]); the
    record holds, at every key, what the map holds. *)
Theorem recordToMap_of_mapToRecord :
  forall (V : Type) (stopMap : StopMap V),
    Map_wf stopMap ->
    (forall position, mapToRecord stopMap position = Map_get stopMap position) /\
    recordToMap (mapToRecord stopMap) (map fst stopMap)
    = map (fun entry => (fst entry, Some (snd entry))) stopMap.
Proof.
  intros V m Hwf.
  assert (forall p, mapToRecord m p = Map_get m p) as Hget.
  { intros p. unfold mapToRecord. cbv zeta.
    rewrite mapToRecord_fold by exact Hwf.
    destruct (Map_get m p); reflexivity. }
  split; [exact Hget|].
  unfold recordToMap. rewrite Map_new_distinct.
  - rewrite map_map.
    assert (forall l : StopMap V,
              NoDup (map fst l) ->
              (forall e, In e l -> Map_get m (fst e) = Some (snd e)) ->
              map (fun x => (fst x, mapToRecord m (fst x))) l
              = map (fun entry => (fst entry, Some (snd entry))) l) as H.
    { intros l _ Hl. apply map_ext_in. intros e He.
      now rewrite Hget, (Hl e He). }
    apply H; [exact Hwf|].
    clear H Hget. unfold Map_wf in Hwf.
    induction m as [|[k v] rest IH]; intros e He; [contradiction|].
    cbn [map fst] in Hwf. inversion Hwf as [|? ? Hfresh Hrest]; subst.
    cbn [Map_get]. destruct He as [<- | He].
    + cbn [fst snd]. now rewrite Nat.eqb_refl.
    + destruct (Nat.eqb k (fst e)) eqn:E.
      * apply Nat.eqb_eq in E. exfalso. apply Hfresh. rewrite E.
        now apply in_map.
      * now apply IH.
  - rewrite map_map. cbn [fst]. rewrite map_id. exact Hwf.
Qed.

Lemma recordToMap_of_mapToRecord_witness :
  recordToMap (mapToRecord [(100%nat, #1); (200%nat, #2)]) [100%nat; 200%nat]
  = [(100%nat, Some #1); (200%nat, Some #2)].
Proof.
  apply (@recordToMap_of_mapToRecord number [(100%nat, #1); (200%nat, #2)]).
  unfold Map_wf. cbn. repeat constructor; cbn; intros H;
    repeat destruct H as [H | H]; try discriminate; exact H.
Defined.

(* ================================================================== *)
(** * Interpolation utilities *)
(* ================================================================== *)

(** X23. [clamp] with bounds in order returns a value between them: the value
    itself when it lies between them, the bound it passes otherwise. With
    the bounds out of order it returns [min], and a [NaN] value or bound
    gives [NaN]. *)
Theorem clamp_bounds :
  (forall value min max : R,
     min <= max ->
     exists r,
       clamp (Fin value) (Fin min) (Fin max) = Fin r /\
       min <= r <= max /\
       (min <= value <= max -> r = value) /\
       (value <= min -> r = min) /\
       (max <= value -> r = max) /\
       clamp (Fin r) (Fin min) (Fin max) = Fin r) /\
  (forall value min max : R,
     max < min -> clamp (Fin value) (Fin min) (Fin max) = Fin min) /\
  (forall min max : number, clamp NaN min max = NaN) /\
  (forall value max : number, clamp value NaN max = NaN) /\
  (forall value min : number, clamp value min NaN = NaN).
Proof.
  split; [|split; [|split; [|split]]].
  - intros value min max Hle. unfold clamp.
    rewrite Math_min_fin, Math_max_fin.
    set (r := Rmax min (Rmin max value)).
    assert (min <= r <= max) as Hr.
    { unfold r. split; [apply Rmax_l|].
      apply Rmax_lub; [exact Hle | apply Rmin_l]. }
    exists r. split; [reflexivity|]. split; [exact Hr|].
    split; [|split; [|split]].
    + intros [Hlo Hhi]. unfold r.
      rewrite Rmin_right by exact Hhi. now apply Rmax_right.
    + intros Hlo. unfold r. apply Rmax_left.
      apply Rle_trans with value; [apply Rmin_r | exact Hlo].
    + intros Hhi. unfold r.
      rewrite Rmin_left by exact Hhi. now apply Rmax_right.
    + rewrite Math_min_fin, Math_max_fin. f_equal.
      rewrite Rmin_right by apply Hr. apply Rmax_right, Hr.
  - intros value min max Hlt. unfold clamp.
    rewrite Math_min_fin, Math_max_fin. f_equal.
    unfold Rmax, Rmin.
    repeat match goal with
           | |- context [Rle_dec ?a ?b] => destruct (Rle_dec a b)
           end; lra.
  - intros min max. unfold clamp.
    destruct max; cbn [Math_min]; destruct min; reflexivity.
  - intros value max. reflexivity.
  - intros value min. unfold clamp. cbn [Math_min].
    destruct min; reflexivity.
Qed.

Lemma clamp_bounds_witness :
  exists r, clamp #1.7 #0 #1 = Fin r /\ 0 <= r <= 1 /\ r = 1.
Proof.
  destruct clamp_bounds as (H & _).
  assert (0 <= 1) as H01 by lra.
  destruct (H 1.7 0 1 H01) as (r & Er & Hr & _ & _ & Hmax & _).
  exists r. split; [exact Er|]. split; [exact Hr|]. apply Hmax. lra.
Defined.

Section RecordFolds.

Variable V : Type.

(** A loop that assigns one entry per position. *)
Lemma Record_fold_set
  (g : StopPosition -> V) (positions : list StopPosition)
  (acc : StopRecord V) (q : StopPosition) :
  fold_left (fun result position => Record_set result position (g position))
    positions acc q
  = if in_dec Nat.eq_dec q positions then Some (g q) else acc q.
Proof.
  revert acc. induction positions as [|p rest IH]; intros acc; cbn [fold_left].
  - reflexivity.
  - rewrite IH. unfold Record_set.
    destruct (in_dec Nat.eq_dec q rest) as [Hin | Hout];
      destruct (in_dec Nat.eq_dec q (p :: rest)) as [Hin' | Hout'];
      cbn [In] in *; try tauto.
    + destruct (Nat.eqb p q) eqn:E.
      * apply Nat.eqb_eq in E. now subst p.
      * apply Nat.eqb_neq in E. tauto.
    + destruct (Nat.eqb p q) eqn:E; [|reflexivity].
      apply Nat.eqb_eq in E. tauto.
Qed.

End RecordFolds.

(** The interval of a bounded absolute value. *)
Lemma Rabs_le_bounds (x b : R) : Rabs x <= b -> - b <= x <= b.
Proof. unfold Rabs. destruct (Rcase_abs x); lra. Qed.

(** X25. For end chroma multipliers c100 and c1000 of magnitude at most
    10^6, a reference stop and stop positions of at most 1000,
    [smoothChromaCurve] assigns to every stop position p the value
    max(0, a x^2 + 1) with a = ((c100 + c1000)/2 - 1)/450^2 and
    x = p - referenceStop, and no other key: the value is finite, between 0
    and 5000001; it is 1 at the reference stop; positions at equal distance
    on either side of the reference get equal values; and no value exceeds
    1 when c100 + c1000 <= 2. *)
Theorem smoothChromaCurve_shape :
  forall (STOP_POSITIONS : list StopPosition)
         (pattern : TransformationPattern.t) (c100 c1000 : R),
    StopTransform.chromaMultiplier
      (TransformationPattern.transforms pattern 100%nat) = Fin c100 ->
    StopTransform.chromaMultiplier
      (TransformationPattern.transforms pattern 1000%nat) = Fin c1000 ->
    Rabs c100 <= 1000000 -> Rabs c1000 <= 1000000 ->
    (TransformationPattern.referenceStop pattern <= 1000)%nat ->
    Forall (fun p => (p <= 1000)%nat) STOP_POSITIONS ->
    let result := smoothChromaCurve STOP_POSITIONS pattern in
    let ref := TransformationPattern.referenceStop pattern in
    let a := ((c100 + c1000) / 2 - 1) / (450 * 450) in
    let value (p : StopPosition) :=
      Rmax 0 (a * (INR p - INR ref) * (INR p - INR ref) + 1) in
    (forall p, In p STOP_POSITIONS -> result p = Some (Fin (value p))) /\
    (forall p, ~ In p STOP_POSITIONS -> result p = None) /\
    (forall p, In p STOP_POSITIONS -> 0 <= value p <= 5000001) /\
    value ref = 1 /\
    (forall p q, INR p - INR ref = INR ref - INR q -> value p = value q) /\
    (c100 + c1000 <= 2 -> forall p, value p <= 1).
Proof.
  intros S pattern c100 c1000 E100 E1000 B100 B1000 Bref BS result ref a value.
  assert (forall p,
            result p = if in_dec Nat.eq_dec p S
                       then Some (Fin (value p)) else None) as Hres.
  { intros p. unfold result, smoothChromaCurve. cbv zeta.
    rewrite Record_fold_set. destruct (in_dec Nat.eq_dec p S); [|reflexivity].
    f_equal. rewrite E100, E1000.
    cbn [nadd nsub nneg nmul]. rewrite ndiv_fin by lra.
    cbn [nadd nsub nneg nmul]. rewrite ndiv_fin by lra.
    cbn [nadd nsub nneg nmul]. rewrite Math_max_fin.
    unfold value, a, ref, Rminus. replace 1.0 with 1 by lra. reflexivity. }
  split; [|split; [|split; [|split; [|split]]]].
  - intros p Hp. rewrite Hres. destruct (in_dec Nat.eq_dec p S); tauto.
  - intros p Hp. rewrite Hres. destruct (in_dec Nat.eq_dec p S); tauto.
  - intros p Hp. split; [apply Rmax_l|].
    apply Rmax_lub; [lra|].
    rewrite Forall_forall in BS. specialize (BS p Hp).
    assert (0 <= INR p <= 1000) as Bp.
    { split; [apply pos_INR|]. replace 1000 with (INR 1000).
      - apply le_INR. exact BS.
      - rewrite INR_IZR_INZ. reflexivity. }
    assert (0 <= INR ref <= 1000) as Br.
    { split; [apply pos_INR|]. replace 1000 with (INR 1000).
      - apply le_INR. exact Bref.
      - rewrite INR_IZR_INZ. reflexivity. }
    apply Rabs_le_bounds in B100. apply Rabs_le_bounds in B1000.
    assert (- 5 <= a <= 5) as Ba.
    { assert (a * 202500 = (c100 + c1000) / 2 - 1) as Ea
        by (unfold a; field).
      lra. }
    set (x := INR p - INR ref).
    assert (- 1000 <= x <= 1000) as Hx1 by (unfold x; lra).
    assert (0 <= x * x <= 1000000) as Hx by (clearbody x; nra).
    rewrite Rmult_assoc. set (x2 := x * x) in *. clearbody x2. nra.
  - unfold value. replace (INR ref - INR ref) with 0 by lra.
    replace (a * 0 * 0 + 1) with 1 by ring. apply Rmax_right. lra.
  - intros p q Hpq. unfold value. rewrite Hpq.
    replace (a * (INR ref - INR q) * (INR ref - INR q))
      with (a * (INR q - INR ref) * (INR q - INR ref)) by ring.
    reflexivity.
  - intros Hle p. unfold value. apply Rmax_lub; [lra|].
    assert (a <= 0) as Ha.
    { unfold a.
      assert (0 < / (450 * 450)) by (apply Rinv_0_lt_compat; lra).
      unfold Rdiv at 1. nra. }
    pose proof (Rle_0_sqr (INR p - INR ref)) as Hsq. unfold Rsqr in Hsq.
    rewrite Rmult_assoc.
    set (x2 := (INR p - INR ref) * (INR p - INR ref)) in *.
    assert (0 <= - a * x2) by (apply Rmult_le_pos; lra). lra.
Qed.

Lemma smoothChromaCurve_shape_witness :
  let transform := StopTransform.mk #1 #0.5 #0 in
  let pattern := TransformationPattern.mk "example" 500%nat (fun _ => transform) in
  smoothChromaCurve [100; 500; 1000]%nat pattern 500%nat = Some (Fin 1).
Proof.
  intros transform pattern.
  assert (Rabs 0.5 <= 1000000) as B by (rewrite Rabs_pos_eq; lra).
  assert (Forall (fun p => (p <= 1000)%nat) [100; 500; 1000]%nat) as BS
    by (repeat constructor; lia).
  assert (500 <= 1000)%nat as Bref by lia.
  destruct (@smoothChromaCurve_shape [100; 500; 1000]%nat pattern 0.5 0.5
              eq_refl eq_refl B B Bref BS) as (Hin & _ & _ & Href & _).
  cbv zeta in Hin, Href. rewrite Hin.
  - f_equal. f_equal. exact Href.
  - cbn. tauto.
Defined.

(** X24. [lerp] on numbers of magnitude at most 10^100: lerp(a, b, 0) = a;
    lerp(a, b, 1) = b (in exact arithmetic); lerp(a, a, t) = a; for a <= b
    it does not decrease in t, is at least a for t >= 0 and has a magnitude
    of at most 3 * 10^200; and lerp(a, a, Infinity) is [NaN]. *)
Theorem lerp_properties :
  (forall a b : R,
     Rabs a <= 10 ^ 100 -> Rabs b <= 10 ^ 100 ->
     lerp (Fin a) (Fin b) #0 = Fin a) /\
  (forall a b : R,
     Rabs a <= 10 ^ 100 -> Rabs b <= 10 ^ 100 ->
     lerp (Fin a) (Fin b) #1 = Fin b) /\
  (forall a t : R,
     Rabs a <= 10 ^ 100 -> Rabs t <= 10 ^ 100 ->
     lerp (Fin a) (Fin a) (Fin t) = Fin a) /\
  (forall a b t t' : R,
     Rabs a <= 10 ^ 100 -> Rabs b <= 10 ^ 100 ->
     Rabs t <= 10 ^ 100 -> Rabs t' <= 10 ^ 100 ->
     a <= b -> t <= t' ->
     exists x y,
       lerp (Fin a) (Fin b) (Fin t) = Fin x /\
       lerp (Fin a) (Fin b) (Fin t') = Fin y /\ x <= y /\
       (0 <= t -> a <= x) /\ Rabs y <= 3 * 10 ^ 200) /\
  (forall a : R, lerp (Fin a) (Fin a) PosInf = NaN).
Proof.
  unfold lerp. cbn [nadd nsub nneg nmul].
  split; [|split; [|split; [|split]]].
  - intros a b _ _. f_equal. ring.
  - intros a b _ _. f_equal. ring.
  - intros a t _ _. f_equal. ring.
  - intros a b t t' Ba Bb Bt Bt' Hab Ht. do 2 eexists.
    split; [reflexivity|]. split; [reflexivity|].
    split; [nra|]. split; [nra|].
    assert (0 < 10 ^ 100) as Hbig by (apply pow_lt; lra).
    assert (10 ^ 200 = 10 ^ 100 * 10 ^ 100) as E200
      by (rewrite <- pow_add; reflexivity).
    set (B := 10 ^ 100) in *.
    assert (1 <= B) as HB1.
    { unfold B. apply pow_R1_Rle. lra. }
    apply Rabs_le_bounds in Ba. apply Rabs_le_bounds in Bb.
    apply Rabs_le_bounds in Bt'.
    rewrite E200. apply Rabs_le. split; nra.
  - intros a. unfold inf_times.
    rewrite Reqb_true by lra. reflexivity.
Qed.

Lemma lerp_properties_witness :
  exists x y,
    lerp #10 #20 #0.25 = Fin x /\ lerp #10 #20 #0.75 = Fin y /\
    x <= y /\ 10 <= x.
Proof.
  destruct lerp_properties as (_ & _ & _ & H & _).
  assert (0 < 10 ^ 100) as Hbig by (apply pow_lt; lra).
  assert (1000 <= 10 ^ 100) as Hk.
  { replace 1000 with (10 ^ 3) by (simpl; lra).
    apply Rle_pow; [lra | lia]. }
  assert (forall v, 0 <= v <= 1000 -> Rabs v <= 10 ^ 100) as Hb.
  { intros v Hv. rewrite Rabs_pos_eq; lra. }
  destruct (H 10 20 0.25 0.75) as (x & y & Ex & Ey & Hxy & Hx & _);
    try (apply Hb; lra); try lra.
  exists x, y. repeat split; try assumption. apply Hx. lra.
Defined.

(** The loop that numbers the positions: with distinct positions, the
    i-th position gets the value for the index i. *)
Lemma Record_fold_indexed (g : nat -> number) (positions : list StopPosition) :
  NoDup positions ->
  forall (k : nat) (acc : StopRecord number),
    let result :=
      fold_left
        (fun result entry => Record_set result (snd entry) (g (fst entry)))
        (combine (seq k (List.length positions)) positions) acc in
    (forall i q, nth_error positions i = Some q ->
                 result q = Some (g (k + i)%nat)) /\
    (forall q, ~ In q positions -> result q = acc q).
Proof.
  induction 1 as [|p rest Hfresh Hnodup IH]; intros k acc.
  - cbn. split; [intros [|i] q H; discriminate | reflexivity].
  - cbn [List.length seq combine fold_left fst snd].
    destruct (IH (S k) (Record_set acc p (g k))) as [IHin IHout].
    cbv zeta in IHin, IHout. split.
    + intros [|i] q Hq; cbn [nth_error] in Hq.
      * injection Hq as <-. rewrite IHout by exact Hfresh.
        unfold Record_set. rewrite Nat.eqb_refl. now rewrite Nat.add_0_r.
      * rewrite (IHin i q Hq). do 2 f_equal. lia.
    + intros q Hq. cbn [In] in Hq. rewrite IHout by tauto.
      unfold Record_set. destruct (Nat.eqb p q) eqn:E; [|reflexivity].
      apply Nat.eqb_eq in E. tauto.
Qed.

(** The loop that divides every entry by the reference value. *)
Lemma Record_fold_normalise (ref : number) (positions : list StopPosition) :
  NoDup positions ->
  forall (acc : StopRecord number) (q : StopPosition),
    fold_left
      (fun result position =>
         Record_set result position (Record_number result position / ref)%num)
      positions acc q
    = if in_dec Nat.eq_dec q positions
      then Some (Record_number acc q / ref)%num else acc q.
Proof.
  induction 1 as [|p rest Hfresh Hnodup IH]; intros acc q; cbn [fold_left].
  - reflexivity.
  - rewrite IH.
    destruct (in_dec Nat.eq_dec q rest) as [Hin | Hout];
      destruct (in_dec Nat.eq_dec q (p :: rest)) as [Hin' | Hout'];
      cbn [In] in *; try tauto.
    + assert (p <> q) as Hne by (intros ->; tauto).
      unfold Record_number, Record_set.
      apply Nat.eqb_neq in Hne. now rewrite Hne.
    + destruct Hin' as [-> | Hin']; [|tauto].
      unfold Record_set. now rewrite Nat.eqb_refl.
    + unfold Record_set. destruct (Nat.eqb p q) eqn:E; [|reflexivity].
      apply Nat.eqb_eq in E. tauto.
Qed.

(** X26. The lightness multipliers are linear in the index of the stop and
    normalised at the reference stop. With at least two distinct stop
    positions, the i-th position gets (1.9 - s i) / (1.9 - s r), where
    s = 1.8 / (n - 1) and r is the index of the reference stop: exactly 1
    at the reference stop, positive everywhere and strictly decreasing
    along the list. *)
Theorem calculateLinearLightness_linear :
  forall (STOP_POSITIONS : list StopPosition) (referenceStop : StopPosition)
         (r : nat),
    NoDup STOP_POSITIONS ->
    (2 <= List.length STOP_POSITIONS)%nat ->
    nth_error STOP_POSITIONS r = Some referenceStop ->
    let result := calculateLinearLightness STOP_POSITIONS referenceStop in
    let step := (1.9 - 0.1) / (INR (List.length STOP_POSITIONS) - 1) in
    let raw (i : nat) := 1.9 - step * INR i in
    (forall i p, nth_error STOP_POSITIONS i = Some p ->
                 result p = Some (Fin (raw i / raw r))) /\
    result referenceStop = Some (Fin 1) /\
    (forall i j p q,
       nth_error STOP_POSITIONS i = Some p ->
       nth_error STOP_POSITIONS j = Some q ->
       (i < j)%nat ->
       0 < raw j / raw r < raw i / raw r).
Proof.
  intros stops ref r Hnodup Hlen Hr result step raw.
  set (n := List.length stops) in *.
  assert (2 <= INR n) as Hn.
  { replace 2 with (INR 2) by (simpl; lra). apply le_INR. exact Hlen. }
  assert (0 < step) as Hstep.
  { unfold step. apply Rdiv_lt_0_compat; lra. }
  assert (step * (INR n - 1) = 1.8) as Hspan.
  { unfold step, Rdiv. rewrite Rmult_assoc, Rinv_l by lra. lra. }
  assert (forall i p, nth_error stops i = Some p -> 0.1 <= raw i) as Hlow.
  { intros i p Hi.
    assert (i < n)%nat as Hlt by (apply nth_error_Some; congruence).
    assert (INR i <= INR n - 1) as Hi'.
    { assert (S i <= n)%nat as Hle by lia. apply le_INR in Hle.
      rewrite S_INR in Hle. lra. }
    unfold raw. nra. }
  assert (forall i j, (i < j)%nat -> raw j < raw i) as Hdec.
  { intros i j Hij. apply lt_INR in Hij. unfold raw. nra. }
  pose proof (Hlow r ref Hr) as Hrefpos.
  (* the first loop *)
  set (g := fun i : nat =>
              (#1.9 - (#1.9 - #0.1) / (Fin (INR n) - #1) * Fin (INR i))%num).
  assert (forall i, g i = Fin (raw i)) as Hg.
  { intros i. unfold g. cbn [nsub nneg nadd].
    rewrite ndiv_fin by lra. cbn [nmul nadd nneg].
    reflexivity. }
  destruct (@Record_fold_indexed g stops Hnodup 0%nat
              (Record_set Record_empty ref #1.0)) as [Hfirst _].
  cbv zeta in Hfirst. fold n in Hfirst.
  assert (forall i p, nth_error stops i = Some p ->
                      result p = Some (Fin (raw i / raw r))) as Hres.
  { intros i p Hi. unfold result, calculateLinearLightness. cbv zeta. fold n.
    change (fun (result : StopRecord number) (entry : nat * StopPosition) =>
              Record_set result (snd entry)
                (#1.9 - (#1.9 - #0.1) / (Fin (INR n) - #1)
                        * Fin (INR (fst entry)))%num)
      with (fun (result : StopRecord number) (entry : nat * StopPosition) =>
              Record_set result (snd entry) (g (fst entry))).
    rewrite Record_fold_normalise by exact Hnodup.
    destruct (in_dec Nat.eq_dec p stops) as [_ | Hout];
      [|exfalso; apply Hout; eapply nth_error_In; exact Hi].
    unfold Record_number.
    rewrite (Hfirst i p Hi), (Hfirst r ref Hr). cbn [Nat.add].
    rewrite !Hg. rewrite ndiv_fin by lra. reflexivity. }
  split; [exact Hres|]. split.
  - rewrite (Hres r ref Hr). do 2 f_equal. field. lra.
  - intros i j p q Hi Hj Hij.
    pose proof (Hlow j q Hj) as Hj'. pose proof (Hdec i j Hij) as Hij'.
    assert (0 < / raw r) as Hinv by (apply Rinv_0_lt_compat; lra).
    unfold Rdiv. split; nra.
Qed.

Lemma calculateLinearLightness_linear_witness :
  calculateLinearLightness [100; 200; 300]%nat 200%nat 200%nat = Some (Fin 1).
Proof.
  apply (@calculateLinearLightness_linear [100; 200; 300]%nat 200%nat 1%nat).
  - repeat constructor; cbn; intros H;
      repeat destruct H as [H | H]; try discriminate; exact H.
  - cbn. lia.
  - reflexivity.
Defined.

(* ================================================================== *)
(** * Further properties: lightness and background *)
(* ================================================================== *)




